(** * Feishu channel bridge: session supervisor and incremental reply renderer

    A shallow embedding of [src/monitor.ts] (module [Monitor]), of
    [src/reply-dispatcher.ts] (module [ReplyDispatcher]) and of
    [typing.ts] (module [Typing]), with the properties of the design
    document and further properties of the code proved over the
    embedding.

    Conventions of the embedding.
    - A JavaScript string is the list of its UTF-16 code units ([jsstring]).
    - A JavaScript number holding an integer (timestamps of [Date.now()],
      counters, delays) is a [Z]; where the source relies on the limits of
      doubles the wrap-around is written out ([js_incr]).
    - The code is single-threaded and event driven: a function of the
      embedding runs one synchronous run-to-completion segment of the
      source; [Date.now()] is read as the [now] argument of that segment. *)

From Stdlib Require Import ZArith Lia.
From stdpp Require Import gmap strings list fin_maps.

Local Open Scope Z_scope.

(** ** JavaScript values shared by both files *)

Abbreviation jsstring := (list N).

(** A string literal of the source. *)
Fixpoint js (s : string) : jsstring :=
  match s with
  | EmptyString => []
  | String a s' => Ascii.N_of_ascii a :: js s'
  end.

(** Truthiness of a [string | null | undefined]: only a non-empty string
    is truthy. *)
Definition truthy_str (o : option jsstring) : bool :=
  match o with
  | Some (_ :: _) => true
  | _ => false
  end.

(** [n++] on a double holding a non-negative integer: exact up to [2^53],
    where [n + 1] rounds back to [n]. *)
Definition js_incr (n : Z) : Z := if n <? 2 ^ 53 then n + 1 else n.

(** ** monitor.ts *)

Module Monitor.

Definition DEDUP_TTL_MS : Z := 60 * 60 * 1000.

(** The inbound event as far as the handler looks at it: [message_id] is
    the value of [event.message?.message_id] ([None] for [undefined]);
    [content] stands for the rest of the event. *)
Record FeishuMessageEvent := {
  message_id : option jsstring;
  content : jsstring
}.

(** What a call into the SDK does: it returns, or it throws [err]
    (given as [String(err)]). *)
Inductive call :=
| Returns
| Throws (err : string).

(** The underlying socket as [forceStopWSClient] probes it: a member is
    [None] when its [typeof] is not ["function"], otherwise it says what
    calling it does. *)
Record WebSocket := {
  terminate : option call;
  close : option call
}.

(** [wsConfig.getWSInstance()]: the call throws, or it returns the socket
    ([None] for a falsy value). *)
Inductive instance_lookup :=
| Gives (ws : option WebSocket)
| LookupThrows (err : string).

(** [c.wsConfig]; [getWSInstance] is [None] when the member is [null] or
    [undefined].  What [updateWs] does is left out: its call sits in a
    [try] block of its own with an empty [catch]. *)
Record WSConfig := {
  getWSInstance : option instance_lookup
}.

(** A [WSClient] object of the SDK.  [handle] is its identity, chosen by
    [createFeishuWSClient]: two objects are [===] when their handles
    agree.  The other fields are the private members as a force-stop
    finds them: the two timers ([None] when falsy) and [wsConfig]
    ([None] when falsy).  A force-stop sets the timer fields it cleared
    to [undefined]; every caller drops the object from [currentWsClient]
    right after, and the fields are not read again. *)
Record WSClient := {
  handle : nat;
  pingInterval : option nat;
  reconnectInterval : option nat;
  wsConfig : option WSConfig
}.

(** Module-level state. *)
Record state := {
  currentWsClient : option WSClient;
  activeSessionId : Z;
  processedMessages : gmap jsstring Z
}.

Definition initial : state :=
  {| currentWsClient := None; activeSessionId := 0; processedMessages := ∅ |}.

(** What a segment does to the outside. *)
Inductive effect :=
| Log (line : string)
| LogDuplicate (msgId : jsstring)
| ClearTimeout (timer : nat)
| UpdateWs (client : nat)
| Terminate (client : nat) (r : call)
| Close (client : nat) (r : call)
| WsStart (client : nat)
| Rejected
| HandleFeishuMessage (ev : FeishuMessageEvent).

Definition pruneProcessedMessages (now : Z) (m : gmap jsstring Z) : gmap jsstring Z :=
  filter (λ kv : jsstring * Z, ¬ (now - kv.2 > DEDUP_TTL_MS)) m.

(** [if (t) { clearTimeout(t); t = undefined; }] *)
Definition clear_timer (t : option nat) : list effect :=
  match t with
  | Some h => [ClearTimeout h]
  | None => []
  end.

(** How [forceStopWSClient] ends after its last call [r] into the SDK:
    with the last statement of the [try] block, or in the [catch] block
    when that call threw. *)
Definition stop_logged (r : call) : effect :=
  match r with
  | Returns => Log "feishu: previous WSClient force-stopped"
  | Throws err => Log ("feishu: best-effort WSClient cleanup failed: " +:+ err)
  end.

(** Best effort: the timers are cleared when set, auto-reconnect is
    switched off when there is a [wsConfig], and the socket is terminated
    (or, lacking [terminate], closed) when [getWSInstance] gives one.  A
    throwing call ends the attempt in the [catch] block. *)
Definition forceStopWSClient (client : WSClient) : list effect :=
  clear_timer (pingInterval client)
  ++ clear_timer (reconnectInterval client)
  ++ match wsConfig client with
     | None => [stop_logged Returns]
     | Some cfg =>
         UpdateWs (handle client)
         :: match getWSInstance cfg with
            | None | Some (Gives None) => [stop_logged Returns]
            | Some (LookupThrows err) => [stop_logged (Throws err)]
            | Some (Gives (Some ws)) =>
                match terminate ws, close ws with
                | Some r, _ => [Terminate (handle client) r; stop_logged r]
                | None, Some r => [Close (handle client) r; stop_logged r]
                | None, None => [stop_logged Returns]
                end
            end
     end.

Definition set_client (c : option WSClient) (s : state) : state :=
  {| currentWsClient := c;
     activeSessionId := activeSessionId s;
     processedMessages := processedMessages s |}.

(** [cleanup] of [monitorWebSocket], for the connection [wsClient]. *)
Definition cleanup (wsClient : WSClient) (s : state) : state * list effect :=
  if bool_decide (handle <$> currentWsClient s = Some (handle wsClient))
  then (set_client None s, forceStopWSClient wsClient)
  else (s, []).

(** The [im.message.receive_v1] handler registered by the connection
    whose captured generation is [mySessionId]. *)
Definition on_message_receive (mySessionId : Z) (ev : FeishuMessageEvent)
    (now : Z) (s : state) : state * list effect :=
  if bool_decide (mySessionId ≠ activeSessionId s) then (s, [])
  else
    match message_id ev with
    | Some (c :: r) =>
        let msgId := c :: r in
        if bool_decide (is_Some (processedMessages s !! msgId))
        then (s, [LogDuplicate msgId])
        else
          let inserted := <[msgId := now]> (processedMessages s) in
          let kept :=
            if bool_decide (200 < size inserted)%nat
            then pruneProcessedMessages now inserted
            else inserted in
          ({| currentWsClient := currentWsClient s;
              activeSessionId := activeSessionId s;
              processedMessages := kept |},
           [HandleFeishuMessage ev])
    | _ => (s, [HandleFeishuMessage ev])
    end.

(** [monitorWebSocket] up to the returned promise: [wsClient] is the
    object made by [createFeishuWSClient], [aborted] is
    [abortSignal?.aborted] and [startThrows] says whether
    [wsClient.start] throws.  Returns the captured [mySessionId]. *)
Definition monitorWebSocket (wsClient : WSClient) (aborted startThrows : bool)
    (s : state) : state * Z * list effect :=
  let mySessionId := js_incr (activeSessionId s) in
  let stopped :=
    match currentWsClient s with
    | Some old => Log "feishu: stopping previous WebSocket client before starting new one"
                  :: forceStopWSClient old
    | None => []
    end in
  let s1 := {| currentWsClient := Some wsClient;
               activeSessionId := mySessionId;
               processedMessages := processedMessages s |} in
  let pre := stopped ++ [Log "feishu: starting WebSocket connection..."] in
  if aborted then
    let '(s2, e) := cleanup wsClient s1 in (s2, mySessionId, pre ++ e)
  else if startThrows then
    let '(s2, e) := cleanup wsClient s1 in
    (s2, mySessionId, pre ++ WsStart (handle wsClient) :: e ++ [Rejected])
  else (s1, mySessionId,
        pre ++ [WsStart (handle wsClient); Log "feishu: WebSocket client started"]).

(** [handleAbort] of the connection [wsClient]. *)
Definition handleAbort (wsClient : WSClient) (s : state) : state * list effect :=
  let '(s1, e) := cleanup wsClient s in
  (s1, Log "feishu: abort signal received, stopping WebSocket client" :: e).

Definition stopFeishuMonitor (s : state) : state * list effect :=
  let s1 := {| currentWsClient := currentWsClient s;
               activeSessionId := js_incr (activeSessionId s);
               processedMessages := processedMessages s |} in
  match currentWsClient s with
  | Some c => (set_client None s1, forceStopWSClient c)
  | None => (s1, [])
  end.

(** What can happen to the module, one synchronous segment each. *)
Inductive event :=
| Start (wsClient : WSClient) (aborted startThrows : bool)
| Abort (wsClient : WSClient)
| Stop
| Receive (mySessionId : Z) (ev : FeishuMessageEvent) (now : Z).

Definition step (e : event) (s : state) : state * list effect :=
  match e with
  | Start c a t => let '(s1, _, eff) := monitorWebSocket c a t s in (s1, eff)
  | Abort c => handleAbort c s
  | Stop => stopFeishuMonitor s
  | Receive sid ev now => on_message_receive sid ev now s
  end.

Fixpoint run (es : list event) (s : state) : state * list effect :=
  match es with
  | [] => (s, [])
  | e :: es' =>
      let '(s1, eff1) := step e s in
      let '(s2, eff2) := run es' s1 in
      (s2, eff1 ++ eff2)
  end.

(** The events forwarded to the agent boundary that carry identifier [m]. *)
Definition forwarded (m : jsstring) (effs : list effect) : list FeishuMessageEvent :=
  omap (λ e, match e with
             | HandleFeishuMessage ev =>
                 if bool_decide (message_id ev = Some m) then Some ev else None
             | _ => None
             end) effs.

(** Everything forwarded to the agent boundary. *)
Definition forwarded_any (effs : list effect) : list FeishuMessageEvent :=
  omap (λ e, match e with HandleFeishuMessage ev => Some ev | _ => None end) effs.

(** The clock reading of [e], if it takes one, is not after [t]. *)
Definition no_later_than (t : Z) (e : event) : Prop :=
  match e with
  | Receive _ _ now => now ≤ t
  | _ => True
  end.

End Monitor.

(** ** reply-dispatcher.ts *)

Module ReplyDispatcher.

(** *** Strings *)

Definition LF : N := 10.
Definition CR : N := 13.

(** LineTerminator of ECMAScript. *)
Definition is_line_terminator (c : N) : bool :=
  (c =? 10)%N || (c =? 13)%N || (c =? 0x2028)%N || (c =? 0x2029)%N.

(** WhiteSpace of ECMAScript: TAB, VT, FF, ZWNBSP and the Zs category. *)
Definition is_white_space (c : N) : bool :=
  (c =? 9)%N || (c =? 11)%N || (c =? 12)%N || (c =? 32)%N || (c =? 0xA0)%N
  || (c =? 0x1680)%N || ((0x2000 <=? c)%N && (c <=? 0x200A)%N)
  || (c =? 0x202F)%N || (c =? 0x205F)%N || (c =? 0x3000)%N || (c =? 0xFEFF)%N.

(** [!text.trim()]: [trim] strips white space and line terminators from
    both ends, so the result is empty exactly when nothing else occurs. *)
Definition blank (text : jsstring) : bool :=
  forallb (λ c, is_white_space c || is_line_terminator c) text.

(** Truthiness of a string value. *)
Definition nonempty (text : jsstring) : bool :=
  match text with [] => false | _ :: _ => true end.

Definition startsWith (p text : jsstring) : bool :=
  bool_decide (take (length p) text = p).

Definition endsWith (p text : jsstring) : bool :=
  bool_decide (drop (length text - length p) text = p
               ∧ (length p ≤ length text)%nat).

(** *** Regular expressions of the file

    The patterns used are sequences of single-character atoms, each taken
    once or one-or-more times; [test] looks for a match starting anywhere
    (no flags, no anchors).  Matching backtracks over the repetitions. *)

Inductive quant := Once | Plus.

Definition regex := list ((N → bool) * quant).

Fixpoint match_here (r : regex) : jsstring → bool :=
  match r with
  | [] => λ _, true
  | (a, Once) :: r' =>
      λ text, match text with
              | c :: rest => a c && match_here r' rest
              | [] => false
              end
  | (a, Plus) :: r' =>
      fix more (text : jsstring) : bool :=
        match text with
        | c :: rest => a c && (match_here r' rest || more rest)
        | [] => false
        end
  end.

Fixpoint test (r : regex) (text : jsstring) : bool :=
  match_here r text
  || match text with
     | [] => false
     | _ :: rest => test r rest
     end.

(** [\|] and the like: one given character. *)
Definition chr (a : string) : N → bool := λ c, bool_decide (js a = [c]).
(** [.]: anything but a line terminator. *)
Definition dot : N → bool := λ c, negb (is_line_terminator c).
(** [[...]]: one of the listed characters. *)
Definition oneof (l : jsstring) : N → bool := λ c, bool_decide (c ∈ l).

(** [/\|.+\|[\r\n]+\|[-:| ]+\|/] *)
Definition table_pattern : regex :=
  [ (chr "|", Once); (dot, Plus); (chr "|", Once);
    (oneof [CR; LF], Plus);
    (chr "|", Once); (oneof (js "-:| "), Plus); (chr "|", Once) ].

Definition hasMarkdownTable (text : jsstring) : bool := test table_pattern text.

(** String literals of the file (the brain emoji is U+1F9E0, the
    ellipsis U+2026, the cursor block U+258D). *)
Definition BRAIN : jsstring := [0xD83E; 0xDDE0]%N.
Definition THINKING : jsstring := BRAIN ++ js " Thinking" ++ [0x2026%N].
Definition THINKING_BOLD : jsstring := BRAIN ++ js " **Thinking" ++ [0x2026%N] ++ js "**".
Definition STREAMING_CURSOR : jsstring := [32; 0x258D]%N.
Definition DEFAULT_PATCH_INTERVAL_MS : Z := 500.
Definition DEFAULT_THINKING_UPDATE_INTERVAL_MS : Z := 800.

(** *** The card *)

(** An element of [body.elements] of the card JSON ([schema] and [config]
    are constants). *)
Inductive element :=
| CollapsiblePanel (expanded : bool) (title content : jsstring)
| Markdown (content : jsstring).

Definition card := list element.

Definition buildUnifiedCard (thinkingMarkdown : option jsstring)
    (thinkingExpanded : bool) (thinkingTitle : jsstring)
    (replyMarkdown : option jsstring) : card :=
  (match thinkingMarkdown with
   | Some (c :: r) => [CollapsiblePanel thinkingExpanded thinkingTitle (c :: r)]
   | _ => []
   end)
  ++ (match replyMarkdown with
      | Some (c :: r) => [Markdown (c :: r)]
      | _ => []
      end).

(** The reply body a card shows. *)
Definition reply_body (c : card) : option jsstring :=
  last (omap (λ e, match e with Markdown t => Some t | _ => None end) c).

(** [a || b] on strings. *)
Definition or_else (a b : jsstring) : jsstring := if nonempty a then a else b.

(** *** The outside world *)

(** A network call of [send.ts]. *)
Inductive request :=
| sendCardFeishu (c : card)
| updateCardFeishu (messageId : jsstring) (c : card)
| sendMessageFeishu (text : jsstring).

(** How a network call settles. *)
Inductive outcome :=
| Resolved (messageId : jsstring)
| Threw.

(** The caller suspended on a network call: the [await] it sits at. *)
Inductive kont :=
| KCreate                              (* patchCard: await p (creation) *)
| KUpdate                              (* patchCard: await updateCardFeishu *)
| KFinalUpdate (fullText : jsstring)   (* doDeliverFinalReply: await updateCardFeishu *)
| KStandaloneCard (text : jsstring)    (* deliverStandalone: await sendCardFeishu *)
| KChunk (rest : list jsstring).       (* deliverStandalone: await sendMessageFeishu *)

(** What the dispatcher does to the outside, in order. *)
Inductive action :=
| Request (id : nat) (r : request) (k : kont)
| SetTimeout (handle : nat) (delay : Z)
| ClearTimeout (handle : nat)
| LogLine (line : string)
| PatchRejected (isFinal : bool)
| DeliveryRejected
| TypingIdle.

Definition is_card_op (k : kont) : bool :=
  match k with
  | KCreate | KUpdate | KFinalUpdate _ => true
  | _ => false
  end.

(** The requests of the card pipeline (create or update) in a trace. *)
Definition card_requests (tr : list action) : list action :=
  List.filter (λ a, match a with Request _ _ k => is_card_op k | _ => false end) tr.

(** How often [deliverStandalone] was entered in a trace: each entry
    starts with its [sendCardFeishu]. *)
Definition standalone_starts (tr : list action) : nat :=
  length (List.filter (λ a, match a with
                            | Request _ _ (KStandaloneCard _) => true
                            | _ => false
                            end) tr).

Section Dispatcher.

(** [Record<string, unknown>], the arguments of a tool call. *)
Variable Args : Type.

Record ToolEntry := { name : jsstring; args : option Args; startedAt : Z }.
Record CompletedToolEntry := { entry : ToolEntry; failed : bool }.

(** Configuration read when the dispatcher is created:
    [feishuCfg?.streaming?.patchIntervalMs] and
    [feishuCfg?.streaming?.cursor !== false]. *)
Variable patchIntervalMs_cfg : option Z.
Variable showCursor : bool.

(** The markdown renderers of the file, whose text no property below
    looks into; [buildThinkingCollapseSummary] also takes the reading
    of [Date.now()] it makes. *)
Variable buildThinkingSection :
  option jsstring → list (jsstring * ToolEntry) → list CompletedToolEntry → Z → jsstring.
Variable buildThinkingCollapseSummary : list CompletedToolEntry → option Z → Z → jsstring.
Variable repairMarkdownTables : jsstring → jsstring.

(** [core.channel.text.convertMarkdownTables] followed by
    [core.channel.text.chunkTextWithMode], of the plugin SDK. *)
Variable plainTextChunks : jsstring → list jsstring.

Definition patchIntervalMs : Z := default DEFAULT_PATCH_INTERVAL_MS patchIntervalMs_cfg.

(** The variables closed over by [createFeishuReplyDispatcher].  A timer
    and a promise are known by the handle the host gave them. *)
Record state := mkState {
  cardMessageId : option jsstring;
  accumulatedText : jsstring;
  lastPatchTime : Z;
  pendingPatchTimer : option nat;
  streamingFailed : bool;
  cardCreationPromise : option nat;
  thinkingText : option jsstring;
  activeTools : list (jsstring * ToolEntry);
  completedTools : list CompletedToolEntry;
  thinkingStopped : bool;
  hasThinkingContent : bool;
  thinkingStartedAt : option Z;
  standaloneDelivered : bool
}.

Definition initial_state : state :=
  mkState None [] 0 None false None None [] [] false false None false.

Definition set_cardMessageId v s :=
  mkState v (accumulatedText s) (lastPatchTime s) (pendingPatchTimer s)
    (streamingFailed s) (cardCreationPromise s) (thinkingText s) (activeTools s)
    (completedTools s) (thinkingStopped s) (hasThinkingContent s)
    (thinkingStartedAt s) (standaloneDelivered s).
Definition set_accumulatedText v s :=
  mkState (cardMessageId s) v (lastPatchTime s) (pendingPatchTimer s)
    (streamingFailed s) (cardCreationPromise s) (thinkingText s) (activeTools s)
    (completedTools s) (thinkingStopped s) (hasThinkingContent s)
    (thinkingStartedAt s) (standaloneDelivered s).
Definition set_lastPatchTime v s :=
  mkState (cardMessageId s) (accumulatedText s) v (pendingPatchTimer s)
    (streamingFailed s) (cardCreationPromise s) (thinkingText s) (activeTools s)
    (completedTools s) (thinkingStopped s) (hasThinkingContent s)
    (thinkingStartedAt s) (standaloneDelivered s).
Definition set_pendingPatchTimer v s :=
  mkState (cardMessageId s) (accumulatedText s) (lastPatchTime s) v
    (streamingFailed s) (cardCreationPromise s) (thinkingText s) (activeTools s)
    (completedTools s) (thinkingStopped s) (hasThinkingContent s)
    (thinkingStartedAt s) (standaloneDelivered s).
Definition set_streamingFailed v s :=
  mkState (cardMessageId s) (accumulatedText s) (lastPatchTime s) (pendingPatchTimer s)
    v (cardCreationPromise s) (thinkingText s) (activeTools s)
    (completedTools s) (thinkingStopped s) (hasThinkingContent s)
    (thinkingStartedAt s) (standaloneDelivered s).
Definition set_cardCreationPromise v s :=
  mkState (cardMessageId s) (accumulatedText s) (lastPatchTime s) (pendingPatchTimer s)
    (streamingFailed s) v (thinkingText s) (activeTools s)
    (completedTools s) (thinkingStopped s) (hasThinkingContent s)
    (thinkingStartedAt s) (standaloneDelivered s).
Definition set_thinkingText v s :=
  mkState (cardMessageId s) (accumulatedText s) (lastPatchTime s) (pendingPatchTimer s)
    (streamingFailed s) (cardCreationPromise s) v (activeTools s)
    (completedTools s) (thinkingStopped s) (hasThinkingContent s)
    (thinkingStartedAt s) (standaloneDelivered s).
Definition set_activeTools v s :=
  mkState (cardMessageId s) (accumulatedText s) (lastPatchTime s) (pendingPatchTimer s)
    (streamingFailed s) (cardCreationPromise s) (thinkingText s) v
    (completedTools s) (thinkingStopped s) (hasThinkingContent s)
    (thinkingStartedAt s) (standaloneDelivered s).
Definition set_completedTools v s :=
  mkState (cardMessageId s) (accumulatedText s) (lastPatchTime s) (pendingPatchTimer s)
    (streamingFailed s) (cardCreationPromise s) (thinkingText s) (activeTools s)
    v (thinkingStopped s) (hasThinkingContent s)
    (thinkingStartedAt s) (standaloneDelivered s).
Definition set_thinkingStopped v s :=
  mkState (cardMessageId s) (accumulatedText s) (lastPatchTime s) (pendingPatchTimer s)
    (streamingFailed s) (cardCreationPromise s) (thinkingText s) (activeTools s)
    (completedTools s) v (hasThinkingContent s)
    (thinkingStartedAt s) (standaloneDelivered s).
Definition set_hasThinkingContent v s :=
  mkState (cardMessageId s) (accumulatedText s) (lastPatchTime s) (pendingPatchTimer s)
    (streamingFailed s) (cardCreationPromise s) (thinkingText s) (activeTools s)
    (completedTools s) (thinkingStopped s) v
    (thinkingStartedAt s) (standaloneDelivered s).
Definition set_thinkingStartedAt v s :=
  mkState (cardMessageId s) (accumulatedText s) (lastPatchTime s) (pendingPatchTimer s)
    (streamingFailed s) (cardCreationPromise s) (thinkingText s) (activeTools s)
    (completedTools s) (thinkingStopped s) (hasThinkingContent s)
    v (standaloneDelivered s).
Definition set_standaloneDelivered v s :=
  mkState (cardMessageId s) (accumulatedText s) (lastPatchTime s) (pendingPatchTimer s)
    (streamingFailed s) (cardCreationPromise s) (thinkingText s) (activeTools s)
    (completedTools s) (thinkingStopped s) (hasThinkingContent s)
    (thinkingStartedAt s) v.

(** The dispatcher inside its host: the closure state, the handle
    supply, the armed timeouts, the network calls in flight with the
    caller suspended on each, the [patchCard] calls suspended at
    [await cardCreationPromise] (promise handle and [isFinal], oldest
    first), and everything done to the outside so far. *)
Record config := mkConfig {
  st : state;
  next : nat;
  timers : list nat;
  calls : list (nat * kont);
  waiting : list (nat * bool);
  trace : list action
}.

Definition initial : config := mkConfig initial_state 0 [] [] [] [].

Definition with_st (f : state → state) (c : config) : config :=
  mkConfig (f (st c)) (next c) (timers c) (calls c) (waiting c) (trace c).

Definition emit (a : action) (c : config) : config :=
  mkConfig (st c) (next c) (timers c) (calls c) (waiting c) (trace c ++ [a]).

(** Start a network call and suspend the caller at [k]. *)
Definition issue (r : request) (k : kont) (c : config) : config :=
  mkConfig (st c) (S (next c)) (timers c) (calls c ++ [(next c, k)]) (waiting c)
    (trace c ++ [Request (next c) r k]).

(** [setTimeout] arms a timeout under the fresh handle [next c];
    [clearTimeout] disarms one. *)
Definition setTimeout (delay : Z) (c : config) : config :=
  mkConfig (st c) (S (next c)) (timers c ++ [next c]) (calls c) (waiting c)
    (trace c ++ [SetTimeout (next c) delay]).

Definition clearTimeout (h : nat) (c : config) : config :=
  mkConfig (st c) (next c) (List.filter (λ t, negb (Nat.eqb t h)) (timers c))
    (calls c) (waiting c) (trace c ++ [ClearTimeout h]).

(** [Map.set], [Map.get] and [Map.delete] on [activeTools]; a [Map]
    keeps its keys in insertion order. *)
Fixpoint map_set (k : jsstring) (v : ToolEntry) (m : list (jsstring * ToolEntry)) :=
  match m with
  | [] => [(k, v)]
  | (k', v') :: m' =>
      if bool_decide (k' = k) then (k, v) :: m' else (k', v') :: map_set k v m'
  end.

Definition map_get (k : jsstring) (m : list (jsstring * ToolEntry)) : option ToolEntry :=
  snd <$> List.find (λ kv, bool_decide (kv.1 = k)) m.

Definition map_delete (k : jsstring) (m : list (jsstring * ToolEntry)) :=
  List.filter (λ kv, negb (bool_decide (kv.1 = k))) m.

(** Truthiness of [number | undefined]. *)
Definition truthy_num (o : option Z) : bool :=
  match o with
  | Some n => negb (n =? 0)
  | None => false
  end.

(** *** Unified card helpers *)

Definition buildCurrentCard (isFinal : bool) (now : Z) (s : state) : card :=
  let cursor := if isFinal || negb showCursor then [] else STREAMING_CURSOR in
  let replyMd :=
    if nonempty (accumulatedText s)
    then Some (repairMarkdownTables (accumulatedText s) ++ cursor)
    else None in
  let thinkingMd :=
    buildThinkingSection (thinkingText s) (activeTools s) (completedTools s) 3000 in
  let hasThinking := hasThinkingContent s || nonempty thinkingMd in
  let collapseSummary :=
    buildThinkingCollapseSummary (completedTools s) (thinkingStartedAt s) now in
  buildUnifiedCard
    (if hasThinking then Some (or_else thinkingMd THINKING) else None)
    (negb (thinkingStopped s))
    (if thinkingStopped s then collapseSummary else THINKING)
    (if truthy_str replyMd then replyMd
     else if negb hasThinking then Some THINKING_BOLD else None).

(** [patchCard] from [const card = buildCurrentCard(isFinal)] up to its
    network call: creation when no card exists, update otherwise. *)
Definition patchCard_send (isFinal : bool) (now : Z) (c : config) : config :=
  let card := buildCurrentCard isFinal now (st c) in
  match cardMessageId (st c) with
  | Some (ch :: r) => issue (updateCardFeishu (ch :: r) card) KUpdate c
  | _ =>
      with_st (set_cardCreationPromise (Some (next c)))
        (issue (sendCardFeishu card) KCreate c)
  end.

(** [patchCard] up to its first [await]. *)
Definition patchCard (isFinal : bool) (now : Z) (c : config) : config :=
  if streamingFailed (st c) then c
  else if negb isFinal && nonempty (accumulatedText (st c))
          && hasMarkdownTable (accumulatedText (st c)) then c
  else
    match cardCreationPromise (st c) with
    | Some p =>
        mkConfig (st c) (next c) (timers c) (calls c)
          (waiting c ++ [(p, isFinal)]) (trace c)
    | None => patchCard_send isFinal now c
    end.

(** The [catch] block of [patchCard]. *)
Definition patchCard_catch (c : config) : config :=
  let c1 := with_st (set_cardCreationPromise None)
              (emit (LogLine "feishu: card patch failed") c) in
  if truthy_str (cardMessageId (st c1)) then c1
  else with_st (set_streamingFailed true) c1.

Definition schedulePatch (now : Z) (c : config) : config :=
  match pendingPatchTimer (st c) with
  | Some _ => c
  | None =>
      let delay := Z.max 0 (patchIntervalMs - (now - lastPatchTime (st c))) in
      with_st (set_pendingPatchTimer (Some (next c))) (setTimeout delay c)
  end.

Definition clearPendingPatch (c : config) : config :=
  match pendingPatchTimer (st c) with
  | Some h => with_st (set_pendingPatchTimer None) (clearTimeout h c)
  | None => c
  end.

Definition triggerThinkingUpdate (now : Z) (c : config) : config :=
  if thinkingStopped (st c) then c
  else
    let c1 := with_st (set_hasThinkingContent true) c in
    let c2 := if truthy_num (thinkingStartedAt (st c1)) then c1
              else with_st (set_thinkingStartedAt (Some now)) c1 in
    if (now - lastPatchTime (st c2) >=? DEFAULT_THINKING_UPDATE_INTERVAL_MS)
    then patchCard false now c2
    else schedulePatch now c2.

Definition collapseThinking (now : Z) (c : config) : config :=
  let c1 := clearPendingPatch (with_st (set_thinkingStopped true) c) in
  if negb (truthy_str (cardMessageId (st c1))) || negb (hasThinkingContent (st c1))
  then c1
  else patchCard false now c1.

(** *** Non-streaming fallback *)

(** [deliverStandalone] up to [await sendCardFeishu]. *)
Definition deliverStandalone (text : jsstring) (c : config) : config :=
  issue (sendCardFeishu (buildUnifiedCard None false [] (Some text)))
    (KStandaloneCard text) c.

(** The [for] loop of [deliverStandalone] up to its next [await]. *)
Definition sendChunks (chunks : list jsstring) (c : config) : config :=
  match chunks with
  | [] => c
  | chunk :: rest => issue (sendMessageFeishu chunk) (KChunk rest) c
  end.

(** The guarded call in both branches of [doDeliverFinalReply]. *)
Definition standaloneOnce (fullText : jsstring) (c : config) : config :=
  if standaloneDelivered (st c) then c
  else deliverStandalone fullText (with_st (set_standaloneDelivered true) c).

(** The card built in the first branch of [doDeliverFinalReply]. *)
Definition buildFinalCard (fullText : jsstring) (now : Z) (s : state) : card :=
  buildUnifiedCard
    (if hasThinkingContent s
     then Some (or_else (buildThinkingSection (thinkingText s) (activeTools s)
                           (completedTools s) 3000) THINKING)
     else None)
    false
    (buildThinkingCollapseSummary (completedTools s) (thinkingStartedAt s) now)
    (Some fullText).

(** [doDeliverFinalReply] up to its first [await]. *)
Definition doDeliverFinalReply (now : Z) (c : config) : config :=
  let fullText := accumulatedText (st c) in
  if blank fullText then c
  else
    match cardMessageId (st c) with
    | Some (ch :: r) =>
        let c1 := with_st (set_thinkingStopped true) c in
        issue (updateCardFeishu (ch :: r) (buildFinalCard fullText now (st c1)))
          (KFinalUpdate fullText) c1
    | _ => standaloneOnce fullText c
    end.

(** *** dispatcherOptions *)

Definition deliver (text kind : option jsstring) (now : Z) (c : config) : config :=
  let text := default [] text in
  if blank text then c
  else
    let c1 := if thinkingStopped (st c) then c
              else clearPendingPatch (with_st (set_thinkingStopped true) c) in
    let acc := accumulatedText (st c1) in
    let acc1 := if nonempty acc && negb (endsWith [LF] acc) && negb (startsWith [LF] text)
                then acc ++ [LF] else acc in
    let c2 := with_st (set_accumulatedText (acc1 ++ text)) c1 in
    if bool_decide (default (js "final") kind = js "final")
    then doDeliverFinalReply now c2
    else c2.

Definition onSkip (c : config) : config := emit (LogLine "feishu: skipped reply") c.

Definition onError (c : config) : config :=
  emit TypingIdle (clearPendingPatch (emit (LogLine "feishu reply failed") c)).

Definition onIdle (now : Z) (c : config) : config :=
  let c1 := with_st (set_thinkingStopped true) (clearPendingPatch c) in
  let c2 := if negb (blank (accumulatedText (st c1)))
            then doDeliverFinalReply now c1 else c1 in
  emit TypingIdle c2.

(** *** replyOptions *)

Definition onReasoningStream (text : option jsstring) (now : Z) (c : config) : config :=
  match text with
  | Some (ch :: r) =>
      triggerThinkingUpdate now (with_st (set_thinkingText (Some (ch :: r))) c)
  | _ => c
  end.

(** The event as [onAgentEvent] reads it: a field is [None] when it is
    absent or not of the type the handler asks for; [isError] is
    [Boolean(evt.data?.isError)]. *)
Record AgentEvent := {
  stream : option jsstring;
  phase : option jsstring;
  toolCallId : option jsstring;
  toolName : option jsstring;
  toolArgs : option Args;
  isError : bool
}.

Definition onAgentEvent (evt : AgentEvent) (now : Z) (c : config) : config :=
  if bool_decide (stream evt = Some (js "tool")) then
    let ph := default [] (phase evt) in
    let id := default [] (toolCallId evt) in
    let nm := default [] (toolName evt) in
    if bool_decide (ph = js "start") && nonempty id then
      triggerThinkingUpdate now
        (with_st (λ s, set_activeTools
                         (map_set id {| name := nm; args := toolArgs evt; startedAt := now |}
                            (activeTools s)) s) c)
    else if bool_decide (ph = js "result") && nonempty id then
      let c1 :=
        match map_get id (activeTools (st c)) with
        | Some e =>
            with_st (λ s, set_completedTools
                            (completedTools s ++ [{| entry := e; failed := isError evt |}])
                            (set_activeTools (map_delete id (activeTools s)) s)) c
        | None => c
        end in
      triggerThinkingUpdate now c1
    else c
  else c.

Definition markDispatchIdle (now : Z) (c : config) : config :=
  let c1 := clearPendingPatch c in
  let c2 :=
    if thinkingStopped (st c1) then c1
    else
      let c' := with_st (set_thinkingStopped true) c1 in
      if truthy_str (cardMessageId (st c')) && hasThinkingContent (st c')
      then patchCard false now c' else c' in
  emit TypingIdle c2.

(** *** The host: timers and settling network calls *)

(** The callback given to [setTimeout] in [schedulePatch], run when the
    armed timeout [h] expires. *)
Definition timerFires (h : nat) (now : Z) (c : config) : config :=
  if bool_decide (h ∈ timers c) then
    let c1 := mkConfig (set_pendingPatchTimer None (st c)) (next c)
                (List.filter (λ t, negb (Nat.eqb t h)) (timers c))
                (calls c) (waiting c) (trace c) in
    if streamingFailed (st c1) then c1 else patchCard false now c1
  else c.

(** The [patchCard] calls suspended on the creation promise [p] resume
    in the order they suspended: past the [await] when the promise is
    fulfilled, by rejecting when it is rejected. *)
Definition wake (p : nat) (fulfilled : bool) (now : Z) (c : config) : config :=
  let mine := List.filter (λ w : nat * bool, Nat.eqb w.1 p) (waiting c) in
  let others := List.filter (λ w : nat * bool, negb (Nat.eqb w.1 p)) (waiting c) in
  fold_left
    (λ acc (w : nat * bool),
       if fulfilled then patchCard_send w.2 now acc else emit (PatchRejected w.2) acc)
    mine
    (mkConfig (st c) (next c) (timers c) (calls c) others (trace c)).

(** The network call [id] settles and its caller runs on to its next
    [await]. *)
Definition settles (id : nat) (o : outcome) (now : Z) (c : config) : config :=
  match List.find (λ e : nat * kont, Nat.eqb e.1 id) (calls c) with
  | None => c
  | Some (_, k) =>
      let c0 := mkConfig (st c) (next c) (timers c)
                  (List.filter (λ e : nat * kont, negb (Nat.eqb e.1 id)) (calls c))
                  (waiting c) (trace c) in
      match k, o with
      | KCreate, Resolved messageId =>
          (* the [then] callback of the creation, then the waiters *)
          wake id true now
            (with_st (λ s, set_cardCreationPromise None
                             (set_lastPatchTime now
                                (set_cardMessageId (Some messageId) s))) c0)
      | KCreate, Threw => wake id false now (patchCard_catch c0)
      | KUpdate, Resolved _ => with_st (set_lastPatchTime now) c0
      | KUpdate, Threw => patchCard_catch c0
      | KFinalUpdate _, Resolved _ => c0
      | KFinalUpdate fullText, Threw => standaloneOnce fullText c0
      | KStandaloneCard _, Resolved _ => c0
      | KStandaloneCard text, Threw => sendChunks (plainTextChunks text) c0
      | KChunk rest, Resolved _ => sendChunks rest c0
      | KChunk _, Threw => emit DeliveryRejected c0
      end
  end.

(** Everything that can happen to a reply, one synchronous segment
    each. *)
Inductive event :=
| Deliver (text kind : option jsstring)
| OnSkip
| OnError
| OnIdle
| OnReasoningStream (text : option jsstring)
| OnAgentEvent (evt : AgentEvent)
| MarkDispatchIdle
| TimerFires (handle : nat)
| Settles (id : nat) (o : outcome).

Definition step (e : event) (now : Z) (c : config) : config :=
  match e with
  | Deliver text kind => deliver text kind now c
  | OnSkip => onSkip c
  | OnError => onError c
  | OnIdle => onIdle now c
  | OnReasoningStream text => onReasoningStream text now c
  | OnAgentEvent evt => onAgentEvent evt now c
  | MarkDispatchIdle => markDispatchIdle now c
  | TimerFires h => timerFires h now c
  | Settles id o => settles id o now c
  end.

(** A run: events with the clock reading of each. *)
Fixpoint run (es : list (event * Z)) (c : config) : config :=
  match es with
  | [] => c
  | (e, now) :: es' => run es' (step e now c)
  end.

(** *** Lemmas *)

Arguments buildUnifiedCard : simpl never.
Arguments buildCurrentCard : simpl never.
Arguments buildFinalCard : simpl never.
Arguments hasMarkdownTable : simpl never.
Arguments blank : simpl never.

(** **** The table pattern *)

Example table_in_progress :
  hasMarkdownTable (js "| a | b |" ++ [LF] ++ js "|---|---|" ++ [LF] ++ js "| 1 |") = true.
Proof. reflexivity. Qed.

Example header_row_alone : hasMarkdownTable (js "| a | b |") = false.
Proof. reflexivity. Qed.

Example blank_spaces : blank (js "  " ++ [LF; 9%N]) = true.
Proof. reflexivity. Qed.

(** A match stays a match when text is appended. *)
Lemma match_here_app (r : regex) (text more : jsstring) :
  match_here r text = true → match_here r (text ++ more) = true.
Proof.
  revert text. induction r as [|[a q] r IH]; intros text; [done|].
  destruct q.
  - destruct text as [|c rest]; simpl; [done|].
    intros [Ha Hr]%andb_true_iff. rewrite Ha. simpl. by apply IH.
  - induction text as [|c rest IHt]; simpl; [done|].
    intros [Ha Hr]%andb_true_iff. rewrite Ha. simpl.
    apply orb_true_iff in Hr as [Hr|Hr].
    + apply orb_true_iff. left. by apply IH.
    + apply orb_true_iff. right. by apply IHt.
Qed.

Lemma test_app (r : regex) (text more : jsstring) :
  test r text = true → test r (text ++ more) = true.
Proof.
  induction text as [|c rest IHt]; simpl.
  - rewrite orb_false_r. intros H.
    apply (match_here_app r [] more) in H. simpl in H.
    destruct more; simpl; rewrite H; done.
  - intros [H|H]%orb_true_iff.
    + apply (match_here_app r (c :: rest) more) in H. simpl in H. by rewrite H.
    + apply orb_true_iff. right. by apply IHt.
Qed.

Lemma hasMarkdownTable_app (text more : jsstring) :
  hasMarkdownTable text = true → hasMarkdownTable (text ++ more) = true.
Proof. apply test_app. Qed.

Lemma hasMarkdownTable_nonempty (text : jsstring) :
  hasMarkdownTable text = true → nonempty text = true.
Proof. by destruct text. Qed.

(** **** Segments as sequences of atomic steps

    Every callback is a sequence of a few kinds of atomic steps, each
    taken under the guard the code puts before it.  A property of runs
    is then checked once per kind of step. *)

(** A state update that leaves the card identifier, the accumulated
    text, the timer handle, the two one-way delivery flags and the
    creation promise alone. *)
Definition benign (f : state → state) : Prop :=
  ∀ s, cardMessageId (f s) = cardMessageId s
       ∧ accumulatedText (f s) = accumulatedText s
       ∧ pendingPatchTimer (f s) = pendingPatchTimer s
       ∧ streamingFailed (f s) = streamingFailed s
       ∧ standaloneDelivered (f s) = standaloneDelivered s
       ∧ cardCreationPromise (f s) = cardCreationPromise s.

Definition is_note (a : action) : bool :=
  match a with
  | Request _ _ _ | SetTimeout _ _ | ClearTimeout _ => false
  | _ => true
  end.

Inductive atom : config → config → Prop :=
| a_state f c :
    benign f → atom c (with_st f c)
| a_note a c :
    is_note a = true → atom c (emit a c)
| a_arm delay c :
    pendingPatchTimer (st c) = None →
    atom c (with_st (set_pendingPatchTimer (Some (next c))) (setTimeout delay c))
| a_disarm h c :
    pendingPatchTimer (st c) = Some h →
    atom c (with_st (set_pendingPatchTimer None) (clearTimeout h c))
| a_fired h c :
    h ∈ timers c →
    atom c (mkConfig (set_pendingPatchTimer None (st c)) (next c)
              (List.filter (λ t, negb (Nat.eqb t h)) (timers c))
              (calls c) (waiting c) (trace c))
| a_wait p f c :
    streamingFailed (st c) = false →
    atom c (mkConfig (st c) (next c) (timers c) (calls c)
              (waiting c ++ [(p, f)]) (trace c))
| a_create crd c :
    streamingFailed (st c) = false →
    truthy_str (cardMessageId (st c)) = false →
    cardCreationPromise (st c) = None →
    atom c (with_st (set_cardCreationPromise (Some (next c)))
              (issue (sendCardFeishu crd) KCreate c))
| a_update id crd k c :
    truthy_str (cardMessageId (st c)) = true →
    is_card_op k = true →
    atom c (issue (updateCardFeishu id crd) k c)
| a_standalone text c :
    standaloneDelivered (st c) = false →
    atom c (deliverStandalone text (with_st (set_standaloneDelivered true) c))
| a_chunk chunk rest c :
    atom c (issue (sendMessageFeishu chunk) (KChunk rest) c).

Abbreviation atoms := (rtc atom).

Ltac benign_update := intros ?; repeat split; reflexivity.

Lemma atoms_state f c : benign f → atoms c (with_st f c).
Proof. intros H. by apply rtc_once, a_state. Qed.

Lemma atoms_note a c : is_note a = true → atoms c (emit a c).
Proof. intros H. by apply rtc_once, a_note. Qed.

Lemma patchCard_send_atoms f now c :
  streamingFailed (st c) = false → cardCreationPromise (st c) = None →
  atoms c (patchCard_send f now c).
Proof.
  intros Hok Hnone. unfold patchCard_send.
  destruct (cardMessageId (st c)) as [[|ch r]|] eqn:E.
  - apply rtc_once, a_create; [done|by rewrite E|done].
  - apply rtc_once, a_update; [by rewrite E|done].
  - apply rtc_once, a_create; [done|by rewrite E|done].
Qed.

Lemma patchCard_atoms f now c : atoms c (patchCard f now c).
Proof.
  unfold patchCard. destruct (streamingFailed (st c)) eqn:Hok; [done|].
  destruct (_ && _); [done|].
  destruct (cardCreationPromise (st c)) as [p|] eqn:E.
  - by apply rtc_once, a_wait.
  - by apply patchCard_send_atoms.
Qed.

Lemma schedulePatch_atoms now c : atoms c (schedulePatch now c).
Proof.
  unfold schedulePatch. destruct (pendingPatchTimer (st c)) eqn:E; [done|].
  by apply rtc_once, a_arm.
Qed.

Lemma clearPendingPatch_atoms c : atoms c (clearPendingPatch c).
Proof.
  unfold clearPendingPatch. destruct (pendingPatchTimer (st c)) eqn:E; [|done].
  by apply rtc_once, a_disarm.
Qed.

Lemma triggerThinkingUpdate_atoms now c : atoms c (triggerThinkingUpdate now c).
Proof.
  unfold triggerThinkingUpdate. destruct (thinkingStopped (st c)); [done|].
  set (c1 := with_st (set_hasThinkingContent true) c).
  set (c2 := if truthy_num (thinkingStartedAt (st c1)) then c1 else _).
  assert (H2 : atoms c c2).
  { etrans; [apply (atoms_state (set_hasThinkingContent true)); benign_update|].
    subst c2. fold c1. destruct (truthy_num _); [done|].
    apply atoms_state. benign_update. }
  destruct (_ >=? _).
  - etrans; [exact H2|apply patchCard_atoms].
  - etrans; [exact H2|apply schedulePatch_atoms].
Qed.

Lemma collapseThinking_atoms now c : atoms c (collapseThinking now c).
Proof.
  unfold collapseThinking.
  set (c1 := clearPendingPatch _).
  assert (H1 : atoms c c1).
  { etrans; [apply (atoms_state (set_thinkingStopped true)); benign_update|].
    apply clearPendingPatch_atoms. }
  destruct (_ || _); [done|].
  etrans; [exact H1|apply patchCard_atoms].
Qed.

Lemma standaloneOnce_atoms text c : atoms c (standaloneOnce text c).
Proof.
  unfold standaloneOnce. destruct (standaloneDelivered (st c)) eqn:E; [done|].
  by apply rtc_once, a_standalone.
Qed.

Lemma sendChunks_atoms chunks c : atoms c (sendChunks chunks c).
Proof. destruct chunks; [done|]. apply rtc_once, a_chunk. Qed.

Lemma doDeliverFinalReply_atoms now c : atoms c (doDeliverFinalReply now c).
Proof.
  unfold doDeliverFinalReply. destruct (blank _); [done|].
  destruct (cardMessageId (st c)) as [[|ch r]|] eqn:E;
    try apply standaloneOnce_atoms.
  etrans; [apply (atoms_state (set_thinkingStopped true)); benign_update|].
  apply rtc_once, a_update; [simpl; by rewrite E|done].
Qed.

Lemma onSkip_atoms c : atoms c (onSkip c).
Proof. by apply atoms_note. Qed.

Lemma onError_atoms c : atoms c (onError c).
Proof.
  unfold onError.
  etrans; [by apply (atoms_note (LogLine "feishu reply failed"))|].
  etrans; [apply clearPendingPatch_atoms|]. by apply atoms_note.
Qed.

Lemma onIdle_atoms now c : atoms c (onIdle now c).
Proof.
  unfold onIdle.
  set (c1 := with_st _ _).
  assert (H1 : atoms c c1).
  { etrans; [apply clearPendingPatch_atoms|].
    apply atoms_state. benign_update. }
  etrans; [|by apply atoms_note].
  destruct (negb _); [|done].
  etrans; [exact H1|apply doDeliverFinalReply_atoms].
Qed.

Lemma onReasoningStream_atoms text now c : atoms c (onReasoningStream text now c).
Proof.
  unfold onReasoningStream. destruct text as [[|ch r]|]; try done.
  etrans; [apply (atoms_state (set_thinkingText (Some (ch :: r)))); benign_update|].
  apply triggerThinkingUpdate_atoms.
Qed.

Lemma onAgentEvent_atoms evt now c : atoms c (onAgentEvent evt now c).
Proof.
  unfold onAgentEvent. destruct (bool_decide _); [|done].
  destruct (_ && _).
  - etrans; [|apply triggerThinkingUpdate_atoms].
    apply atoms_state. benign_update.
  - destruct (_ && _); [|done].
    etrans; [|apply triggerThinkingUpdate_atoms].
    destruct (map_get _ _); [|done].
    apply atoms_state. benign_update.
Qed.

Lemma markDispatchIdle_atoms now c : atoms c (markDispatchIdle now c).
Proof.
  unfold markDispatchIdle.
  etrans; [|by apply atoms_note].
  etrans; [apply clearPendingPatch_atoms|].
  destruct (thinkingStopped _); [done|].
  etrans; [apply (atoms_state (set_thinkingStopped true)); benign_update|].
  destruct (_ && _); [|done]. apply patchCard_atoms.
Qed.

Lemma timerFires_atoms h now c : atoms c (timerFires h now c).
Proof.
  unfold timerFires. case_bool_decide as Hin; [|done].
  etrans; [by apply rtc_once, (a_fired h)|].
  destruct (streamingFailed _); [done|]. apply patchCard_atoms.
Qed.

(** The text [deliver] leaves in [accumulatedText]. *)
Definition appended (acc text : jsstring) : jsstring :=
  (if nonempty acc && negb (endsWith [LF] acc) && negb (startsWith [LF] text)
   then acc ++ [LF] else acc) ++ text.

(** [deliver] of a text that is not blank: stop thinking, append,
    finalize when the kind is final. *)
Lemma deliver_atoms text kind now c :
  blank (default [] text) = false →
  ∃ c1, atoms c c1
        ∧ accumulatedText (st c1) = accumulatedText (st c)
        ∧ atoms (with_st (set_accumulatedText
                            (appended (accumulatedText (st c)) (default [] text))) c1)
            (deliver text kind now c).
Proof.
  intros Hblank. unfold deliver. rewrite Hblank.
  set (c1 := if thinkingStopped (st c) then c else _).
  assert (H1 : atoms c c1 ∧ accumulatedText (st c1) = accumulatedText (st c)).
  { subst c1. destruct (thinkingStopped (st c)); [done|]. split.
    - etrans; [apply (atoms_state (set_thinkingStopped true)); benign_update|].
      apply clearPendingPatch_atoms.
    - unfold clearPendingPatch. simpl. by destruct (pendingPatchTimer (st c)). }
  destruct H1 as [H1 Hacc]. exists c1. split; [done|]. split; [done|].
  unfold appended. rewrite <- Hacc.
  destruct (bool_decide _); [|done]. apply doDeliverFinalReply_atoms.
Qed.

(** A property kept by the resumed [patchCard] calls is kept by [wake]. *)
Lemma wake_ind (P : config → Prop) (p : nat) (fulfilled : bool) (now : Z) (c : config) :
  (∀ c' f, P c' → P (patchCard_send f now c')) →
  (∀ c' f, P c' → P (emit (PatchRejected f) c')) →
  P (mkConfig (st c) (next c) (timers c) (calls c)
       (List.filter (λ w : nat * bool, negb (Nat.eqb w.1 p)) (waiting c)) (trace c)) →
  P (wake p fulfilled now c).
Proof.
  intros Hsend Hrej. unfold wake.
  generalize (List.filter (λ w : nat * bool, w.1 =? p)%nat (waiting c)).
  generalize (mkConfig (st c) (next c) (timers c) (calls c)
       (List.filter (λ w : nat * bool, negb (Nat.eqb w.1 p)) (waiting c)) (trace c)).
  intros c0 l. revert c0. induction l as [|w l IH]; intros c0 H0; simpl; [done|].
  apply IH. destruct fulfilled; auto.
Qed.

(** The rejected waiters of a failed creation only report. *)
Lemma wake_rejected p now c :
  st (wake p false now c) = st c ∧ calls (wake p false now c) = calls c.
Proof.
  unfold wake.
  generalize (List.filter (λ w : nat * bool, w.1 =? p)%nat (waiting c)).
  set (c0 := mkConfig _ _ _ _ _ _).
  change (st c) with (st c0). change (calls c) with (calls c0).
  generalize c0. clear c0. intros c0 l. revert c0.
  induction l as [|w l IH]; intros c0; simpl; [done|].
  destruct (IH (emit (PatchRejected w.2) c0)) as [-> ->]. done.
Qed.

(** The steps taken only when a network call settles: the call leaves
    the table of calls in flight, a creation records its result, a
    failed patch runs the [catch] block, a resumed [patchCard] sends. *)
Inductive settle_atom : config → config → Prop :=
| s_atom c c' :
    atom c c' → settle_atom c c'
| s_settled id c :
    settle_atom c (mkConfig (st c) (next c) (timers c)
                     (List.filter (λ e : nat * kont, negb (Nat.eqb e.1 id)) (calls c))
                     (waiting c) (trace c))
| s_woken p c :
    settle_atom c (mkConfig (st c) (next c) (timers c) (calls c)
                     (List.filter (λ w : nat * bool, negb (Nat.eqb w.1 p)) (waiting c))
                     (trace c))
| s_created messageId now c :
    settle_atom c (with_st (λ s, set_cardCreationPromise None
                                   (set_lastPatchTime now
                                      (set_cardMessageId (Some messageId) s))) c)
| s_catch c :
    settle_atom c (patchCard_catch c)
| s_send f now c :
    settle_atom c (patchCard_send f now c).

Abbreviation settle_atoms := (rtc settle_atom).

Lemma atoms_settle_atoms c c' : atoms c c' → settle_atoms c c'.
Proof. induction 1; [done|]. eapply rtc_l; [by apply s_atom|done]. Qed.

Lemma wake_atoms p b now c : settle_atoms c (wake p b now c).
Proof.
  apply wake_ind.
  - intros c' f H. eapply rtc_r; [exact H|apply s_send].
  - intros c' f H. eapply rtc_r; [exact H|]. by apply s_atom, a_note.
  - apply rtc_once, s_woken.
Qed.

Lemma settles_atoms id o now c : settle_atoms c (settles id o now c).
Proof.
  unfold settles. destruct (List.find _ _) as [[? k]|]; [|done].
  eapply rtc_l; [apply (s_settled id)|].
  destruct k, o.
  - eapply rtc_l; [apply (s_created messageId now)|]. apply wake_atoms.
  - eapply rtc_l; [apply s_catch|]. apply wake_atoms.
  - apply atoms_settle_atoms, atoms_state. benign_update.
  - apply rtc_once, s_catch.
  - done.
  - apply atoms_settle_atoms, standaloneOnce_atoms.
  - done.
  - apply atoms_settle_atoms, sendChunks_atoms.
  - apply atoms_settle_atoms, sendChunks_atoms.
  - by apply atoms_settle_atoms, atoms_note.
Qed.

(** An event other than a delivery or a settling call is a sequence of
    atomic steps. *)
Lemma step_atoms e now c :
  match e with Deliver _ _ | Settles _ _ => False | _ => True end →
  atoms c (step e now c).
Proof.
  destruct e; simpl; intros H; try done.
  - apply onSkip_atoms.
  - apply onError_atoms.
  - apply onIdle_atoms.
  - apply onReasoningStream_atoms.
  - apply onAgentEvent_atoms.
  - apply markDispatchIdle_atoms.
  - apply timerFires_atoms.
Qed.

(** A reflexive and transitive relation that holds of every kind of
    step holds between the ends of every run. *)
Section Lift.
Variable R : config → config → Prop.
Hypothesis R_refl : ∀ c, R c c.
Hypothesis R_trans : ∀ c1 c2 c3, R c1 c2 → R c2 c3 → R c1 c3.

Lemma lift_atoms c c' : (∀ x y, atom x y → R x y) → atoms c c' → R c c'.
Proof. intros Ha. induction 1; eauto. Qed.

Lemma lift_settle_atoms c c' :
  (∀ x y, settle_atom x y → R x y) → settle_atoms c c' → R c c'.
Proof. intros Ha. induction 1; eauto. Qed.

Lemma lift_settles id o now c :
  (∀ x y, settle_atom x y → R x y) → R c (settles id o now c).
Proof. intros Ha. by apply lift_settle_atoms, settles_atoms. Qed.

Hypothesis R_atom : ∀ c c', atom c c' → R c c'.
Hypothesis R_accumulate : ∀ v c, R c (with_st (set_accumulatedText v) c).
Hypothesis R_settles : ∀ id o now c, R c (settles id o now c).

Lemma lift_step e now c : R c (step e now c).
Proof.
  destruct e; try (by apply lift_atoms, step_atoms).
  - simpl. destruct (blank (default [] text)) eqn:Hb.
    + unfold deliver. by rewrite Hb.
    + destruct (deliver_atoms text kind now c Hb) as (c1 & H1 & _ & H2).
      eapply R_trans; [by apply lift_atoms|].
      eapply R_trans; [apply R_accumulate|]. by apply lift_atoms.
  - apply R_settles.
Qed.

Lemma lift_run es c : R c (run es c).
Proof.
  revert c. induction es as [|[e now] es IH]; intros c; simpl; [done|].
  eapply R_trans; [apply lift_step|apply IH].
Qed.
End Lift.

(** **** Timers: the armed timeouts are the one [pendingPatchTimer] holds *)

Definition timer_inv (c : config) : Prop :=
  timers c = match pendingPatchTimer (st c) with Some h => [h] | None => [] end.

Lemma atom_timer_inv x y : atom x y → timer_inv x → timer_inv y.
Proof.
  unfold timer_inv.
  destruct 1 as [f c Hb|a c _|d c Hp|h c Hp|h c Hin|p f c _|crd c _ _ _
                 |id crd k c _ _|text c _|chunk rest c]; simpl; try done.
  - destruct (Hb (st c)) as (_ & _ & -> & _). done.
  - rewrite Hp. by intros ->.
  - rewrite Hp. intros ->. simpl. by rewrite Nat.eqb_refl.
  - intros H. rewrite H in Hin |- *.
    destruct (pendingPatchTimer (st c)) as [h'|]; [|by apply elem_of_nil in Hin].
    apply list_elem_of_singleton in Hin as ->. simpl. by rewrite Nat.eqb_refl.
Qed.

Lemma settle_atom_timer_inv x y : settle_atom x y → timer_inv x → timer_inv y.
Proof.
  destruct 1 as [c c' H|id c|p c|m now c|c|f now c]; try done.
  - by apply atom_timer_inv.
  - unfold timer_inv, patchCard_catch. simpl. by destruct (truthy_str _).
  - unfold timer_inv, patchCard_send. by destruct (cardMessageId (st c)) as [[|??]|].
Qed.

Lemma run_timer_inv es c : timer_inv c → timer_inv (run es c).
Proof.
  apply (lift_run (λ c c', timer_inv c → timer_inv c')); auto.
  - intros ? ? H. by apply atom_timer_inv.
  - intros ? ? ? ?. apply lift_settles; auto. intros ? ? Hs. by apply settle_atom_timer_inv.
Qed.

(** **** [streamingFailed] is one-way *)

Lemma atom_failed x y : atom x y → streamingFailed (st y) = streamingFailed (st x).
Proof.
  destruct 1 as [f c Hb|a c _|d c Hp|h c Hp|h c Hin|p f c _|crd c _ _ _
                 |id crd k c _ _|text c _|chunk rest c]; simpl; try done.
  by destruct (Hb (st c)) as (_ & _ & _ & -> & _).
Qed.

Lemma settle_atom_failed x y :
  settle_atom x y → streamingFailed (st x) = true → streamingFailed (st y) = true.
Proof.
  destruct 1 as [c c' H|id c|p c|m now c|c|f now c]; try done.
  - by rewrite (atom_failed _ _ H).
  - unfold patchCard_catch. simpl. by destruct (truthy_str _).
  - unfold patchCard_send. by destruct (cardMessageId (st c)) as [[|??]|].
Qed.

Lemma run_failed es c :
  streamingFailed (st c) = true → streamingFailed (st (run es c)) = true.
Proof.
  apply (lift_run (λ c c', streamingFailed (st c) = true →
                           streamingFailed (st c') = true)); auto.
  - intros ? ? H. by rewrite (atom_failed _ _ H).
  - intros ? ? ? ?. apply lift_settles; auto. intros ? ? Hs. by apply settle_atom_failed.
Qed.

(** **** Standalone delivery is entered at most once *)

(** What was entered so far plus the one entry the guard still allows. *)
Definition standalone_budget (c : config) : nat :=
  standalone_starts (trace c) + (if standaloneDelivered (st c) then 0 else 1).

Lemma standalone_starts_snoc tr a :
  standalone_starts (tr ++ [a])
  = (standalone_starts tr
     + match a with Request _ _ (KStandaloneCard _) => 1 | _ => 0 end)%nat.
Proof.
  unfold standalone_starts. rewrite List.filter_app, length_app. simpl.
  destruct a as [? ? []| | | | | |]; simpl; lia.
Qed.

Lemma atom_budget x y : atom x y → standalone_budget y = standalone_budget x.
Proof.
  unfold standalone_budget.
  destruct 1 as [f c Hb|a c Ha|d c Hp|h c Hp|h c Hin|p f c _|crd c _ _ _
                 |id crd k c _ Hk|text c Hs|chunk rest c]; simpl;
    rewrite ?standalone_starts_snoc; simpl; try lia.
  - destruct (Hb (st c)) as (_ & _ & _ & _ & -> & _). done.
  - destruct a; simpl; try done; lia.
  - destruct k; simpl; try done; lia.
  - rewrite Hs. lia.
Qed.

Lemma settle_atom_budget x y :
  settle_atom x y → standalone_budget y = standalone_budget x.
Proof.
  destruct 1 as [c c' H|id c|p c|m now c|c|f now c]; try done.
  - by apply atom_budget.
  - unfold standalone_budget, patchCard_catch. simpl.
    destruct (truthy_str _); simpl; rewrite standalone_starts_snoc; simpl; lia.
  - unfold standalone_budget, patchCard_send.
    destruct (cardMessageId (st c)) as [[|??]|]; simpl;
      rewrite standalone_starts_snoc; simpl; lia.
Qed.

Lemma run_budget es c : standalone_budget (run es c) = standalone_budget c.
Proof.
  apply (lift_run (λ c c', standalone_budget c' = standalone_budget c)).
  - done.
  - intros ? ? ? H1 H2. by rewrite H2.
  - apply atom_budget.
  - done.
  - intros ? ? ? ?. apply lift_settles; [done| |apply settle_atom_budget].
    intros ? ? ? H1 H2. by rewrite H2.
Qed.

Lemma settle_atom_delivered x y :
  settle_atom x y →
  standaloneDelivered (st x) = true → standaloneDelivered (st y) = true.
Proof.
  destruct 1 as [c1 c2 H|id c1|p c1|m now c1|c1|f now c1]; try done.
  - destruct H as [f c Hb|a c Ha|d c Hp|h c Hp|h c Hin|p f c _|crd c _ _ _
                 |id crd k c _ Hk|text c Hs|chunk rest c]; simpl; try done.
    by destruct (Hb (st c)) as (_ & _ & _ & _ & -> & _).
  - unfold patchCard_catch. simpl. by destruct (truthy_str _).
  - unfold patchCard_send. by destruct (cardMessageId (st c1)) as [[|??]|].
Qed.

Lemma run_standaloneDelivered es c :
  standaloneDelivered (st c) = true → standaloneDelivered (st (run es c)) = true.
Proof.
  apply (lift_run (λ c c', standaloneDelivered (st c) = true →
                           standaloneDelivered (st c') = true)); auto.
  - intros ? ? H. by apply settle_atom_delivered, s_atom.
  - intros ? ? ? ?. apply lift_settles; auto. intros ? ? Hs. by apply settle_atom_delivered.
Qed.

(** **** While no card was ever created *)

(** As long as [cardMessageId] is still [null], a call of the card
    pipeline in flight can only be a creation, and the one that
    [cardCreationPromise] stands for. *)
Definition first_creation_inv (c : config) : Prop :=
  cardMessageId (st c) = None →
  ∀ i k, In (i, k) (calls c) → is_card_op k = true →
         k = KCreate ∧ cardCreationPromise (st c) = Some i.

Lemma atom_first_creation x y :
  atom x y → first_creation_inv x → first_creation_inv y.
Proof.
  destruct 1 as [f c Hb|a c Ha|d c Hp|h c Hp|h c Hin|p f c _|crd c _ _ Hnone
                 |id crd k c Hcard _|text c _|chunk rest c];
    intros J; try exact J; intros Hn i k' Hin' Hk; simpl in *.
  - destruct (Hb (st c)) as (Hc & _ & _ & _ & _ & Hp).
    rewrite Hc in Hn. rewrite Hp. by apply J.
  - apply in_app_or in Hin' as [Hold|[[= <- <-]|[]]]; [|by split].
    destruct (J Hn i k' Hold Hk) as [_ Hsome]. congruence.
  - by rewrite Hn in Hcard.
  - apply in_app_or in Hin' as [Hold|[[= <- <-]|[]]]; [|by simpl in Hk]. by apply J.
  - apply in_app_or in Hin' as [Hold|[[= <- <-]|[]]]; [|by simpl in Hk]. by apply J.
Qed.

Lemma settle_atom_assigned x y :
  settle_atom x y → cardMessageId (st x) ≠ None → cardMessageId (st y) ≠ None.
Proof.
  destruct 1 as [c1 c2 H|id c1|p c1|m now c1|c1|f now c1]; try done.
  - destruct H as [f c Hb|a c Ha|d c Hp|h c Hp|h c Hin|p f c _|crd c _ _ _
                   |id crd k c _ Hk|text c Hs|chunk rest c]; simpl; try done.
    by destruct (Hb (st c)) as (-> & _).
  - unfold patchCard_catch. simpl. by destruct (truthy_str _).
  - unfold patchCard_send.
    destruct (cardMessageId (st c1)) as [[|??]|] eqn:E; simpl; by rewrite E.
Qed.

Lemma settle_atoms_assigned c c' :
  settle_atoms c c' → cardMessageId (st c) ≠ None → cardMessageId (st c') ≠ None.
Proof.
  apply (lift_settle_atoms (λ c c', cardMessageId (st c) ≠ None →
                                    cardMessageId (st c') ≠ None)).
  - done.
  - intros c1 c2 c3 H12 H23 H1. by apply H23, H12.
  - apply settle_atom_assigned.
Qed.

Lemma settles_first_creation id o now c :
  first_creation_inv c → first_creation_inv (settles id o now c).
Proof.
  intros J.
  destruct (cardMessageId (st c)) as [m|] eqn:E0.
  { intros Hn. exfalso. revert Hn.
    apply (settle_atoms_assigned c); [apply settles_atoms|by rewrite E0]. }
  unfold settles. destruct (List.find _ _) as [[n k]|] eqn:E; [|exact J].
  apply find_some in E as [Hin Hid]. simpl in Hid. apply Nat.eqb_eq in Hid. subst n.
  set (c0 := mkConfig _ _ _ _ _ _).
  assert (J0 : first_creation_inv c0).
  { intros Hn i k' Hin' Hk. apply List.filter_In in Hin' as [Hin' _]. by apply J. }
  assert (Hlift : ∀ c', atoms c0 c' → first_creation_inv c').
  { intros c' Hc'.
    apply (lift_atoms (λ c c', first_creation_inv c → first_creation_inv c'))
      with (c := c0); auto. apply atom_first_creation. }
  destruct k.
  - destruct o as [messageId|].
    + intros Hn. exfalso. revert Hn.
      eapply settle_atoms_assigned; [apply wake_atoms|done].
    + destruct (wake_rejected id now (patchCard_catch c0)) as [Hst Hcalls].
      intros Hn i k' Hin' Hk. exfalso. rewrite Hcalls in Hin'.
      unfold patchCard_catch in Hin'. simpl in Hin'.
      assert (Hin'' : In (i, k') (calls c0)) by (by destruct (truthy_str _)).
      apply List.filter_In in Hin'' as [Hin'' Hne]. simpl in Hne.
      destruct (J E0 i k' Hin'' Hk) as [_ Hi].
      destruct (J E0 id KCreate Hin eq_refl) as [_ Hid].
      rewrite Hi in Hid. injection Hid as ->. by rewrite Nat.eqb_refl in Hne.
  - by destruct (J E0 id KUpdate Hin eq_refl).
  - by destruct (J E0 id (KFinalUpdate fullText) Hin eq_refl).
  - destruct o; [done|]. apply Hlift, sendChunks_atoms.
  - destruct o; [apply Hlift, sendChunks_atoms|]. apply Hlift. by apply atoms_note.
Qed.

Lemma run_first_creation es : first_creation_inv (run es initial).
Proof.
  apply (lift_run (λ c c', first_creation_inv c → first_creation_inv c')); auto.
  - apply atom_first_creation.
  - apply settles_first_creation.
  - by intros _ i k [].
Qed.

(** **** After a fatal creation failure *)

Definition no_card_call (c : config) : bool :=
  forallb (λ e : nat * kont, negb (is_card_op e.2)) (calls c).

(** Streaming has failed, there is no card, and no call of the card
    pipeline is in flight. *)
Definition fallback_mode (c : config) : Prop :=
  streamingFailed (st c) = true
  ∧ truthy_str (cardMessageId (st c)) = false
  ∧ no_card_call c = true.

Definition fallback_kept (c c' : config) : Prop :=
  fallback_mode c →
  fallback_mode c' ∧ card_requests (trace c') = card_requests (trace c).

Lemma card_requests_snoc tr a :
  card_requests (tr ++ [a])
  = card_requests tr
    ++ (if match a with Request _ _ k => is_card_op k | _ => false end
        then [a] else []).
Proof. unfold card_requests. rewrite List.filter_app. simpl. by case_match. Qed.

Lemma forallb_filter {A} (p q : A → bool) (l : list A) :
  forallb p l = true → forallb p (List.filter q l) = true.
Proof.
  induction l as [|a l IH]; simpl; [done|].
  intros [Ha Hl]%andb_true_iff. destruct (q a); simpl; [rewrite Ha|]; auto.
Qed.

Lemma atom_fallback x y : atom x y → fallback_kept x y.
Proof.
  unfold fallback_kept, fallback_mode, no_card_call.
  destruct 1 as [f c Hb|a c Ha|d c Hp|h c Hp|h c Hin|p f c Hok|crd c Hok _ _
                 |id crd k c Hid _|text c _|chunk rest c];
    simpl; intros (Hf & Hc & Hn);
    rewrite ?card_requests_snoc, ?forallb_app; simpl;
    rewrite ?app_nil_r, ?Hn; try done; try congruence.
  - destruct (Hb (st c)) as (-> & _ & _ & -> & _). by repeat split.
  - destruct a; simpl in *; try done; by rewrite app_nil_r.
Qed.

Lemma fallback_kept_refl c : fallback_kept c c.
Proof. by intros ?. Qed.

Lemma fallback_kept_trans c1 c2 c3 :
  fallback_kept c1 c2 → fallback_kept c2 c3 → fallback_kept c1 c3.
Proof.
  intros H12 H23 H1. destruct (H12 H1) as [H2 E2].
  destruct (H23 H2) as [H3 E3]. split; [done|congruence].
Qed.

Lemma settles_fallback id o now c : fallback_kept c (settles id o now c).
Proof.
  intros Hmode. unfold settles.
  destruct (List.find _ _) as [[n k]|] eqn:E; [|done].
  apply find_some in E as [Hin _].
  assert (Hk : is_card_op k = false).
  { destruct Hmode as (_ & _ & Hn). unfold no_card_call in Hn.
    rewrite forallb_forall in Hn. specialize (Hn _ Hin). simpl in Hn.
    by destruct (is_card_op k). }
  set (c0 := mkConfig _ _ _ _ _ _).
  assert (H0 : fallback_mode c0 ∧ card_requests (trace c0) = card_requests (trace c)).
  { split; [|done]. destruct Hmode as (Hf & Hc & Hn).
    repeat split; try done. by apply forallb_filter. }
  assert (Hlift : ∀ c', atoms c0 c' →
            fallback_mode c' ∧ card_requests (trace c') = card_requests (trace c)).
  { intros c' Hc'. destruct H0 as [H0 H0'].
    destruct (lift_atoms fallback_kept fallback_kept_refl fallback_kept_trans
                c0 c' atom_fallback Hc' H0) as [? ?].
    split; [done|congruence]. }
  destruct k; try discriminate; destruct o; try done.
  - apply Hlift, sendChunks_atoms.
  - apply Hlift, sendChunks_atoms.
  - apply Hlift. by apply atoms_note.
Qed.

Lemma run_fallback es c : fallback_kept c (run es c).
Proof.
  apply (lift_run fallback_kept).
  - apply fallback_kept_refl.
  - apply fallback_kept_trans.
  - apply atom_fallback.
  - by intros v c0 (? & ? & ?).
  - apply settles_fallback.
Qed.

(** **** The accumulated text *)

Lemma settle_atom_text x y :
  settle_atom x y → accumulatedText (st y) = accumulatedText (st x).
Proof.
  destruct 1 as [c1 c2 H|id c1|p c1|m now c1|c1|f now c1]; try done.
  - destruct H as [f c Hb|a c Ha|d c Hp|h c Hp|h c Hin|p f c _|crd c _ _ _
                 |id crd k c _ Hk|text c Hs|chunk rest c]; simpl; try done.
    by destruct (Hb (st c)) as (_ & -> & _).
  - unfold patchCard_catch. simpl. by destruct (truthy_str _).
  - unfold patchCard_send. by destruct (cardMessageId (st c1)) as [[|??]|].
Qed.

Lemma atoms_text c c' : atoms c c' → accumulatedText (st c') = accumulatedText (st c).
Proof.
  apply (lift_atoms (λ c c', accumulatedText (st c') = accumulatedText (st c))).
  - done.
  - intros ? ? ? H1 H2. by rewrite H2.
  - intros ? ? H. by apply settle_atom_text, s_atom.
Qed.

Lemma step_text e now c :
  accumulatedText (st (step e now c))
  = match e with
    | Deliver text _ =>
        if blank (default [] text) then accumulatedText (st c)
        else appended (accumulatedText (st c)) (default [] text)
    | _ => accumulatedText (st c)
    end.
Proof.
  destruct e; try (by apply atoms_text, step_atoms).
  - simpl. destruct (blank (default [] text)) eqn:Hb.
    + unfold deliver. by rewrite Hb.
    + destruct (deliver_atoms text kind now c Hb) as (c1 & H1 & E1 & H2).
      by rewrite (atoms_text _ _ H2).
  - simpl. apply (lift_settles (λ c c', accumulatedText (st c') = accumulatedText (st c))).
    + done.
    + intros ? ? ? H1 H2. by rewrite H2.
    + apply settle_atom_text.
Qed.

(** The texts a run delivers that are not blank, in order. *)
Definition kept_fragments (es : list (event * Z)) : list jsstring :=
  omap (λ en : event * Z,
          match en.1 with
          | Deliver text _ =>
              if blank (default [] text) then None else Some (default [] text)
          | _ => None
          end) es.

Lemma run_text es c :
  accumulatedText (st (run es c))
  = fold_left appended (kept_fragments es) (accumulatedText (st c)).
Proof.
  revert c. induction es as [|[e now] es IH]; intros c; simpl; [done|].
  rewrite IH, step_text. unfold kept_fragments at 2. simpl.
  destruct e; try done. by destruct (blank _).
Qed.

(** The join of the design document: fragments in order, a newline
    between two consecutive ones exactly when the text so far does not
    end with a newline and the next fragment does not start with one. *)
Definition separator (earlier next : jsstring) : jsstring :=
  if negb (endsWith [LF] earlier) && negb (startsWith [LF] next) then [LF] else [].

Fixpoint join_onto (earlier : jsstring) (fragments : list jsstring) : jsstring :=
  match fragments with
  | [] => earlier
  | f :: rest => join_onto (earlier ++ separator earlier f ++ f) rest
  end.

Definition joined (fragments : list jsstring) : jsstring :=
  match fragments with
  | [] => []
  | f :: rest => join_onto f rest
  end.

Lemma blank_false_nonempty text : blank text = false → nonempty text = true.
Proof. by destruct text. Qed.

Lemma appended_separator acc text :
  nonempty acc = true → appended acc text = acc ++ separator acc text ++ text.
Proof.
  intros H. unfold appended, separator. rewrite H. simpl.
  destruct (_ && _); simpl; [by rewrite <- app_assoc|done].
Qed.

Lemma fold_appended_join_onto acc fragments :
  nonempty acc = true →
  fold_left appended fragments acc = join_onto acc fragments.
Proof.
  revert acc. induction fragments as [|f rest IH]; intros acc Hacc; simpl; [done|].
  rewrite appended_separator by done. apply IH. by destruct acc.
Qed.

Lemma fold_appended_joined fragments :
  Forall (λ f, blank f = false) fragments →
  fold_left appended fragments [] = joined fragments.
Proof.
  destruct 1 as [|f rest Hf _]; simpl; [done|].
  unfold appended at 2. simpl.
  apply fold_appended_join_onto. by apply blank_false_nonempty.
Qed.

Lemma kept_fragments_not_blank es : Forall (λ f, blank f = false) (kept_fragments es).
Proof.
  induction es as [|[e now] es IH]; simpl; [constructor|].
  unfold kept_fragments. simpl. destruct e; try done.
  destruct (blank (default [] text)) eqn:E; [done|]. by constructor.
Qed.

Lemma blank_app_l a b : blank a = false → blank (a ++ b) = false.
Proof.
  unfold blank. intros H. rewrite forallb_app, H. done.
Qed.

Lemma reply_body_final fullText now s :
  nonempty fullText = true → reply_body (buildFinalCard fullText now s) = Some fullText.
Proof.
  intros H. unfold reply_body, buildFinalCard, buildUnifiedCard.
  rewrite omap_app. destruct fullText as [|ch r]; [done|]. simpl.
  by rewrite last_snoc.
Qed.

Lemma atoms_card c c' : atoms c c' → cardMessageId (st c') = cardMessageId (st c).
Proof.
  apply (lift_atoms (λ c c', cardMessageId (st c') = cardMessageId (st c))).
  - done.
  - intros ? ? ? H1 H2. by rewrite H2.
  - intros x y H.
    destruct H as [f c0 Hb|a c0 Ha|d c0 Hp|h c0 Hp|h c0 Hin|p f c0 _|crd c0 _ _ _
                   |id crd k c0 _ Hk|text c0 Hs|chunk rest c0]; simpl; try done.
    by destruct (Hb (st c0)) as (-> & _).
Qed.

(** *** Properties *)

(** C10. A delivered payload whose text is absent, empty or made of
    white space only is dropped on entry: the whole configuration
    (every field of the render state, the armed timer, the calls in
    flight, what was sent so far) is the one before the call; nothing
    is accumulated and no finalize runs. *)
Theorem blank_delivery_discarded
    (text kind : option jsstring) (now : Z) (c : config) :
  blank (default [] text) = true →
  step (Deliver text kind) now c = c.
Proof. intros Hblank. simpl. unfold deliver. by rewrite Hblank. Qed.

(** C4, as the code has it.  With [thinkingStopped] set, a reasoning
    fragment with non-empty text still replaces the stored snapshot
    [thinkingText]; it does nothing else: no other field changes, no
    patch is sent or scheduled. *)
Theorem late_reasoning_only_replaces_snapshot
    (ch : N) (r : jsstring) (now : Z) (c : config) :
  thinkingStopped (st c) = true →
  step (OnReasoningStream (Some (ch :: r))) now c
  = with_st (set_thinkingText (Some (ch :: r))) c.
Proof.
  intros Hstop. simpl. unfold onReasoningStream, triggerThinkingUpdate.
  simpl. by rewrite Hstop.
Qed.

(** The table test of [patchCard], as far as it goes.  It is made once,
    on entry: a non-final [patchCard] entered while [hasMarkdownTable]
    finds a header row and a separator row in the accumulated text
    returns at once, and keeps doing so as text is appended; a final
    patch is not held back by it.  The test is not repeated after
    [await cardCreationPromise]: a patch that suspended there before the
    table arrived is sent when the creation resolves (see the concrete
    runs below). *)
Lemma table_test_on_entry (c : config) (now : Z) :
  hasMarkdownTable (accumulatedText (st c)) = true →
  patchCard false now c = c
  ∧ (∀ (c' : config) (more : jsstring) (now' : Z),
       accumulatedText (st c') = accumulatedText (st c) ++ more →
       patchCard false now' c' = c')
  ∧ (streamingFailed (st c) = false →
     match cardCreationPromise (st c) with
     | Some p => waiting (patchCard true now c) = waiting c ++ [(p, true)]
     | None =>
         ∃ (req : request) (k : kont),
           is_card_op k = true
           ∧ trace (patchCard true now c) = trace c ++ [Request (next c) req k]
     end).
Proof.
  intros Htable.
  assert (Hsupp : ∀ c' now', hasMarkdownTable (accumulatedText (st c')) = true →
                             patchCard false now' c' = c').
  { intros c' now' H. unfold patchCard.
    rewrite H, (hasMarkdownTable_nonempty _ H). simpl.
    by destruct (streamingFailed (st c')). }
  split; [by apply Hsupp|]. split.
  - intros c' more now' Hext. apply Hsupp. rewrite Hext.
    by apply hasMarkdownTable_app.
  - intros Hok. unfold patchCard. rewrite Hok. simpl.
    destruct (cardCreationPromise (st c)) as [p|]; [done|].
    unfold patchCard_send.
    destruct (cardMessageId (st c)) as [[|ch r]|]; simpl;
      eexists _, _; split; try reflexivity; done.
Qed.

(** C2. In a reply that never had a card ([cardMessageId] is still
    [null]) the creation call [id] of [patchCard] throws.  Then
    [streamingFailed] is set, and from then on, whatever happens: it stays
    set; [patchCard] returns at once, final or not; no create or update
    request is ever issued again; and finalize goes down the standalone
    branch and nowhere else: the once-only guarded [deliverStandalone],
    which sends the accumulated text as a standalone card when it has not
    fired yet.  By contrast a throwing [updateCardFeishu] of [patchCard],
    a card existing, leaves [streamingFailed] as it was. *)
Theorem creation_failure_is_fatal (es0 : list (event * Z)) (id : nat) (now : Z) :
  let c := run es0 initial in
  cardMessageId (st c) = None →
  List.find (λ e : nat * kont, Nat.eqb e.1 id) (calls c) = Some (id, KCreate) →
  let c1 := step (Settles id Threw) now c in
  streamingFailed (st c1) = true
  ∧ (∀ es : list (event * Z),
       let c2 := run es c1 in
       streamingFailed (st c2) = true
       ∧ (∀ isFinal now', patchCard isFinal now' c2 = c2)
       ∧ card_requests (trace c2) = card_requests (trace c1)
       ∧ (∀ now', doDeliverFinalReply now' c2
                  = if blank (accumulatedText (st c2)) then c2
                    else standaloneOnce (accumulatedText (st c2)) c2)
       ∧ (∀ now', blank (accumulatedText (st c2)) = false →
                  standaloneDelivered (st c2) = false →
                  trace (doDeliverFinalReply now' c2)
                  = trace c2
                    ++ [Request (next c2)
                          (sendCardFeishu
                             (buildUnifiedCard None false [] (Some (accumulatedText (st c2)))))
                          (KStandaloneCard (accumulatedText (st c2)))]))
  ∧ (∀ (c' : config) (id' : nat) (now' : Z),
       List.find (λ e : nat * kont, Nat.eqb e.1 id') (calls c') = Some (id', KUpdate) →
       truthy_str (cardMessageId (st c')) = true →
       streamingFailed (st (step (Settles id' Threw) now' c'))
       = streamingFailed (st c')).
Proof.
  intros c Hnone Hfind c1.
  pose proof (run_first_creation es0) as J. fold c in J.
  assert (Hin : In (id, KCreate) (calls c)) by (by apply find_some in Hfind as [? _]).
  assert (Honly : forallb (λ e : nat * kont, negb (is_card_op e.2))
                    (List.filter (λ e : nat * kont, negb (Nat.eqb e.1 id)) (calls c)) = true).
  { apply forallb_forall. intros [i k] [Hik Hne]%List.filter_In. simpl in *.
    destruct (is_card_op k) eqn:Hk; [|done]. exfalso.
    destruct (J Hnone i k Hik Hk) as [_ Hi].
    destruct (J Hnone id KCreate Hin eq_refl) as [_ Hid].
    rewrite Hi in Hid. injection Hid as ->. by rewrite Nat.eqb_refl in Hne. }
  assert (Hmode : fallback_mode c1).
  { subst c1. simpl. unfold settles. rewrite Hfind.
    set (c0 := mkConfig _ _ _ _ _ _).
    destruct (wake_rejected id now (patchCard_catch c0)) as [Hst Hcalls].
    unfold fallback_mode, no_card_call. rewrite Hst, Hcalls.
    unfold patchCard_catch. simpl. rewrite Hnone. simpl. by rewrite Hnone. }
  split; [by destruct Hmode|]. split.
  - intros es c2.
    destruct (run_fallback es c1 Hmode) as [(Hf & Hc & Hn) Hreq]. fold c2 in Hf, Hc, Hn, Hreq.
    assert (Hfin : ∀ now', doDeliverFinalReply now' c2
                           = if blank (accumulatedText (st c2)) then c2
                             else standaloneOnce (accumulatedText (st c2)) c2).
    { intros now'. unfold doDeliverFinalReply.
      destruct (blank _); [done|].
      destruct (cardMessageId (st c2)) as [[|ch r]|]; done. }
    split; [done|]. split; [|split; [done|split; [done|]]].
    + intros isFinal now'. unfold patchCard. by rewrite Hf.
    + intros now' Hb Hd. rewrite Hfin, Hb. unfold standaloneOnce. by rewrite Hd.
  - intros c' id' now' Hfind' Hcard. simpl. unfold settles. rewrite Hfind'.
    unfold patchCard_catch. simpl. by rewrite Hcard.
Qed.

(** C6. Finalize is idempotent towards the outside.  Over two calls of
    [doDeliverFinalReply], with any run in between, standalone delivery
    is entered at most once; once it was entered, no later finalize
    enters it again; over a whole reply it is entered at most once;
    and with an empty or blank accumulated text finalize changes
    nothing and sends nothing. *)
Theorem finalize_delivers_once
    (c : config) (now1 now2 : Z) (mid es : list (event * Z)) :
  let c1 := doDeliverFinalReply now1 c in
  let c2 := run mid c1 in
  let c3 := doDeliverFinalReply now2 c2 in
  (standalone_starts (trace c3) ≤ standalone_starts (trace c) + 1)%nat
  ∧ (standaloneDelivered (st c1) = true →
     standalone_starts (trace c3) = standalone_starts (trace c1))
  ∧ (standalone_starts (trace c) < standalone_starts (trace c1) →
     standaloneDelivered (st c1) = true)%nat
  ∧ (standalone_starts (trace (run es initial)) ≤ 1)%nat
  ∧ (blank (accumulatedText (st c)) = true → c1 = c).
Proof.
  intros c1 c2 c3.
  assert (Hfin : ∀ now x, standalone_budget (doDeliverFinalReply now x) = standalone_budget x
                          ∧ (standaloneDelivered (st x) = true →
                             standaloneDelivered (st (doDeliverFinalReply now x)) = true)).
  { intros now x. split.
    - apply (lift_atoms (λ c c', standalone_budget c' = standalone_budget c));
        [done| |apply atom_budget|apply doDeliverFinalReply_atoms].
      intros ? ? ? H1 H2. by rewrite H2.
    - apply (lift_atoms (λ c c', standaloneDelivered (st c) = true →
                                 standaloneDelivered (st c') = true));
        [auto|auto| |apply doDeliverFinalReply_atoms].
      intros ? ? H. by apply settle_atom_delivered, s_atom. }
  assert (B1 : standalone_budget c1 = standalone_budget c) by apply Hfin.
  assert (B2 : standalone_budget c2 = standalone_budget c1) by apply run_budget.
  assert (B3 : standalone_budget c3 = standalone_budget c2) by apply Hfin.
  unfold standalone_budget in B1, B2, B3.
  split; [|split; [|split; [|split]]].
  - destruct (standaloneDelivered (st c)), (standaloneDelivered (st c1)),
      (standaloneDelivered (st c2)), (standaloneDelivered (st c3)); lia.
  - intros D1.
    assert (D2 : standaloneDelivered (st c2) = true) by by apply run_standaloneDelivered.
    assert (D3 : standaloneDelivered (st c3) = true) by by apply Hfin.
    rewrite D1 in B2. rewrite D2 in B2, B3. rewrite D3 in B3. lia.
  - intros Hlt. destruct (standaloneDelivered (st c1)); [done|].
    destruct (standaloneDelivered (st c)); lia.
  - pose proof (run_budget es initial) as B. unfold standalone_budget in B.
    simpl in B. destruct (standaloneDelivered (st (run es initial))); lia.
  - intros Hblank. subst c1. unfold doDeliverFinalReply. by rewrite Hblank.
Qed.

(** C7, as the code has it.  Blank payloads are dropped; after any run
    of a fresh reply [accumulatedText] is the join of the other
    delivered texts, in order, with a newline between two consecutive
    ones exactly when the text so far does not end with one and the
    next does not start with one.  In particular, for [X] and [Y] not
    blank and without a newline at the boundary, delivering [X] then
    [Y] as finals to a reply whose text is still empty leaves
    [X ++ "\n" ++ Y], and when a card exists the second final issues an
    update whose reply body is that text. *)
Theorem accumulated_text_is_join_of_kept_fragments
    (es : list (event * Z)) (c : config) (X Y : jsstring) (now1 now2 : Z) :
  blank X = false → blank Y = false →
  endsWith [LF] X = false → startsWith [LF] Y = false →
  accumulatedText (st c) = [] →
  let final := Some (js "final") in
  let c2 := step (Deliver (Some Y) final) now2 (step (Deliver (Some X) final) now1 c) in
  accumulatedText (st (run es initial)) = joined (kept_fragments es)
  ∧ accumulatedText (st c2) = X ++ [LF] ++ Y
  ∧ (truthy_str (cardMessageId (st c)) = true →
     ∃ (id : nat) (messageId : jsstring) (crd : card),
       last (trace c2)
       = Some (Request id (updateCardFeishu messageId crd)
                 (KFinalUpdate (X ++ [LF] ++ Y)))
       ∧ reply_body crd = Some (X ++ [LF] ++ Y)).
Proof.
  intros HX HY Hend Hstart Hempty final c2.
  set (c1 := step (Deliver (Some X) final) now1 c) in c2.
  assert (Hacc1 : accumulatedText (st c1) = X).
  { subst c1. rewrite step_text. simpl. rewrite HX, Hempty. done. }
  assert (Hacc2 : accumulatedText (st c2) = X ++ [LF] ++ Y).
  { subst c2. rewrite step_text. simpl. rewrite HY, Hacc1.
    unfold appended. rewrite (blank_false_nonempty X HX), Hend, Hstart. simpl.
    by rewrite <- app_assoc. }
  split; [|split; [done|]].
  - rewrite run_text. simpl. apply fold_appended_joined, kept_fragments_not_blank.
  - intros Hcard.
    assert (Hcard1 : cardMessageId (st c1) = cardMessageId (st c)).
    { subst c1. simpl.
      destruct (deliver_atoms (Some X) final now1 c HX) as (x & H1 & _ & H2).
      rewrite (atoms_card _ _ H2). simpl. by apply atoms_card. }
    subst c2. simpl. unfold deliver at 1. simpl. rewrite HY.
    set (x := if thinkingStopped (st c1) then c1 else _).
    assert (Hx : cardMessageId (st x) = cardMessageId (st c)
                 ∧ accumulatedText (st x) = X).
    { subst x. destruct (thinkingStopped (st c1)); [done|].
      unfold clearPendingPatch. simpl.
      by destruct (pendingPatchTimer (st c1)). }
    destruct Hx as [Hx Hxacc]. rewrite Hxacc.
    rewrite (blank_false_nonempty X HX), Hend, Hstart. simpl.
    rewrite <- app_assoc.
    set (y := with_st _ x).
    unfold doDeliverFinalReply.
    change (accumulatedText (st y)) with (X ++ [LF] ++ Y).
    rewrite (blank_app_l X ([LF] ++ Y) HX).
    change (cardMessageId (st y)) with (cardMessageId (st x)). rewrite Hx.
    destruct (cardMessageId (st c)) as [[|ch r]|]; try done.
    eexists _, _, _. split; [apply last_snoc|].
    apply reply_body_final. by destruct X.
Qed.


(** *** Further properties of the reply renderer

    **** Segments as sequences of primitive statements

    The atomic steps above forget which field a state update writes.
    The steps below are the statements of the callbacks as written,
    each under the guards the code reaches it with; the two statements
    of the tool bookkeeping come first. *)

Inductive tool_prim : config → config → Prop :=
| p_tool_start id e c :
    nonempty id = true →
    tool_prim c (with_st (λ s, set_activeTools (map_set id e (activeTools s)) s) c)
| p_tool_result id e fl c :
    map_get id (activeTools (st c)) = Some e →
    tool_prim c (with_st (λ s, set_completedTools
                            (completedTools s ++ [{| entry := e; failed := fl |}])
                            (set_activeTools (map_delete id (activeTools s)) s)) c).

Inductive prim : config → config → Prop :=
| p_stop c :
    pendingPatchTimer (st c) = None →
    prim c (with_st (set_thinkingStopped true) c)
| p_content c :
    thinkingStopped (st c) = false →
    prim c (with_st (set_hasThinkingContent true) c)
| p_started now c :
    thinkingStopped (st c) = false →
    truthy_num (thinkingStartedAt (st c)) = false →
    prim c (with_st (set_thinkingStartedAt (Some now)) c)
| p_snapshot t c :
    nonempty t = true →
    prim c (with_st (set_thinkingText (Some t)) c)
| p_append text c :
    blank text = false →
    thinkingStopped (st c) = true →
    prim c (with_st (set_accumulatedText (appended (accumulatedText (st c)) text)) c)
| p_note a c :
    is_note a = true → prim c (emit a c)
| p_arm delay c :
    thinkingStopped (st c) = false →
    pendingPatchTimer (st c) = None →
    prim c (with_st (set_pendingPatchTimer (Some (next c))) (setTimeout delay c))
| p_disarm h c :
    pendingPatchTimer (st c) = Some h →
    prim c (with_st (set_pendingPatchTimer None) (clearTimeout h c))
| p_fired h c :
    h ∈ timers c →
    prim c (mkConfig (set_pendingPatchTimer None (st c)) (next c)
              (List.filter (λ t, negb (Nat.eqb t h)) (timers c))
              (calls c) (waiting c) (trace c))
| p_wait p f c :
    streamingFailed (st c) = false →
    cardCreationPromise (st c) = Some p →
    prim c (mkConfig (st c) (next c) (timers c) (calls c)
              (waiting c ++ [(p, f)]) (trace c))
| p_create f now c :
    streamingFailed (st c) = false →
    truthy_str (cardMessageId (st c)) = false →
    cardCreationPromise (st c) = None →
    prim c (with_st (set_cardCreationPromise (Some (next c)))
              (issue (sendCardFeishu (buildCurrentCard f now (st c))) KCreate c))
| p_patch f now m c :
    cardMessageId (st c) = Some m →
    nonempty m = true →
    prim c (issue (updateCardFeishu m (buildCurrentCard f now (st c))) KUpdate c)
| p_final now m c :
    cardMessageId (st c) = Some m →
    nonempty m = true →
    blank (accumulatedText (st c)) = false →
    thinkingStopped (st c) = true →
    prim c (issue (updateCardFeishu m
                     (buildFinalCard (accumulatedText (st c)) now (st c)))
              (KFinalUpdate (accumulatedText (st c))) c)
| p_standalone text c :
    standaloneDelivered (st c) = false →
    blank text = false →
    prim c (deliverStandalone text (with_st (set_standaloneDelivered true) c)).

Abbreviation prims := (rtc prim).

Lemma stopped_again c :
  thinkingStopped (st c) = true → with_st (set_thinkingStopped true) c = c.
Proof. destruct c as [[] ? ? ? ? ?]. simpl. by intros ->. Qed.

Lemma clearPendingPatch_cleared c : pendingPatchTimer (st (clearPendingPatch c)) = None.
Proof. unfold clearPendingPatch. by destruct (pendingPatchTimer (st c)) eqn:E. Qed.

Lemma clearPendingPatch_stopped c :
  thinkingStopped (st (clearPendingPatch c)) = thinkingStopped (st c).
Proof. unfold clearPendingPatch. by destruct (pendingPatchTimer (st c)). Qed.

(** [thinkingStopped = true; clearPendingPatch()] of [deliver] in the
    order of [onIdle]: the two statements touch different variables. *)
Lemma stop_then_clear c :
  clearPendingPatch (with_st (set_thinkingStopped true) c)
  = with_st (set_thinkingStopped true) (clearPendingPatch c).
Proof. unfold clearPendingPatch. simpl. by destruct (pendingPatchTimer (st c)). Qed.

Lemma patchCard_send_prims f now c :
  streamingFailed (st c) = false → cardCreationPromise (st c) = None →
  prims c (patchCard_send f now c).
Proof.
  intros Hok Hnone. unfold patchCard_send.
  destruct (cardMessageId (st c)) as [[|ch r]|] eqn:E.
  - apply rtc_once, p_create; [done|by rewrite E|done].
  - by apply rtc_once, p_patch.
  - apply rtc_once, p_create; [done|by rewrite E|done].
Qed.

Lemma patchCard_prims f now c : prims c (patchCard f now c).
Proof.
  unfold patchCard. destruct (streamingFailed (st c)) eqn:Hok; [done|].
  destruct (_ && _); [done|].
  destruct (cardCreationPromise (st c)) as [p|] eqn:E.
  - by apply rtc_once, p_wait.
  - by apply patchCard_send_prims.
Qed.

Lemma clearPendingPatch_prims c : prims c (clearPendingPatch c).
Proof.
  unfold clearPendingPatch. destruct (pendingPatchTimer (st c)) eqn:E; [|done].
  by apply rtc_once, p_disarm.
Qed.

Lemma triggerThinkingUpdate_prims now c : prims c (triggerThinkingUpdate now c).
Proof.
  unfold triggerThinkingUpdate. destruct (thinkingStopped (st c)) eqn:Hs; [done|].
  set (c1 := with_st (set_hasThinkingContent true) c).
  set (c2 := if truthy_num (thinkingStartedAt (st c1)) then c1 else _).
  assert (H2 : prims c c2 ∧ thinkingStopped (st c2) = false).
  { split.
    - etrans; [by apply rtc_once, p_content|].
      subst c2. fold c1. destruct (truthy_num _) eqn:Ht; [done|].
      by apply rtc_once, p_started.
    - subst c2. by destruct (truthy_num _). }
  destruct H2 as [H2 Hs2]. destruct (_ >=? _).
  - etrans; [exact H2|apply patchCard_prims].
  - etrans; [exact H2|]. unfold schedulePatch.
    destruct (pendingPatchTimer (st c2)) eqn:E; [done|]. by apply rtc_once, p_arm.
Qed.

Lemma standaloneOnce_prims text c :
  blank text = false → prims c (standaloneOnce text c).
Proof.
  intros Hb. unfold standaloneOnce. destruct (standaloneDelivered (st c)) eqn:E; [done|].
  by apply rtc_once, p_standalone.
Qed.

(** Both callers of [doDeliverFinalReply] have set [thinkingStopped]. *)
Lemma doDeliverFinalReply_prims now c :
  thinkingStopped (st c) = true → prims c (doDeliverFinalReply now c).
Proof.
  intros Hs. unfold doDeliverFinalReply. destruct (blank _) eqn:Hb; [done|].
  destruct (cardMessageId (st c)) as [[|ch r]|] eqn:E;
    try by apply standaloneOnce_prims.
  rewrite (stopped_again c Hs). by apply rtc_once, p_final.
Qed.

Lemma deliver_prims text kind now c : prims c (deliver text kind now c).
Proof.
  unfold deliver. destruct (blank (default [] text)) eqn:Hb; [done|].
  set (c1 := if thinkingStopped (st c) then c else _).
  assert (H1 : prims c c1 ∧ thinkingStopped (st c1) = true).
  { subst c1. destruct (thinkingStopped (st c)) eqn:Hs; [done|].
    rewrite stop_then_clear. split; [|done].
    etrans; [apply clearPendingPatch_prims|].
    apply rtc_once, p_stop, clearPendingPatch_cleared. }
  destruct H1 as [H1 Hs1].
  etrans; [exact H1|].
  etrans; [apply rtc_once, (p_append (default [] text)); done|].
  destruct (bool_decide _); [|done]. by apply doDeliverFinalReply_prims.
Qed.

Lemma onError_prims c : prims c (onError c).
Proof.
  unfold onError.
  etrans; [by apply rtc_once, (p_note (LogLine "feishu reply failed"))|].
  etrans; [apply clearPendingPatch_prims|]. by apply rtc_once, p_note.
Qed.

Lemma onIdle_prims now c : prims c (onIdle now c).
Proof.
  unfold onIdle.
  set (c1 := with_st _ _).
  assert (H1 : prims c c1).
  { etrans; [apply clearPendingPatch_prims|].
    apply rtc_once, p_stop, clearPendingPatch_cleared. }
  etrans; [|by apply rtc_once, p_note].
  destruct (negb _); [|done].
  etrans; [exact H1|]. by apply doDeliverFinalReply_prims.
Qed.

Lemma onReasoningStream_prims text now c : prims c (onReasoningStream text now c).
Proof.
  unfold onReasoningStream. destruct text as [[|ch r]|]; try done.
  etrans; [by apply rtc_once, (p_snapshot (ch :: r))|].
  apply triggerThinkingUpdate_prims.
Qed.

(** [onAgentEvent] makes at most one statement of the tool
    bookkeeping, and makes it first. *)
Lemma onAgentEvent_prims evt now c :
  ∃ c1, (c1 = c ∨ tool_prim c c1) ∧ prims c1 (onAgentEvent evt now c).
Proof.
  unfold onAgentEvent. destruct (bool_decide _); [|by exists c; split; [left|]].
  destruct (nonempty (default [] (toolCallId evt))) eqn:Hid;
    [|rewrite !andb_false_r; by exists c; split; [left|]].
  rewrite !andb_true_r. destruct (bool_decide _).
  - eexists. split; [right; by apply p_tool_start|].
    apply triggerThinkingUpdate_prims.
  - destruct (bool_decide _); [|by exists c; split; [left|]].
    destruct (map_get _ _) eqn:Eg.
    + eexists. split; [right; by apply p_tool_result|].
      apply triggerThinkingUpdate_prims.
    + exists c. split; [by left|]. apply triggerThinkingUpdate_prims.
Qed.

Lemma markDispatchIdle_prims now c : prims c (markDispatchIdle now c).
Proof.
  unfold markDispatchIdle.
  etrans; [|by apply rtc_once, p_note].
  etrans; [apply clearPendingPatch_prims|].
  destruct (thinkingStopped _); [done|].
  etrans; [apply rtc_once, p_stop, clearPendingPatch_cleared|].
  destruct (_ && _); [|done]. apply patchCard_prims.
Qed.

Lemma timerFires_prims h now c : prims c (timerFires h now c).
Proof.
  unfold timerFires. case_bool_decide as Hin; [|done].
  etrans; [by apply rtc_once, (p_fired h)|].
  destruct (streamingFailed _); [done|]. apply patchCard_prims.
Qed.

(** Every callback of the dispatcher is a sequence of primitive
    statements; what remains is the continuation of a settling call. *)
Lemma step_prims e now c :
  match e with Settles _ _ | OnAgentEvent _ => False | _ => True end →
  prims c (step e now c).
Proof.
  destruct e; simpl; intros H; try done.
  - apply deliver_prims.
  - by apply rtc_once, p_note.
  - apply onError_prims.
  - apply onIdle_prims.
  - apply onReasoningStream_prims.
  - apply markDispatchIdle_prims.
  - apply timerFires_prims.
Qed.

(** The statements run when a network call settles; the plain-text
    chunks are sent from there only. *)
Inductive settle_prim : config → config → Prop :=
| sp_prim c c' :
    prim c c' → settle_prim c c'
| sp_settled id c :
    settle_prim c (mkConfig (st c) (next c) (timers c)
                     (List.filter (λ e : nat * kont, negb (Nat.eqb e.1 id)) (calls c))
                     (waiting c) (trace c))
| sp_woken p c :
    settle_prim c (mkConfig (st c) (next c) (timers c) (calls c)
                     (List.filter (λ w : nat * bool, negb (Nat.eqb w.1 p)) (waiting c))
                     (trace c))
| sp_created messageId now c :
    settle_prim c (with_st (λ s, set_cardCreationPromise None
                                   (set_lastPatchTime now
                                      (set_cardMessageId (Some messageId) s))) c)
| sp_patched now c :
    settle_prim c (with_st (set_lastPatchTime now) c)
| sp_catch c :
    settle_prim c (patchCard_catch c)
| sp_send f now c :
    settle_prim c (patchCard_send f now c)
| sp_standalone text c :
    settle_prim c (standaloneOnce text c)
| sp_chunks chunks c :
    settle_prim c (sendChunks chunks c).

Abbreviation settle_prims := (rtc settle_prim).

Lemma prims_settle_prims c c' : prims c c' → settle_prims c c'.
Proof. induction 1; [done|]. eapply rtc_l; [by apply sp_prim|done]. Qed.

Lemma wake_prims p b now c : settle_prims c (wake p b now c).
Proof.
  apply wake_ind.
  - intros c' f H. eapply rtc_r; [exact H|apply sp_send].
  - intros c' f H. eapply rtc_r; [exact H|]. by apply sp_prim, p_note.
  - apply rtc_once, sp_woken.
Qed.

Lemma settles_prims id o now c : settle_prims c (settles id o now c).
Proof.
  unfold settles. destruct (List.find _ _) as [[? k]|]; [|done].
  eapply rtc_l; [apply (sp_settled id)|].
  destruct k, o.
  - eapply rtc_l; [apply (sp_created messageId now)|]. apply wake_prims.
  - eapply rtc_l; [apply sp_catch|]. apply wake_prims.
  - apply rtc_once, sp_patched.
  - apply rtc_once, sp_catch.
  - done.
  - apply rtc_once, sp_standalone.
  - done.
  - apply rtc_once, sp_chunks.
  - apply rtc_once, sp_chunks.
  - by apply prims_settle_prims, rtc_once, p_note.
Qed.

(** A reflexive and transitive relation that holds of every primitive
    statement and of every settling call holds between the ends of
    every run. *)
Section LiftPrim.
Variable R : config → config → Prop.
Hypothesis R_refl : ∀ c, R c c.
Hypothesis R_trans : ∀ c1 c2 c3, R c1 c2 → R c2 c3 → R c1 c3.

Lemma lift_prims c c' : (∀ x y, prim x y → R x y) → prims c c' → R c c'.
Proof. intros Ha. induction 1; eauto. Qed.

Lemma lift_settle_prims c c' :
  (∀ x y, settle_prim x y → R x y) → settle_prims c c' → R c c'.
Proof. intros Ha. induction 1; eauto. Qed.

Hypothesis R_prim : ∀ c c', prim c c' → R c c'.
Hypothesis R_tool : ∀ c c', tool_prim c c' → R c c'.

Lemma lift_callback e now c :
  match e with Settles _ _ => False | _ => True end → R c (step e now c).
Proof.
  destruct e; try done; intros _; try (by apply lift_prims, step_prims).
  simpl. destruct (onAgentEvent_prims evt now c) as (c1 & [->|H1] & H2).
  - by apply lift_prims.
  - eapply R_trans; [by apply R_tool|]. by apply lift_prims.
Qed.

Hypothesis R_settles : ∀ id o now c, R c (settles id o now c).

Lemma lift_prim_step e now c : R c (step e now c).
Proof.
  destruct e; try (by apply lift_callback).
  apply R_settles.
Qed.

Lemma lift_prim_run es c : R c (run es c).
Proof.
  revert c. induction es as [|[e now] es IH]; intros c; simpl; [done|].
  eapply R_trans; [apply lift_prim_step|apply IH].
Qed.
End LiftPrim.

(** An invariant of the primitive statements and of the statements of
    a settling call is an invariant of runs. *)
Lemma invariant_run (P : config → Prop) es c :
  (∀ x y, settle_prim x y ∨ tool_prim x y → P x → P y) → P c → P (run es c).
Proof.
  intros HP.
  apply (lift_prim_run (λ c c', P c → P c')); auto.
  - intros x y H. apply HP. by left; apply sp_prim.
  - intros x y H. apply HP. by right.
  - intros id o now c0.
    apply (lift_settle_prims (λ c c', P c → P c')); auto.
    + intros x y H. apply HP. by left.
    + apply settles_prims.
Qed.

(** Case analysis over the statements of a settling call, the compound
    ones unfolded; [settle_prim_cases] takes the statements of the tool
    bookkeeping along. *)
Ltac settle_only_cases H :=
  destruct H as [?c1 ?c2 H|?id ?c1|?p ?c1|?m ?now ?c1|?now ?c1|?c1|?f ?now ?c1|?text ?c1
                 |?chunks ?c1];
  [destruct H| | | | |
   unfold patchCard_catch; simpl; destruct (truthy_str _)|
   unfold patchCard_send; destruct (cardMessageId _) as [[|??]|] eqn:?|
   unfold standaloneOnce; destruct (standaloneDelivered _) eqn:?|
   unfold sendChunks; destruct chunks as [|?chunk ?rest]];
  simpl.

Ltac settle_prim_cases H :=
  destruct H as [H|H]; [settle_only_cases H|destruct H; simpl].

(** **** The thinking panel *)

(** X1. The thinking panel only moves forward.  Over every run, from
    every configuration: once [thinkingStopped] is set it stays set,
    once [hasThinkingContent] is set it stays set, and once
    [thinkingStartedAt] holds a non-zero reading it keeps that reading,
    so the duration shown in the collapsed title is measured from the
    first thinking update. *)
Theorem thinking_panel_moves_forward (es : list (event * Z)) (c : config) :
  (thinkingStopped (st c) = true → thinkingStopped (st (run es c)) = true)
  ∧ (hasThinkingContent (st c) = true → hasThinkingContent (st (run es c)) = true)
  ∧ (truthy_num (thinkingStartedAt (st c)) = true →
     thinkingStartedAt (st (run es c)) = thinkingStartedAt (st c)).
Proof.
  split; [|split].
  - apply (invariant_run (λ x, thinkingStopped (st x) = true)).
    intros x y H. settle_prim_cases H; done.
  - apply (invariant_run (λ x, hasThinkingContent (st x) = true)).
    intros x y H. settle_prim_cases H; done.
  - intros Ht.
    apply (invariant_run (λ x, thinkingStartedAt (st x) = thinkingStartedAt (st c)));
      [|done].
    intros x y H. settle_prim_cases H; try done.
    intros E. rewrite E in *. congruence.
Qed.

(** The [setTimeout] calls of a trace. *)
Definition timeouts_set (tr : list action) : list action :=
  List.filter (λ a, match a with SetTimeout _ _ => true | _ => false end) tr.

Lemma timeouts_set_snoc tr a :
  timeouts_set (tr ++ [a])
  = timeouts_set tr ++ (match a with SetTimeout _ _ => [a] | _ => [] end).
Proof. unfold timeouts_set. rewrite List.filter_app. simpl. by destruct a. Qed.

Lemma stopped_no_timer_inv es :
  thinkingStopped (st (run es initial)) = true →
  pendingPatchTimer (st (run es initial)) = None.
Proof.
  apply (invariant_run
           (λ x, thinkingStopped (st x) = true → pendingPatchTimer (st x) = None));
    [|done].
  intros x y H. settle_prim_cases H; try done. congruence.
Qed.

Lemma stopped_arms_nothing es c :
  thinkingStopped (st c) = true →
  thinkingStopped (st (run es c)) = true
  ∧ timeouts_set (trace (run es c)) = timeouts_set (trace c).
Proof.
  intros Hs.
  apply (invariant_run
           (λ x, thinkingStopped (st x) = true
                 ∧ timeouts_set (trace x) = timeouts_set (trace c))); [|done].
  intros x y H (Hx & Ht).
  settle_prim_cases H; rewrite ?timeouts_set_snoc; simpl;
    rewrite ?app_nil_r; try done; try congruence.
  all: match goal with a : action |- _ => destruct a end;
    try done; simpl; by rewrite app_nil_r.
Qed.

Lemma run_app es es' c : run (es ++ es') c = run es' (run es c).
Proof. revert c. induction es as [|[e now] es IH]; intros c; simpl; [done|apply IH]. Qed.

(** X2. The first answer text ends the debounce for good.  In every
    state a reply can reach with [thinkingStopped] set, no patch timer
    is pending or armed, and whatever happens afterwards none is armed
    again: no later [setTimeout] call is made. *)
Theorem answer_ends_debounce (es es' : list (event * Z)) :
  let c := run es initial in
  thinkingStopped (st c) = true →
  pendingPatchTimer (st c) = None
  ∧ timers c = []
  ∧ timers (run es' c) = []
  ∧ timeouts_set (trace (run es' c)) = timeouts_set (trace c).
Proof.
  intros c Hs.
  assert (Hnone : ∀ l, thinkingStopped (st (run l initial)) = true →
                       pendingPatchTimer (st (run l initial)) = None
                       ∧ timers (run l initial) = []).
  { intros l Hl. pose proof (stopped_no_timer_inv l Hl) as Hp.
    split; [done|].
    assert (Hinv : timer_inv (run l initial)) by (by apply run_timer_inv).
    unfold timer_inv in Hinv. by rewrite Hp in Hinv. }
  destruct (Hnone es Hs) as [Hp Ht].
  destruct (stopped_arms_nothing es' c Hs) as [Hs' Hset].
  repeat split; try done.
  subst c. rewrite <- run_app in Hs' |- *. by apply Hnone.
Qed.

(** An event of the thinking phase: a reasoning fragment or an agent
    event. *)
Definition is_thinking_event (en : event * Z) : bool :=
  match en.1 with
  | OnReasoningStream _ | OnAgentEvent _ => true
  | _ => false
  end.

(** Everything of a configuration but the three variables the thinking
    callbacks record into ([thinkingText], [activeTools],
    [completedTools]). *)
Definition outside_thinking_record (c : config) :=
  (next c, timers c, calls c, waiting c, trace c,
   (cardMessageId (st c), accumulatedText (st c), lastPatchTime (st c),
    pendingPatchTimer (st c), streamingFailed (st c), cardCreationPromise (st c)),
   (thinkingStopped (st c), hasThinkingContent (st c), thinkingStartedAt (st c),
    standaloneDelivered (st c))).

(** X3. After the answer has started, the thinking callbacks only
    record.  With [thinkingStopped] set, any sequence of reasoning
    fragments and agent events (tool starts and results included)
    sends nothing, arms nothing, logs nothing and changes no variable
    of the reply other than the recorded snapshot and tool lists. *)
Theorem late_thinking_only_records (es : list (event * Z)) (c : config) :
  thinkingStopped (st c) = true →
  forallb is_thinking_event es = true →
  outside_thinking_record (run es c) = outside_thinking_record c.
Proof.
  revert c. induction es as [|[e now] es IH]; intros c Hs Hes; simpl; [done|].
  simpl in Hes. apply andb_true_iff in Hes as [He Hes].
  assert (Hstep : outside_thinking_record (step e now c) = outside_thinking_record c
                  ∧ thinkingStopped (st (step e now c)) = true).
  { destruct e; try done; simpl.
    - unfold onReasoningStream. destruct text as [[|ch r]|]; try done.
      unfold triggerThinkingUpdate. simpl. by rewrite Hs.
    - unfold onAgentEvent. destruct (bool_decide _); [|done].
      destruct (_ && _).
      + unfold triggerThinkingUpdate. simpl. by rewrite Hs.
      + destruct (_ && _); [|done].
        unfold triggerThinkingUpdate.
        destruct (map_get _ _); simpl; by rewrite Hs. }
  destruct Hstep as [E Hs']. rewrite <- E. by apply IH.
Qed.

(** **** The table test of [patchCard] and its callers

    Answer text is accumulated only once [thinkingStopped] is set, and
    the callers of a non-final [patchCard] (a thinking update, the patch
    timer, [markDispatchIdle]) reach it only from a state in which
    [thinkingStopped] is clear.  In every state a reply can reach with
    [thinkingStopped] clear the accumulated text is still empty, so the
    table test of such a call has no text to look at: the text a
    non-final patch shows is the one it finds when it resumes. *)
Lemma text_only_after_stop (es : list (event * Z)) :
  thinkingStopped (st (run es initial)) = false →
  accumulatedText (st (run es initial)) = [].
Proof.
  apply (invariant_run
           (λ x, thinkingStopped (st x) = false → accumulatedText (st x) = []));
    [|done].
  intros x y H. settle_prim_cases H; try done; congruence.
Qed.

(** **** The tool lists *)

Definition tools (c : config) := (activeTools (st c), completedTools (st c)).

Lemma prim_tools x y : prim x y → tools y = tools x.
Proof. by destruct 1. Qed.

Lemma settle_prim_tools x y : settle_prim x y → tools y = tools x.
Proof.
  intros H. settle_only_cases H; done.
Qed.

Lemma prims_tools c c' : prims c c' → tools c' = tools c.
Proof.
  apply (lift_prims (λ c c', tools c' = tools c)); [done| |apply prim_tools].
  intros ? ? ? H1 H2. by rewrite H2.
Qed.

Lemma settles_tools id o now c : tools (settles id o now c) = tools c.
Proof.
  apply (lift_settle_prims (λ c c', tools c' = tools c));
    [done| |apply settle_prim_tools|apply settles_prims].
  intros ? ? ? H1 H2. by rewrite H2.
Qed.

(** Only [onAgentEvent] writes the tool lists. *)
Lemma step_tools e now c :
  match e with OnAgentEvent _ => False | _ => True end →
  tools (step e now c) = tools c.
Proof.
  destruct e; try done; intros _; try (by apply prims_tools, step_prims).
  apply settles_tools.
Qed.

Lemma step_tool_lists e now c :
  match e with OnAgentEvent _ => False | _ => True end →
  activeTools (st (step e now c)) = activeTools (st c)
  ∧ completedTools (st (step e now c)) = completedTools (st c).
Proof.
  intros H. pose proof (step_tools e now c H) as Ht. unfold tools in Ht.
  by injection Ht as -> ->.
Qed.

(** What [onAgentEvent] leaves in the tool lists. *)
Lemma onAgentEvent_tools evt now c :
  tools (onAgentEvent evt now c)
  = let id := default [] (toolCallId evt) in
    if bool_decide (stream evt = Some (js "tool")) && nonempty id then
      if bool_decide (default [] (phase evt) = js "start") then
        (map_set id {| name := default [] (toolName evt); args := toolArgs evt;
                       startedAt := now |} (activeTools (st c)),
         completedTools (st c))
      else if bool_decide (default [] (phase evt) = js "result") then
        match map_get id (activeTools (st c)) with
        | Some e => (map_delete id (activeTools (st c)),
                     completedTools (st c) ++ [{| entry := e; failed := isError evt |}])
        | None => tools c
        end
      else tools c
    else tools c.
Proof.
  unfold onAgentEvent. simpl. destruct (bool_decide (stream evt = _)); [|done].
  destruct (nonempty _); [|by rewrite !andb_false_r].
  rewrite !andb_true_r. simpl.
  destruct (bool_decide _); [by rewrite (prims_tools _ _ (triggerThinkingUpdate_prims _ _))|].
  destruct (bool_decide _); [|done].
  rewrite (prims_tools _ _ (triggerThinkingUpdate_prims _ _)).
  by destruct (map_get _ _).
Qed.

Lemma map_get_set_eq k v m : map_get k (map_set k v m) = Some v.
Proof.
  unfold map_get. induction m as [|[k' v'] m IH]; simpl.
  - by rewrite bool_decide_eq_true_2.
  - case_bool_decide as E; simpl.
    + by rewrite bool_decide_eq_true_2.
    + by rewrite bool_decide_eq_false_2.
Qed.

Lemma map_get_set_ne k k' v m : k ≠ k' → map_get k (map_set k' v m) = map_get k m.
Proof.
  intros Hne. unfold map_get. induction m as [|[k2 v2] m IH]; simpl.
  - by rewrite bool_decide_eq_false_2.
  - case_bool_decide as E; simpl.
    + subst k2. by rewrite !bool_decide_eq_false_2.
    + by case_bool_decide.
Qed.

Lemma map_get_delete_eq k m : map_get k (map_delete k m) = None.
Proof.
  unfold map_get, map_delete. induction m as [|[k2 v2] m IH]; simpl; [done|].
  case_bool_decide as E; simpl; [done|]. by rewrite bool_decide_eq_false_2.
Qed.

Lemma map_get_delete_ne k k' m : k ≠ k' → map_get k (map_delete k' m) = map_get k m.
Proof.
  intros Hne. unfold map_get, map_delete. induction m as [|[k2 v2] m IH]; simpl; [done|].
  case_bool_decide as E; simpl.
  - subst k2. by rewrite bool_decide_eq_false_2.
  - by case_bool_decide.
Qed.

(** The agent events that name the tool call [id]. *)
Definition about (id : jsstring) (en : event * Z) : bool :=
  match en.1 with
  | OnAgentEvent evt => bool_decide (toolCallId evt = Some id)
  | _ => false
  end.

(** Events that do not name [id] keep its entry and only append to the
    completed list. *)
Lemma others_keep_entry id e es c :
  nonempty id = true →
  forallb (λ en, negb (about id en)) es = true →
  map_get id (activeTools (st c)) = Some e →
  map_get id (activeTools (st (run es c))) = Some e
  ∧ ∃ more, completedTools (st (run es c)) = completedTools (st c) ++ more.
Proof.
  intros Hid. revert c. induction es as [|[ev now] es IH]; intros c Hes Hget; simpl.
  { split; [done|]. exists []. by rewrite app_nil_r. }
  simpl in Hes. apply andb_true_iff in Hes as [Hev Hes].
  assert (Hstep : map_get id (activeTools (st (step ev now c))) = Some e
                  ∧ ∃ more, completedTools (st (step ev now c))
                            = completedTools (st c) ++ more).
  { destruct ev;
      try (match goal with
           | |- context [step ?e now c] =>
               destruct (step_tool_lists e now c I) as [Ha Hd]
           end; rewrite Ha, Hd; split; [done|]; exists []; by rewrite app_nil_r).
    unfold about in Hev. simpl in Hev. apply negb_true_iff in Hev.
    apply bool_decide_eq_false in Hev.
    pose proof (onAgentEvent_tools evt now c) as Ht. simpl in Ht.
    change (step (OnAgentEvent evt) now c) with (onAgentEvent evt now c).
    pose proof (f_equal fst Ht) as Ha. pose proof (f_equal snd Ht) as Hd.
    unfold tools in Ha, Hd. simpl in Ha, Hd. rewrite Ha, Hd. clear Ht Ha Hd.
    assert (Hne : nonempty (default [] (toolCallId evt)) = true →
                  id ≠ default [] (toolCallId evt)).
    { intros Hn ->. destruct (toolCallId evt); [by apply Hev|done]. }
    unfold tools.
    destruct (nonempty (default [] (toolCallId evt))) eqn:Hn;
      [|rewrite andb_false_r; simpl; split; [done|]; exists []; by rewrite app_nil_r].
    specialize (Hne eq_refl). rewrite andb_true_r.
    destruct (bool_decide (stream evt = _)); simpl;
      [|split; [done|]; exists []; by rewrite app_nil_r].
    destruct (bool_decide _); simpl.
    { rewrite map_get_set_ne by done. split; [done|]. exists []. by rewrite app_nil_r. }
    destruct (bool_decide _); simpl;
      [|split; [done|]; exists []; by rewrite app_nil_r].
    destruct (map_get (default [] (toolCallId evt)) _) as [e'|]; simpl.
    - rewrite map_get_delete_ne by done. split; [done|]. by eexists.
    - split; [done|]. exists []. by rewrite app_nil_r. }
  destruct Hstep as [Hget' [m1 Hm1]].
  destruct (IH _ Hes Hget') as [Hfin [m2 Hm2]].
  split; [done|]. exists (m1 ++ m2). by rewrite Hm2, Hm1, app_assoc.
Qed.

(** X4. A completed tool carries its start.  When a tool call starts
    under a non-empty identifier and its result arrives later, with
    any events in between that do not name this call, the last entry
    of [completedTools] is the call as it was started (name, arguments
    and start time of the start event) with the error flag of the
    result; the call is no longer active, and everything completed
    before is still listed, in order. *)
Theorem tool_completion_records_its_start
    (c : config) (started result : AgentEvent) (id : jsstring) (t0 t1 : Z)
    (between : list (event * Z)) :
  nonempty id = true →
  stream started = Some (js "tool") → phase started = Some (js "start") →
  toolCallId started = Some id →
  stream result = Some (js "tool") → phase result = Some (js "result") →
  toolCallId result = Some id →
  forallb (λ en, negb (about id en)) between = true →
  let c' := run ((OnAgentEvent started, t0) :: between ++ [(OnAgentEvent result, t1)]) c in
  last (completedTools (st c'))
  = Some {| entry := {| name := default [] (toolName started);
                        args := toolArgs started; startedAt := t0 |};
            failed := isError result |}
  ∧ map_get id (activeTools (st c')) = None
  ∧ ∃ more, completedTools (st c') = completedTools (st c) ++ more.
Proof.
  intros Hid Hs1 Hp1 Hi1 Hs2 Hp2 Hi2 Hbetween c'.
  subst c'. simpl. rewrite run_app. simpl.
  set (ca := onAgentEvent started t0 c).
  set (e := {| name := default [] (toolName started); args := toolArgs started;
               startedAt := t0 |}).
  assert (Ha : map_get id (activeTools (st ca)) = Some e
               ∧ completedTools (st ca) = completedTools (st c)).
  { pose proof (onAgentEvent_tools started t0 c) as Ht. simpl in Ht.
    rewrite Hs1, Hp1, Hi1 in Ht. simpl in Ht. rewrite Hid in Ht. simpl in Ht.
    unfold tools in Ht. injection Ht as Ha Hd.
    subst ca. rewrite Ha, Hd. by rewrite map_get_set_eq. }
  destruct Ha as [Hget Hdone].
  destruct (others_keep_entry id e between ca Hid Hbetween Hget) as [Hget' [m1 Hm1]].
  set (cb := run between ca) in *.
  pose proof (onAgentEvent_tools result t1 cb) as Ht. simpl in Ht.
  rewrite Hs2, Hp2, Hi2 in Ht. simpl in Ht. rewrite Hid, Hget' in Ht. simpl in Ht.
  unfold tools in Ht. injection Ht as Ha Hd. rewrite Ha, Hd.
  split; [by rewrite last_snoc|]. split; [apply map_get_delete_eq|].
  exists (m1 ++ [{| entry := e; failed := isError result |}]).
  by rewrite Hm1, Hdone, app_assoc.
Qed.

(** X5. A result nobody waits for is ignored by the bookkeeping.  A
    tool result whose identifier is not among the active calls (never
    started, or completed already) changes neither [activeTools] nor
    [completedTools]; with X4, a result delivered twice is listed
    once. *)
Theorem unknown_tool_result_is_ignored (c : config) (result : AgentEvent) (now : Z) :
  phase result = Some (js "result") →
  map_get (default [] (toolCallId result)) (activeTools (st c)) = None →
  activeTools (st (step (OnAgentEvent result) now c)) = activeTools (st c)
  ∧ completedTools (st (step (OnAgentEvent result) now c)) = completedTools (st c).
Proof.
  intros Hp Hget.
  assert (H1 : tools (step (OnAgentEvent result) now c) = tools c).
  { simpl. rewrite onAgentEvent_tools. simpl.
    rewrite Hp, Hget. simpl. by destruct (_ && _). }
  unfold tools in H1. injection H1 as Ha Hd. by split.
Qed.

(** **** One card per reply *)

(** The card creations requested in a trace. *)
Definition creations (tr : list action) : list action :=
  List.filter (λ a, match a with Request _ _ KCreate => true | _ => false end) tr.

(** The platform answers every successful call of a run with a
    message identifier that is not empty. *)
Definition ids_returned (es : list (event * Z)) : bool :=
  forallb (λ en : event * Z,
             match en.1 with
             | Settles _ (Resolved m) => nonempty m
             | _ => true
             end) es.

Definition is_update (k : kont) : bool :=
  match k with
  | KUpdate | KFinalUpdate _ => true
  | _ => false
  end.

(** At most one creation was requested; while it is in flight there is
    no card and [cardCreationPromise] stands for it; after it, a
    further creation is held off by the promise, by the card or by
    [streamingFailed]; a card identifier is never empty; updates are in
    flight only once a card exists, and all of them name it. *)
Definition card_inv (c : config) : Prop :=
  (length (creations (trace c)) ≤ 1)%nat
  ∧ (∀ i, In (i, KCreate) (calls c) →
       cardMessageId (st c) = None ∧ cardCreationPromise (st c) = Some i)
  ∧ (creations (trace c) ≠ [] →
       cardCreationPromise (st c) ≠ None
       ∨ truthy_str (cardMessageId (st c)) = true
       ∨ streamingFailed (st c) = true)
  ∧ (cardMessageId (st c) ≠ None → truthy_str (cardMessageId (st c)) = true)
  ∧ (∀ i k, In (i, k) (calls c) → is_update k = true →
       truthy_str (cardMessageId (st c)) = true)
  ∧ (∀ i m crd k, In (Request i (updateCardFeishu m crd) k) (trace c) →
       cardMessageId (st c) = Some m).

(** Neither a creation nor an update of the card. *)
Definition off_card (a : action) : bool :=
  match a with
  | Request _ (updateCardFeishu _ _) _ | Request _ _ KCreate => false
  | _ => true
  end.

Lemma creations_off_card tr l :
  forallb off_card l = true → creations (tr ++ l) = creations tr.
Proof.
  intros H. unfold creations. rewrite List.filter_app.
  induction l as [|a l IH]; simpl; [by rewrite app_nil_r|].
  simpl in H. apply andb_true_iff in H as [Ha Hl].
  destruct a as [? [] []| | | | | |]; try done; by apply IH.
Qed.

Lemma update_off_card tr l i m crd k :
  forallb off_card l = true →
  In (Request i (updateCardFeishu m crd) k) (tr ++ l) →
  In (Request i (updateCardFeishu m crd) k) tr.
Proof.
  intros H [Hin|Hin]%in_app_or; [done|]. exfalso.
  rewrite forallb_forall in H. by apply H in Hin.
Qed.

(** A step that leaves the card variables alone, starts no call of the
    card pipeline and sends nothing to the card keeps the invariant. *)
Lemma card_inv_frame c c' l :
  cardMessageId (st c') = cardMessageId (st c) →
  cardCreationPromise (st c') = cardCreationPromise (st c) →
  streamingFailed (st c') = streamingFailed (st c) →
  (∀ e, In e (calls c') → In e (calls c) ∨ is_card_op e.2 = false) →
  trace c' = trace c ++ l → forallb off_card l = true →
  card_inv c → card_inv c'.
Proof.
  intros Hc Hp Hf Hcalls Htr Hl (A & B & C & D & E & F).
  unfold card_inv. rewrite Hc, Hp, Hf, Htr, creations_off_card by done.
  repeat split; try done.
  - by destruct (Hcalls _ H) as [H'|H']; [apply B in H' as []|].
  - by destruct (Hcalls _ H) as [H'|H']; [apply B in H' as []|].
  - intros i k Hin Hk. destruct (Hcalls _ Hin) as [H'|H']; [by eapply E|].
    by destruct k.
  - intros i m crd k Hin. apply update_off_card in Hin; [|done]. by eapply F.
Qed.

Lemma creations_snoc tr a :
  creations (tr ++ [a])
  = creations tr ++ (match a with Request _ _ KCreate => [a] | _ => [] end).
Proof.
  unfold creations. rewrite List.filter_app. simpl.
  by destruct a as [? ? []| | | | | |].
Qed.

Lemma falsy_card_is_none c :
  card_inv c → truthy_str (cardMessageId (st c)) = false → cardMessageId (st c) = None.
Proof.
  intros (_ & _ & _ & D & _) Hf. destruct (cardMessageId (st c)) eqn:E; [|done].
  rewrite D in Hf; done.
Qed.

(** The creation of [patchCard], under its guards. *)
Lemma card_inv_create crd c :
  streamingFailed (st c) = false →
  truthy_str (cardMessageId (st c)) = false →
  cardCreationPromise (st c) = None →
  card_inv c →
  card_inv (with_st (set_cardCreationPromise (Some (next c)))
              (issue (sendCardFeishu crd) KCreate c)).
Proof.
  intros Hok Hfalsy Hnone J.
  pose proof (falsy_card_is_none c J Hfalsy) as Hcard.
  destruct J as (A & B & C & D & E & F).
  assert (Hfirst : creations (trace c) = []).
  { destruct (creations (trace c)) eqn:Ecr; [done|]. exfalso.
    destruct C as [C|[C|C]]; congruence. }
  unfold card_inv. simpl. rewrite creations_snoc, Hfirst. simpl.
  refine (conj _ (conj _ (conj _ (conj _ (conj _ _))))).
  - done.
  - intros i [Hin|[[= <-]|[]]]%in_app_or; [|by rewrite Hcard].
    apply B in Hin as [_ Hin]. congruence.
  - intros _. by left.
  - done.
  - intros i k [Hin|[[= <- <-]|[]]]%in_app_or Hk; [by eapply E|done].
  - intros i m crd' k [Hin|[[=]|[]]]%in_app_or. by eapply F.
Qed.

(** An update of the card that exists. *)
Lemma card_inv_update m crd k c :
  cardMessageId (st c) = Some m → nonempty m = true → is_update k = true →
  card_inv c → card_inv (issue (updateCardFeishu m crd) k c).
Proof.
  intros Hcard Hm Hk (A & B & C & D & E & F).
  assert (Ht : truthy_str (cardMessageId (st c)) = true).
  { rewrite Hcard. by destruct m. }
  unfold card_inv. simpl. rewrite creations_snoc.
  assert (Hcr : creations (trace c)
                ++ match Request (next c) (updateCardFeishu m crd) k with
                   | Request _ _ KCreate => [Request (next c) (updateCardFeishu m crd) k]
                   | _ => []
                   end = creations (trace c)).
  { destruct k; try done; by rewrite app_nil_r. }
  rewrite Hcr. refine (conj _ (conj _ (conj _ (conj _ (conj _ _))))).
  - done.
  - intros i [Hin|[[= <-]|[]]]%in_app_or; [|by subst k].
    apply B in Hin as [Hin _]. congruence.
  - intros _. right. by left.
  - done.
  - done.
  - intros i m' crd' k' [Hin|[[= <- <- <- <-]|[]]]%in_app_or; [by eapply F|done].
Qed.

Lemma prim_card_inv x y : prim x y → card_inv x → card_inv y.
Proof.
  destruct 1 as [c Hp|c Hs|now c Hs Ht|t c Ht|text c Hb Hs|a c Ha|delay c Hs Hp
                 |h c Hp|h c Hin|p f c Hok Hp|f now c Hok Hc Hp|f now m c Hc Hm
                 |now m c Hc Hm Hb Hs|text c Hd Hb].
  - by apply (card_inv_frame _ _ []); try done; [intros ? ?; left|rewrite app_nil_r].
  - by apply (card_inv_frame _ _ []); try done; [intros ? ?; left|rewrite app_nil_r].
  - by apply (card_inv_frame _ _ []); try done; [intros ? ?; left|rewrite app_nil_r].
  - by apply (card_inv_frame _ _ []); try done; [intros ? ?; left|rewrite app_nil_r].
  - by apply (card_inv_frame _ _ []); try done; [intros ? ?; left|rewrite app_nil_r].
  - apply (card_inv_frame _ _ [a]); try done; [by intros ? ?; left|].
    simpl. by destruct a.
  - by apply (card_inv_frame _ _ [SetTimeout (next c) delay]); try done; intros ? ?; left.
  - by apply (card_inv_frame _ _ [ClearTimeout h]); try done; intros ? ?; left.
  - by apply (card_inv_frame _ _ []); try done; [intros ? ?; left|rewrite app_nil_r].
  - by apply (card_inv_frame _ _ []); try done; [intros ? ?; left|rewrite app_nil_r].
  - by apply card_inv_create.
  - by apply card_inv_update.
  - by apply card_inv_update.
  - eapply (card_inv_frame _ _ [_]); try done.
    simpl. intros e [He|[<-|[]]]%in_app_or; [by left|by right].
Qed.

Lemma sendChunks_card_inv chunks c : card_inv c → card_inv (sendChunks chunks c).
Proof.
  destruct chunks as [|chunk rest]; [done|].
  eapply (card_inv_frame _ _ [_]); try done.
  simpl. intros e [He|[<-|[]]]%in_app_or; [by left|by right].
Qed.

Lemma tool_prim_card_inv x y : tool_prim x y → card_inv x → card_inv y.
Proof.
  destruct 1;
    by apply (card_inv_frame _ _ []); try done; [intros ? ?; left|rewrite app_nil_r].
Qed.

Lemma prims_card_inv c c' : prims c c' → card_inv c → card_inv c'.
Proof.
  apply (lift_prims (λ c c', card_inv c → card_inv c')); auto.
  apply prim_card_inv.
Qed.

(** The waiters of a rejected creation only report. *)
Lemma wake_rejected_ind (P : config → Prop) (p : nat) (now : Z) (c : config) :
  (∀ c' f, P c' → P (emit (PatchRejected f) c')) →
  P (mkConfig (st c) (next c) (timers c) (calls c)
       (List.filter (λ w : nat * bool, negb (Nat.eqb w.1 p)) (waiting c)) (trace c)) →
  P (wake p false now c).
Proof.
  intros Hrej. unfold wake.
  generalize (List.filter (λ w : nat * bool, w.1 =? p)%nat (waiting c)).
  generalize (mkConfig (st c) (next c) (timers c) (calls c)
       (List.filter (λ w : nat * bool, negb (Nat.eqb w.1 p)) (waiting c)) (trace c)).
  intros c0 l. revert c0. induction l as [|w l IH]; intros c0 H0; simpl; [done|].
  apply IH. auto.
Qed.

Lemma settles_card_inv id o now c :
  (∀ m, o = Resolved m → nonempty m = true) →
  card_inv c → card_inv (settles id o now c).
Proof.
  intros Hid J. unfold settles.
  destruct (List.find _ _) as [[n k]|] eqn:Efind; [|done].
  apply find_some in Efind as [Hin Hn]. simpl in Hn. apply Nat.eqb_eq in Hn. subst n.
  set (c0 := mkConfig _ _ _ _ _ _).
  assert (Hsub : ∀ e, In e (calls c0) → In e (calls c) ∧ e.1 ≠ id).
  { intros e [He Hne]%List.filter_In. split; [done|].
    apply negb_true_iff, Nat.eqb_neq in Hne. done. }
  assert (J0 : card_inv c0).
  { apply (card_inv_frame c _ []); try done; [|by rewrite app_nil_r].
    intros e He. left. by apply Hsub. }
  destruct J as (A & B & C & D & E & F).
  assert (Hnocreate : cardCreationPromise (st c) = Some id →
                      ∀ i, ¬ In (i, KCreate) (calls c0)).
  { intros Hp i [Hi Hne]%Hsub. apply B in Hi as [_ Hi]. simpl in Hne. congruence. }
  destruct k.
  - (* the creation of patchCard *)
    destruct (B _ Hin) as [Hcard Hprom]. specialize (Hnocreate Hprom).
    destruct o as [m|].
    + specialize (Hid m eq_refl).
      apply (wake_ind (λ x, card_inv x ∧ cardMessageId (st x) = Some m)).
      * intros c' f [J' Hc']. unfold patchCard_send. rewrite Hc'.
        destruct m as [|ch r]; [done|].
        split; [by apply card_inv_update|done].
      * intros c' f [J' Hc']. split; [|done].
        by apply (card_inv_frame c' _ [PatchRejected f]); try done; intros ? ?; left.
      * split; [|done]. simpl.
        refine (conj _ (conj _ (conj _ (conj _ (conj _ _))))); simpl.
        -- done.
        -- intros i Hi. by apply Hnocreate in Hi.
        -- intros _. right. left. by destruct m.
        -- intros _. by destruct m.
        -- intros _ _ _ _. by destruct m.
        -- intros i m' crd k Hi. apply F in Hi. congruence.
    + apply wake_rejected_ind.
      * intros c' f J'.
        by apply (card_inv_frame c' _ [PatchRejected f]); try done; intros ? ?; left.
      * unfold patchCard_catch. simpl. rewrite Hcard. simpl.
        refine (conj _ (conj _ (conj _ (conj _ (conj _ _))))); simpl;
          rewrite ?creations_snoc, ?app_nil_r.
        -- done.
        -- intros i Hi. by apply Hnocreate in Hi.
        -- intros _. by right; right.
        -- by rewrite Hcard.
        -- intros i k [Hi _]%Hsub Hk. specialize (E _ _ Hi Hk). by rewrite Hcard in E.
        -- intros i m' crd k [Hi|[[=]|[]]]%in_app_or. apply F in Hi. congruence.
  - (* an update of patchCard *)
    pose proof (E _ _ Hin eq_refl) as Ht.
    destruct o as [m|].
    + by apply (card_inv_frame c0 _ []); try done; [intros ? ?; left|rewrite app_nil_r].
    + unfold patchCard_catch. simpl. rewrite Ht.
      refine (conj _ (conj _ (conj _ (conj _ (conj _ _))))); simpl;
        rewrite ?creations_snoc, ?app_nil_r.
      * done.
      * intros i [Hi _]%Hsub. apply B in Hi as [Hi _]. by rewrite Hi in Ht.
      * intros _. right. by left.
      * done.
      * done.
      * intros i m' crd k [Hi|[[=]|[]]]%in_app_or. by eapply F.
  - (* the update of doDeliverFinalReply *)
    destruct o as [m|]; [done|].
    unfold standaloneOnce. destruct (standaloneDelivered (st c0)); [done|].
    eapply (card_inv_frame c0 _ [_]); try done.
    simpl. intros e [He|[<-|[]]]%in_app_or; [by left|by right].
  - destruct o as [m|]; [done|]. by apply sendChunks_card_inv.
  - destruct o as [m|]; [by apply sendChunks_card_inv|].
    by apply (prim_card_inv c0); [apply p_note|].
Qed.

Lemma initial_card_inv : card_inv initial.
Proof.
  refine (conj _ (conj _ (conj _ (conj _ (conj _ _))))); simpl; try done.
  lia.
Qed.

Lemma callback_card_inv e now c :
  match e with Settles _ _ => False | _ => True end →
  card_inv c → card_inv (step e now c).
Proof.
  apply (lift_callback (λ c c', card_inv c → card_inv c')).
  - done.
  - intros c1 c2 c3 H12 H23 H1. by apply H23, H12.
  - apply prim_card_inv.
  - apply tool_prim_card_inv.
Qed.

Lemma run_card_inv es c : ids_returned es = true → card_inv c → card_inv (run es c).
Proof.
  revert c. induction es as [|[e now] es IH]; intros c Hes J; simpl; [done|].
  simpl in Hes. apply andb_true_iff in Hes as [He Hes]. apply IH; [done|].
  destruct e; try (by apply callback_card_inv).
  simpl. apply settles_card_inv; [|done]. intros m ->. done.
Qed.

Lemma callback_card_id e now c :
  match e with Settles _ _ => False | _ => True end →
  cardMessageId (st (step e now c)) = cardMessageId (st c).
Proof.
  apply (lift_callback (λ c c', cardMessageId (st c') = cardMessageId (st c))).
  - done.
  - intros c1 c2 c3 H12 H23. by rewrite H23.
  - by destruct 1.
  - by destruct 1.
Qed.

(** What a run was told the identifier of the card is. *)
Lemma run_card_source es c m :
  cardMessageId (st (run es c)) = Some m →
  cardMessageId (st c) = Some m
  ∨ ∃ id now, In (Settles id (Resolved m), now) es.
Proof.
  revert c. induction es as [|[e now] es IH]; intros c; simpl; [by left|].
  intros H. apply IH in H as [H|(id & t & H)]; [|right; by exists id, t; right].
  assert (Hstep : cardMessageId (st (step e now c)) = cardMessageId (st c)
                  ∨ ∃ id, e = Settles id (Resolved m)).
  { destruct e; try (left; by apply callback_card_id).
    simpl in *. unfold settles in *.
    destruct (List.find _ _) as [[n k]|]; [|by left].
    destruct k, o as [m'|]; try (by left).
    - right. exists id.
      assert (Hm : cardMessageId (st (wake id true now
                     (with_st (λ s, set_cardCreationPromise None
                                      (set_lastPatchTime now
                                         (set_cardMessageId (Some m') s)))
                        (mkConfig (st c) (next c) (timers c)
                           (List.filter (λ e : nat * kont, negb (Nat.eqb e.1 id)) (calls c))
                           (waiting c) (trace c))))) = Some m').
      { apply (wake_ind (λ x, cardMessageId (st x) = Some m')); try done.
        intros c' f Hc'. unfold patchCard_send. rewrite Hc'. by destruct m'. }
      congruence.
    - left. destruct (wake_rejected id now (patchCard_catch
                (mkConfig (st c) (next c) (timers c)
                   (List.filter (λ e : nat * kont, negb (Nat.eqb e.1 id)) (calls c))
                   (waiting c) (trace c)))) as [-> _].
      unfold patchCard_catch. simpl. by destruct (truthy_str _).
    - left. unfold patchCard_catch. simpl. by destruct (truthy_str _).
    - left. unfold standaloneOnce. by destruct (standaloneDelivered _).
    - left. by destruct (plainTextChunks text).
    - left. by destruct rest. }
  destruct Hstep as [E|[id ->]]; [left; congruence|].
  right. exists id, now. by left.
Qed.

(** X6. One card per reply.  When the platform answers successful
    calls with non-empty message identifiers, every run of a reply
    requests the creation of a card at most once: later patches wait
    for the creation in flight, update the card it produced, or are
    dropped after its failure. *)
Theorem at_most_one_card_created (es : list (event * Z)) :
  ids_returned es = true →
  (length (creations (trace (run es initial))) ≤ 1)%nat.
Proof. intros Hes. by apply (run_card_inv es initial Hes initial_card_inv). Qed.

(** X7. Every update goes to the card of the reply.  Under the same
    assumption, every [updateCardFeishu] request a run has issued,
    as a patch or as the final reply, names the identifier the
    reply holds in [cardMessageId], and that identifier is the one
    the platform returned for a call of this reply. *)
Theorem updates_target_the_created_card (es : list (event * Z)) :
  ids_returned es = true →
  ∀ i m crd k,
    In (Request i (updateCardFeishu m crd) k) (trace (run es initial)) →
    cardMessageId (st (run es initial)) = Some m
    ∧ ∃ id now, In (Settles id (Resolved m), now) es.
Proof.
  intros Hes i m crd k Hin.
  destruct (run_card_inv es initial Hes initial_card_inv) as (_ & _ & _ & _ & _ & F).
  pose proof (F _ _ _ _ Hin) as Hcard. split; [done|].
  by destruct (run_card_source es initial m Hcard) as [H|H].
Qed.

(** **** What the requests carry *)

(** A request as the file makes it: the network call goes with the
    [await] it was made at; a card created or patched has content; the
    final update shows, as reply body, the text it was called with,
    which is not blank; the standalone card is that text alone. *)
Definition well_formed (a : action) : Prop :=
  match a with
  | Request _ (sendCardFeishu crd) KCreate => crd ≠ []
  | Request _ (updateCardFeishu _ crd) KUpdate => crd ≠ []
  | Request _ (updateCardFeishu _ crd) (KFinalUpdate t) =>
      blank t = false ∧ reply_body crd = Some t
  | Request _ (sendCardFeishu crd) (KStandaloneCard t) =>
      blank t = false ∧ crd = [Markdown t]
  | Request _ (sendMessageFeishu _) (KChunk _) => True
  | Request _ _ _ => False
  | _ => True
  end.

(** The text a suspended finalize will fall back to is not blank. *)
Definition call_ok (e : nat * kont) : Prop :=
  match e.2 with
  | KFinalUpdate t | KStandaloneCard t => blank t = false
  | _ => True
  end.

Definition content_inv (c : config) : Prop :=
  Forall well_formed (trace c) ∧ ∀ e, In e (calls c) → call_ok e.

Lemma buildCurrentCard_not_empty f now s : buildCurrentCard f now s ≠ [].
Proof.
  unfold buildCurrentCard, buildUnifiedCard.
  set (md := buildThinkingSection _ _ _ _).
  destruct (hasThinkingContent s || nonempty md) eqn:Eh; simpl.
  - unfold or_else. by destruct (nonempty md) eqn:Em; [destruct md|].
  - destruct (nonempty (accumulatedText s)); simpl; [|done].
    by destruct (repairMarkdownTables (accumulatedText s) ++ _).
Qed.

Lemma standalone_card text :
  blank text = false → buildUnifiedCard None false [] (Some text) = [Markdown text].
Proof. intros H. apply blank_false_nonempty in H. by destruct text. Qed.

Lemma content_inv_frame c c' l :
  trace c' = trace c ++ l → Forall well_formed l →
  (∀ e, In e (calls c') → In e (calls c) ∨ call_ok e) →
  content_inv c → content_inv c'.
Proof.
  intros Htr Hl Hcalls [Ht Hc]. split.
  - rewrite Htr. by apply Forall_app.
  - intros e He. destruct (Hcalls e He); auto.
Qed.

Ltac content_calls :=
  let e := fresh "e" in
  let He := fresh "He" in
  intros e He;
  first [by left
        |apply List.filter_In in He as [He _]; by left
        |apply in_app_or in He as [He|[<-|[]]]; [by left|by right]].

Ltac content_frame l :=
  apply (content_inv_frame _ _ l); simpl; rewrite ?app_nil_r;
  [done| |content_calls].

Ltac content_frame_from c l :=
  apply (content_inv_frame c _ l); simpl; rewrite ?app_nil_r;
  [done| |content_calls|done].

Lemma prim_content_inv x y : prim x y → content_inv x → content_inv y.
Proof.
  destruct 1 as [c Hp|c Hs|now c Hs Ht|t c Ht|text c Hb Hs|a c Ha|delay c Hs Hp
                 |h c Hp|h c Hin|p f c Hok Hp|f now c Hok Hc Hp|f now m c Hc Hm
                 |now m c Hc Hm Hb Hs|text c Hd Hb].
  - by content_frame (@nil action).
  - by content_frame (@nil action).
  - by content_frame (@nil action).
  - by content_frame (@nil action).
  - by content_frame (@nil action).
  - content_frame [a]. repeat constructor. by destruct a.
  - content_frame [SetTimeout (next c) delay]. by repeat constructor.
  - content_frame [ClearTimeout h]. by repeat constructor.
  - by content_frame (@nil action).
  - by content_frame (@nil action).
  - content_frame [Request (next c) (sendCardFeishu (buildCurrentCard f now (st c))) KCreate].
    repeat constructor. apply buildCurrentCard_not_empty.
  - content_frame [Request (next c) (updateCardFeishu m (buildCurrentCard f now (st c)))
                     KUpdate].
    repeat constructor. apply buildCurrentCard_not_empty.
  - content_frame [Request (next c)
                     (updateCardFeishu m (buildFinalCard (accumulatedText (st c)) now (st c)))
                     (KFinalUpdate (accumulatedText (st c)))].
    repeat constructor; [done|]. by apply reply_body_final, blank_false_nonempty.
  - content_frame [Request (next c)
                     (sendCardFeishu (buildUnifiedCard None false [] (Some text)))
                     (KStandaloneCard text)].
    repeat constructor; [done|]. by apply standalone_card.
Qed.

Lemma sendChunks_content_inv chunks c : content_inv c → content_inv (sendChunks chunks c).
Proof.
  destruct chunks as [|chunk rest]; [done|]. simpl.
  content_frame [Request (next c) (sendMessageFeishu chunk) (KChunk rest)].
  by repeat constructor.
Qed.

Lemma tool_prim_content_inv x y : tool_prim x y → content_inv x → content_inv y.
Proof. destruct 1; by content_frame (@nil action). Qed.

Lemma prims_content_inv c c' : prims c c' → content_inv c → content_inv c'.
Proof.
  apply (lift_prims (λ c c', content_inv c → content_inv c')); auto.
  apply prim_content_inv.
Qed.

Lemma patchCard_send_content_inv f now c :
  content_inv c → content_inv (patchCard_send f now c).
Proof.
  unfold patchCard_send. destruct (cardMessageId (st c)) as [[|ch r]|].
  - content_frame [Request (next c) (sendCardFeishu (buildCurrentCard f now (st c))) KCreate].
    repeat constructor. apply buildCurrentCard_not_empty.
  - content_frame [Request (next c)
                     (updateCardFeishu (ch :: r) (buildCurrentCard f now (st c))) KUpdate].
    repeat constructor. apply buildCurrentCard_not_empty.
  - content_frame [Request (next c) (sendCardFeishu (buildCurrentCard f now (st c))) KCreate].
    repeat constructor. apply buildCurrentCard_not_empty.
Qed.

Lemma settles_content_inv id o now c :
  content_inv c → content_inv (settles id o now c).
Proof.
  intros J. unfold settles.
  destruct (List.find _ _) as [[n k]|] eqn:Efind; [|done].
  apply find_some in Efind as [Hin _].
  set (c0 := mkConfig _ _ _ _ _ _).
  assert (J0 : content_inv c0).
  { by content_frame_from c (@nil action). }
  pose proof (proj2 J _ Hin) as Hk. unfold call_ok in Hk. simpl in Hk.
  destruct k, o as [m|]; try done.
  - apply (wake_ind content_inv).
    + intros c' f. apply patchCard_send_content_inv.
    + intros c' f J'. content_frame_from c' [PatchRejected f]. by repeat constructor.
    + by content_frame_from c0 (@nil action).
  - apply (wake_rejected_ind content_inv).
    + intros c' f J'. content_frame_from c' [PatchRejected f]. by repeat constructor.
    + unfold patchCard_catch. simpl. destruct (truthy_str _); simpl.
      * content_frame_from c0 [LogLine "feishu: card patch failed"]. by repeat constructor.
      * content_frame_from c0 [LogLine "feishu: card patch failed"]. by repeat constructor.
  - unfold patchCard_catch. simpl. destruct (truthy_str _); simpl.
    + content_frame_from c0 [LogLine "feishu: card patch failed"]. by repeat constructor.
    + content_frame_from c0 [LogLine "feishu: card patch failed"]. by repeat constructor.
  - exact (prims_content_inv c0 _ (standaloneOnce_prims _ _ Hk) J0).
  - by apply sendChunks_content_inv.
  - by apply sendChunks_content_inv.
  - apply (prim_content_inv c0); [by apply p_note|done].
Qed.

Lemma run_content_inv es c : content_inv c → content_inv (run es c).
Proof.
  apply (lift_prim_run (λ c c', content_inv c → content_inv c')).
  - done.
  - intros c1 c2 c3 H12 H23 H1. by apply H23, H12.
  - apply prim_content_inv.
  - apply tool_prim_content_inv.
  - apply settles_content_inv.
Qed.

(** X8. No request goes out empty.  In every run of a reply, each
    request in the trace is well formed: a card that is created or
    patched has at least one element (the thinking panel, the reply,
    or the placeholder); a final update carries a text that is not
    blank and shows exactly that text as the reply body; a standalone
    card consists of its text alone, which is not blank; and each
    network call is paired with the [await] of the statement that
    makes it. *)
Theorem requests_are_well_formed (es : list (event * Z)) :
  Forall well_formed (trace (run es initial)).
Proof.
  apply (run_content_inv es initial). split; [constructor|]. by intros e [].
Qed.

(** **** The plain-text fallback *)

(** The texts sent as plain messages, and the texts handed to
    [deliverStandalone], in the order of a trace. *)
Definition chunks_sent (tr : list action) : list jsstring :=
  omap (λ a, match a with Request _ (sendMessageFeishu t) _ => Some t | _ => None end) tr.

Definition standalone_texts (tr : list action) : list jsstring :=
  omap (λ a, match a with Request _ _ (KStandaloneCard t) => Some t | _ => None end) tr.

(** The suspended steps of [deliverStandalone] among the calls in
    flight. *)
Definition is_standalone_step (k : kont) : bool :=
  match k with
  | KStandaloneCard _ | KChunk _ => true
  | _ => false
  end.

Definition standalone_steps (c : config) : list kont :=
  List.filter is_standalone_step (map snd (calls c)).

(** Before [deliverStandalone] is entered nothing of it exists; after,
    it was entered once, with some text [t], and it stands at its card,
    at one of the chunks of [t] with the earlier ones sent and the
    later ones to go, or it is over with an initial segment of the
    chunks sent. *)
Definition fallback_inv (c : config) : Prop :=
  if standaloneDelivered (st c) then
    ∃ t, standalone_texts (trace c) = [t]
         ∧ match standalone_steps c with
           | [] => chunks_sent (trace c) `prefix_of` plainTextChunks t
           | [KStandaloneCard t'] => t' = t ∧ chunks_sent (trace c) = []
           | [KChunk rest] => chunks_sent (trace c) ++ rest = plainTextChunks t
           | _ => False
           end
  else standalone_texts (trace c) = [] ∧ chunks_sent (trace c) = []
       ∧ standalone_steps c = [].

(** Neither a plain message nor an entry into [deliverStandalone]. *)
Definition off_fallback (a : action) : bool :=
  match a with
  | Request _ (sendMessageFeishu _) _ | Request _ _ (KStandaloneCard _) => false
  | _ => true
  end.

Lemma chunks_sent_off tr l : forallb off_fallback l = true → chunks_sent (tr ++ l) = chunks_sent tr.
Proof.
  intros H. unfold chunks_sent. rewrite omap_app.
  induction l as [|a l IH]; simpl; [by rewrite app_nil_r|].
  simpl in H. apply andb_true_iff in H as [Ha Hl].
  destruct a as [? [] ?| | | | | |]; try done; by apply IH.
Qed.

Lemma standalone_texts_off tr l :
  forallb off_fallback l = true → standalone_texts (tr ++ l) = standalone_texts tr.
Proof.
  intros H. unfold standalone_texts. rewrite omap_app.
  induction l as [|a l IH]; simpl; [by rewrite app_nil_r|].
  simpl in H. apply andb_true_iff in H as [Ha Hl].
  destruct a as [? [] []| | | | | |]; try done; by apply IH.
Qed.

(** A step that leaves the flag, the suspended steps of
    [deliverStandalone] and its messages alone keeps the invariant. *)
Lemma fallback_inv_frame c c' l :
  standaloneDelivered (st c') = standaloneDelivered (st c) →
  standalone_steps c' = standalone_steps c →
  trace c' = trace c ++ l → forallb off_fallback l = true →
  fallback_inv c → fallback_inv c'.
Proof.
  intros Hd Hs Htr Hl. unfold fallback_inv.
  by rewrite Hd, Hs, Htr, chunks_sent_off, standalone_texts_off.
Qed.

Lemma standalone_steps_snoc c n k :
  List.filter is_standalone_step (map snd (calls c ++ [(n, k)]))
  = standalone_steps c ++ (if is_standalone_step k then [k] else []).
Proof. unfold standalone_steps. by rewrite map_app, List.filter_app. Qed.

Ltac fallback_frame l :=
  apply (fallback_inv_frame _ _ l); simpl; rewrite ?app_nil_r;
  [done|unfold standalone_steps; simpl; rewrite ?standalone_steps_snoc, ?app_nil_r; done
  |done|].

Lemma prim_fallback_inv x y : prim x y → fallback_inv x → fallback_inv y.
Proof.
  destruct 1 as [c Hp|c Hs|now c Hs Ht|t c Ht|text c Hb Hs|a c Ha|delay c Hs Hp
                 |h c Hp|h c Hin|p f c Hok Hp|f now c Hok Hc Hp|f now m c Hc Hm
                 |now m c Hc Hm Hb Hs|text c Hd Hb].
  - by fallback_frame (@nil action).
  - by fallback_frame (@nil action).
  - by fallback_frame (@nil action).
  - by fallback_frame (@nil action).
  - by fallback_frame (@nil action).
  - fallback_frame [a]. by destruct a.
  - by fallback_frame [SetTimeout (next c) delay].
  - by fallback_frame [ClearTimeout h].
  - by fallback_frame (@nil action).
  - by fallback_frame (@nil action).
  - by fallback_frame [Request (next c) (sendCardFeishu (buildCurrentCard f now (st c)))
                         KCreate].
  - by fallback_frame [Request (next c) (updateCardFeishu m (buildCurrentCard f now (st c)))
                         KUpdate].
  - by fallback_frame [Request (next c)
                         (updateCardFeishu m (buildFinalCard (accumulatedText (st c)) now (st c)))
                         (KFinalUpdate (accumulatedText (st c)))].
  - unfold fallback_inv, deliverStandalone, standalone_steps, standalone_texts,
      chunks_sent. simpl. rewrite Hd. intros (Ht & Hc & Hs).
    exists text. rewrite map_app, List.filter_app, !omap_app, Ht, Hc, Hs. simpl.
    by repeat split.
Qed.

Lemma tool_prim_fallback_inv x y : tool_prim x y → fallback_inv x → fallback_inv y.
Proof. destruct 1; by fallback_frame (@nil action). Qed.

Lemma patchCard_send_fallback_inv f now c :
  fallback_inv c → fallback_inv (patchCard_send f now c).
Proof.
  unfold patchCard_send. destruct (cardMessageId (st c)) as [[|ch r]|].
  - by fallback_frame [Request (next c) (sendCardFeishu (buildCurrentCard f now (st c)))
                         KCreate].
  - by fallback_frame [Request (next c)
                         (updateCardFeishu (ch :: r) (buildCurrentCard f now (st c))) KUpdate].
  - by fallback_frame [Request (next c) (sendCardFeishu (buildCurrentCard f now (st c)))
                         KCreate].
Qed.

Lemma patchCard_catch_fallback_inv c : fallback_inv c → fallback_inv (patchCard_catch c).
Proof.
  unfold patchCard_catch. simpl. destruct (truthy_str _); simpl.
  - by fallback_frame [LogLine "feishu: card patch failed"].
  - by fallback_frame [LogLine "feishu: card patch failed"].
Qed.

(** Entering [deliverStandalone]. *)
Lemma standalone_fallback_inv text c :
  standaloneDelivered (st c) = false →
  fallback_inv c →
  fallback_inv (deliverStandalone text (with_st (set_standaloneDelivered true) c)).
Proof.
  intros Hd. unfold fallback_inv, deliverStandalone, standalone_steps, standalone_texts,
    chunks_sent. simpl. rewrite Hd. intros (Ht & Hc & Hs).
  exists text. rewrite map_app, List.filter_app, !omap_app, Ht, Hc, Hs. simpl.
  by repeat split.
Qed.

(** The suspended steps among calls, and what settling [id] leaves of
    them. *)
Definition steps_of (l : list (nat * kont)) : list kont :=
  List.filter is_standalone_step (map snd l).

Definition without (id : nat) (l : list (nat * kont)) : list (nat * kont) :=
  List.filter (λ e : nat * kont, negb (Nat.eqb e.1 id)) l.

Lemma steps_of_without_nil id l : steps_of l = [] → steps_of (without id l) = [].
Proof.
  induction l as [|[n k] l IH]; simpl; [done|]. unfold steps_of in *. simpl.
  destruct (is_standalone_step k) eqn:Ek; [done|]. intros H.
  destruct (negb _); simpl; rewrite ?Ek; auto.
Qed.

Lemma steps_of_without id l :
  (length (steps_of l) ≤ 1)%nat →
  steps_of (without id l) = [] ∨ steps_of (without id l) = steps_of l.
Proof.
  induction l as [|[n k] l IH]; simpl; [by left|]. unfold steps_of in *. simpl.
  destruct (is_standalone_step k) eqn:Ek; simpl; intros Hlen.
  - assert (Hnil : List.filter is_standalone_step (map snd l) = []).
    { destruct (List.filter _ (map snd l)); [done|simpl in Hlen; lia]. }
    pose proof (steps_of_without_nil id l Hnil) as H0. unfold steps_of in H0.
    destruct (negb _); simpl; rewrite ?Ek, ?H0, ?Hnil; auto.
  - destruct (negb _); simpl; rewrite ?Ek; auto.
Qed.

Lemma steps_of_settled id k l :
  In (id, k) l → is_standalone_step k = true → (length (steps_of l) ≤ 1)%nat →
  steps_of l = [k] ∧ steps_of (without id l) = [].
Proof.
  induction l as [|[n k'] l IH]; simpl; [done|]. unfold steps_of in *. simpl.
  intros [[= -> ->]|Hin] Hk.
  - rewrite Hk. simpl. intros Hlen.
    assert (Hnil : List.filter is_standalone_step (map snd l) = []).
    { destruct (List.filter _ (map snd l)); [done|simpl in Hlen; lia]. }
    rewrite Nat.eqb_refl. simpl. rewrite Hnil. split; [done|].
    by apply (steps_of_without_nil id l).
  - destruct (is_standalone_step k') eqn:Ek'; simpl; intros Hlen.
    + exfalso.
      assert (Hk_in : In k (List.filter is_standalone_step (map snd l))).
      { apply List.filter_In. split; [|done]. apply in_map_iff. by exists (id, k). }
      destruct (List.filter _ (map snd l)); [done|simpl in Hlen; lia].
    + destruct (IH Hin Hk Hlen) as [H1 H2]. split; [done|].
      destruct (negb _); simpl; rewrite ?Ek'; done.
Qed.

Lemma fallback_steps_bound c : fallback_inv c → (length (standalone_steps c) ≤ 1)%nat.
Proof.
  unfold fallback_inv. destruct (standaloneDelivered (st c)).
  - intros (t & _ & H). destruct (standalone_steps c) as [|k [|k' l]]; simpl; try lia.
    by destruct k.
  - intros (_ & _ & ->). simpl. lia.
Qed.

(** A step of [deliverStandalone] that got lost leaves an initial
    segment sent. *)
Lemma fallback_inv_dropped c c' :
  standaloneDelivered (st c') = standaloneDelivered (st c) →
  trace c' = trace c → standalone_steps c' = [] →
  fallback_inv c → fallback_inv c'.
Proof.
  intros Hd Htr Hs. unfold fallback_inv. rewrite Hd, Htr, Hs.
  destruct (standaloneDelivered (st c)); [|by intros (? & ? & ?)].
  intros (t & Ht & H). exists t. split; [done|].
  destruct (standalone_steps c) as [|k [|k' l]]; try done.
  - destruct k; try done.
    + destruct H as [_ ->]. apply prefix_nil.
    + rewrite <- H. by apply prefix_app_r.
  - by destruct k.
Qed.

Lemma sendChunks_fallback_inv chunks sent t c :
  standaloneDelivered (st c) = true →
  standalone_texts (trace c) = [t] → standalone_steps c = [] →
  chunks_sent (trace c) = sent → sent ++ chunks = plainTextChunks t →
  fallback_inv (sendChunks chunks c).
Proof.
  intros Hd Ht Hs Hc Hall. destruct chunks as [|chunk rest]; simpl.
  - unfold fallback_inv. rewrite Hd, Hs. exists t. split; [done|].
    rewrite Hc, <- Hall. by rewrite app_nil_r.
  - unfold fallback_inv, standalone_steps, standalone_texts, chunks_sent in *. simpl.
    rewrite Hd. exists t. rewrite map_app, List.filter_app, !omap_app, Hs, Ht, Hc. simpl.
    split; [done|]. by rewrite <- app_assoc.
Qed.

Lemma settles_fallback_inv id o now c :
  fallback_inv c → fallback_inv (settles id o now c).
Proof.
  intros J. unfold settles.
  destruct (List.find _ _) as [[n k]|] eqn:Efind; [|done].
  apply find_some in Efind as [Hin Hn]. simpl in Hn. apply Nat.eqb_eq in Hn. subst n.
  set (c0 := mkConfig _ _ _ _ _ _).
  pose proof (fallback_steps_bound c J) as Hlen.
  assert (J0 : fallback_inv c0).
  { destruct (steps_of_without id (calls c) Hlen) as [H|H].
    - by apply (fallback_inv_dropped c).
    - by apply (fallback_inv_frame c _ []); try done; rewrite app_nil_r. }
  assert (Hstep : is_standalone_step k = true →
                  standaloneDelivered (st c) = true ∧ standalone_steps c = [k]
                  ∧ standalone_steps c0 = []).
  { intros Hk. destruct (steps_of_settled id k (calls c) Hin Hk Hlen) as [H1 H2].
    split; [|done]. revert J. unfold fallback_inv.
    destruct (standaloneDelivered (st c)); [done|]. intros (_ & _ & H).
    unfold standalone_steps in H. unfold steps_of in H1. congruence. }
  destruct k, o as [m|]; try done.
  - apply (wake_ind fallback_inv).
    + intros c' f. apply patchCard_send_fallback_inv.
    + intros c' f J'. revert J'. by fallback_frame [PatchRejected f].
    + revert J0. by fallback_frame (@nil action).
  - apply (wake_rejected_ind fallback_inv).
    + intros c' f J'. revert J'. by fallback_frame [PatchRejected f].
    + by apply patchCard_catch_fallback_inv.
  - by apply patchCard_catch_fallback_inv.
  - unfold standaloneOnce. destruct (standaloneDelivered (st c0)) eqn:Hd; [done|].
    by apply standalone_fallback_inv.
  - destruct (Hstep eq_refl) as (Hd & Hs & Hs0).
    revert J. unfold fallback_inv. rewrite Hd, Hs. intros (t & Ht & -> & Hc).
    by apply (sendChunks_fallback_inv _ [] t).
  - destruct (Hstep eq_refl) as (Hd & Hs & Hs0).
    revert J. unfold fallback_inv. rewrite Hd, Hs. intros (t & Ht & Hc).
    by apply (sendChunks_fallback_inv _ (chunks_sent (trace c)) t).
  - revert J0. by fallback_frame [DeliveryRejected].
Qed.

Lemma run_fallback_inv es : fallback_inv (run es initial).
Proof.
  apply (lift_prim_run (λ c c', fallback_inv c → fallback_inv c')).
  - done.
  - intros c1 c2 c3 H12 H23 H1. by apply H23, H12.
  - apply prim_fallback_inv.
  - apply tool_prim_fallback_inv.
  - apply settles_fallback_inv.
  - done.
Qed.

(** X12. The plain-text fallback sends the chunks of one text, in
    order.  In every run of a reply, [deliverStandalone] is entered
    for at most one text; no plain message is sent before that; and
    the plain messages sent are an initial segment, in order and
    without repetition, of the chunks that text is cut into. *)
Theorem plain_messages_are_chunks_in_order (es : list (event * Z)) :
  match standalone_texts (trace (run es initial)) with
  | [] => chunks_sent (trace (run es initial)) = []
  | [t] => chunks_sent (trace (run es initial)) `prefix_of` plainTextChunks t
  | _ => False
  end.
Proof.
  pose proof (run_fallback_inv es) as J. unfold fallback_inv in J.
  destruct (standaloneDelivered _).
  - destruct J as (t & -> & H).
    destruct (standalone_steps _) as [|k [|k' l]]; try done.
    + destruct k; try done.
      * destruct H as [_ ->]. apply prefix_nil.
      * rewrite <- H. by apply prefix_app_r.
    + by destruct k.
  - by destruct J as (-> & -> & _).
Qed.

End Dispatcher.

Arguments st {Args}.
Arguments calls {Args}.
Arguments timers {Args}.
Arguments trace {Args}.
Arguments thinkingText {Args}.
Arguments thinkingStopped {Args}.
Arguments streamingFailed {Args}.
Arguments accumulatedText {Args}.
Arguments cardMessageId {Args}.
Arguments with_st {Args}.
Arguments set_thinkingText {Args}.
Arguments Deliver {Args}.
Arguments OnIdle {Args}.
Arguments OnReasoningStream {Args}.
Arguments TimerFires {Args}.
Arguments Settles {Args}.
Arguments waiting {Args}.

(** *** Concrete runs

    A dispatcher whose tool calls carry no arguments, with the default
    configuration, a thinking section that shows the snapshot, a fixed
    summary, no table repair and one chunk per text. *)

Definition show_thinking (t : option jsstring) (active : list (jsstring * ToolEntry unit))
    (completed : list (CompletedToolEntry unit)) (maxLen : Z) : jsstring :=
  default [] t.

Definition show_summary (completed : list (CompletedToolEntry unit))
    (startedAt : option Z) (now : Z) : jsstring :=
  js "Thinking complete".

Definition demo_step : event unit → Z → config unit → config unit :=
  step unit None true show_thinking show_summary (λ t, t) (λ t, [t]).

Definition demo_run : list (event unit * Z) → config unit → config unit :=
  run unit None true show_thinking show_summary (λ t, t) (λ t, [t]).

(** A reasoning fragment arrived and the first card creation is in flight. *)
Definition creating : config unit :=
  demo_run [(OnReasoningStream (Some (js "A")), 1000)] (initial unit).

(** The creation succeeded: a card exists. *)
Definition with_card : config unit :=
  demo_run [(Settles 0 (Resolved (js "om_card")), 1100)] creating.

(** A first block of the answer arrived: thinking is stopped. *)
Definition answering : config unit :=
  demo_run [(Deliver (Some (js "partial")) (Some (js "block")), 1200)] with_card.

Definition table_text : jsstring :=
  js "| a | b |" ++ [LF] ++ js "|---|---|" ++ [LF] ++ js "| 1 |".

(** The creation is in flight, a second reasoning fragment has entered
    [patchCard] and waits for it, and a block of the answer has brought
    a table that is still growing. *)
Definition table_while_creating : config unit :=
  demo_run [(OnReasoningStream (Some (js "A")), 1000);
            (OnReasoningStream (Some (js "AB")), 1001);
            (Deliver (Some table_text) (Some (js "block")), 1002)] (initial unit).

Lemma creation_failure_witness :
  cardMessageId (st creating) = None
  ∧ List.find (λ e : nat * kont, Nat.eqb e.1 0) (calls creating) = Some (0%nat, KCreate)
  ∧ streamingFailed (st (demo_step (Settles 0 Threw) 1100 creating)) = true.
Proof.
  split; [reflexivity|]. split; [reflexivity|].
  exact (proj1 (creation_failure_is_fatal unit None true show_thinking show_summary
                  (λ t, t) (λ t, [t]) [(OnReasoningStream (Some (js "A")), 1000)]
                  0 1100 eq_refl eq_refl)).
Defined.

(** C4 as stated fails: thinking is stopped, and the late fragment still
    replaces the stored snapshot. *)
Lemma late_reasoning_changes_snapshot :
  thinkingStopped (st answering) = true
  ∧ thinkingText (st (demo_step (OnReasoningStream (Some (js "B"))) 1300 answering))
    ≠ thinkingText (st answering).
Proof. split; [reflexivity|]. vm_compute. discriminate. Qed.

Lemma late_reasoning_witness :
  thinkingStopped (st answering) = true
  ∧ demo_step (OnReasoningStream (Some (js "B"))) 1300 answering
    = with_st (set_thinkingText (Some (js "B"))) answering.
Proof.
  split; [reflexivity|].
  exact (late_reasoning_only_replaces_snapshot unit None true show_thinking show_summary
           (λ t, t) (λ t, [t]) 66%N [] 1300 answering eq_refl).
Defined.

(** C5, which the code does not meet.  A reasoning fragment has started
    the card creation; a second fragment enters [patchCard] while the
    creation is in flight ([lastPatchTime] is still 0) and suspends at
    [await cardCreationPromise], a non-final patch, the text still
    empty.  A block of the answer then brings an unfinished table: a
    header row, a separator row and a first row.  When the creation
    resolves, the suspended patch resumes past the table test and
    issues [updateCardFeishu] for a non-final card whose reply body is
    the table text followed by the streaming cursor: an intermediate
    patch, sent while the accumulated text holds a table and the reply
    is not final. *)
Lemma suspended_patch_sends_table :
  hasMarkdownTable (accumulatedText (st table_while_creating)) = true
  ∧ calls table_while_creating = [(0%nat, KCreate)]
  ∧ waiting table_while_creating = [(0%nat, false)]
  ∧ trace (demo_step (Settles 0 (Resolved (js "om_card"))) 1003 table_while_creating)
    = trace table_while_creating
      ++ [Request 1
            (updateCardFeishu (js "om_card")
               [CollapsiblePanel false (js "Thinking complete") (js "AB");
                Markdown (table_text ++ STREAMING_CURSOR)])
            KUpdate].
Proof. by vm_compute. Qed.

Lemma blank_delivery_witness :
  blank (js "  " ++ [LF]) = true
  ∧ demo_step (Deliver (Some (js "  " ++ [LF])) (Some (js "final"))) 1300 with_card
    = with_card.
Proof.
  split; [reflexivity|].
  exact (blank_delivery_discarded unit None true show_thinking show_summary
           (λ t, t) (λ t, [t]) (Some (js "  " ++ [LF])) (Some (js "final")) 1300
           with_card eq_refl).
Defined.

Definition final : option jsstring := Some (js "final").

(** C7 as stated fails twice.  A blank fragment between "X" and "Y" is
    dropped, so the accumulated text is not the join of all three; and
    on a reply without a card the two finals "X", "Y" send one standalone
    card whose body is "X", the second final sending nothing. *)
Lemma blank_fragment_and_standalone_body :
  accumulatedText
    (st (demo_run [(Deliver (Some (js "X")) final, 1);
                   (Deliver (Some (js " ")) final, 2);
                   (Deliver (Some (js "Y")) final, 3)] (initial unit)))
  ≠ joined [js "X"; js " "; js "Y"]
  ∧ trace (demo_run [(Deliver (Some (js "X")) final, 1);
                     (Deliver (Some (js "Y")) final, 2)] (initial unit))
    = [Request 0 (sendCardFeishu [Markdown (js "X")]) (KStandaloneCard (js "X"))].
Proof. split; [vm_compute; discriminate|reflexivity]. Qed.

Lemma accumulated_text_witness :
  accumulatedText (st with_card) = []
  ∧ accumulatedText
      (st (demo_step (Deliver (Some (js "Y")) final) 1300
             (demo_step (Deliver (Some (js "X")) final) 1200 with_card)))
    = js "X" ++ [LF] ++ js "Y".
Proof.
  split; [reflexivity|].
  exact (proj1 (proj2 (accumulated_text_is_join_of_kept_fragments unit None true
                         show_thinking show_summary (λ t, t) (λ t, [t])
                         [] with_card (js "X") (js "Y") 1200 1300
                         eq_refl eq_refl eq_refl eq_refl eq_refl))).
Defined.

Lemma finalize_witness :
  (standalone_starts
     (trace (doDeliverFinalReply unit show_thinking show_summary 1400%Z
               (demo_run [(OnIdle, 1350%Z)]
                  (doDeliverFinalReply unit show_thinking show_summary 1300%Z answering))))
   ≤ standalone_starts (trace answering) + 1)%nat.
Proof.
  exact (proj1 (finalize_delivers_once unit None true show_thinking show_summary
                  (λ t, t) (λ t, [t]) answering 1300 1400 [(OnIdle, 1350)] [])).
Defined.


(** The debounce of that run: 100 ms after the last patch the timer is
    armed for the remaining 400 ms. *)
Example debounce_delay :
  last (trace (demo_run [(OnReasoningStream (Some (js "AB")), 1200)] with_card))
  = Some (SetTimeout 1 400).
Proof. reflexivity. Qed.

(** *** Concrete runs for the further properties *)

Arguments OnAgentEvent {Args}.
Arguments outside_thinking_record {Args}.
Arguments completedTools {Args}.
Arguments activeTools {Args}.
Arguments map_get {Args}.
Arguments pendingPatchTimer {Args}.

(** A reply whose card exists, with a patch timer armed by a second
    reasoning fragment, then the first block of the answer. *)
Definition thinking_then_answer : list (event unit * Z) :=
  [(OnReasoningStream (Some (js "A")), 1000);
   (Settles 0 (Resolved (js "om_card")), 1100);
   (OnReasoningStream (Some (js "AB")), 1200);
   (Deliver (Some (js "partial")) (Some (js "block")), 1300)].

(** A tool event of the agent stream. *)
Definition tool_event (ph id nm : string) (err : bool) : AgentEvent unit :=
  {| stream := Some (js "tool"); phase := Some (js ph); toolCallId := Some (js id);
     toolName := Some (js nm); toolArgs := None; isError := err |}.

Lemma thinking_panel_witness :
  thinkingStopped (st answering) = true
  ∧ thinkingStopped
      (st (demo_run [(OnReasoningStream (Some (js "late")), 1400); (OnIdle, 1500)]
             answering)) = true.
Proof.
  split; [reflexivity|].
  exact (proj1 (thinking_panel_moves_forward unit None true show_thinking show_summary
                  (λ t, t) (λ t, [t])
                  [(OnReasoningStream (Some (js "late")), 1400); (OnIdle, 1500)]
                  answering) eq_refl).
Defined.

Lemma answer_ends_debounce_witness :
  thinkingStopped (st (demo_run thinking_then_answer (initial unit))) = true
  ∧ timers (demo_run thinking_then_answer (initial unit)) = []
  ∧ timers (demo_run [(OnReasoningStream (Some (js "ABC")), 1400)]
              (demo_run thinking_then_answer (initial unit))) = [].
Proof.
  split; [reflexivity|].
  pose proof (answer_ends_debounce unit None true show_thinking show_summary
                (λ t, t) (λ t, [t]) thinking_then_answer
                [(OnReasoningStream (Some (js "ABC")), 1400)] eq_refl) as H.
  exact (conj (proj1 (proj2 H)) (proj1 (proj2 (proj2 H)))).
Defined.

Lemma late_thinking_witness :
  thinkingStopped (st answering) = true
  ∧ outside_thinking_record
      (demo_run [(OnReasoningStream (Some (js "B")), 1300);
                 (OnAgentEvent (tool_event "start" "call_1" "Bash" false), 1400);
                 (OnAgentEvent (tool_event "result" "call_1" "Bash" false), 1500)]
         answering)
    = outside_thinking_record answering.
Proof.
  split; [reflexivity|].
  exact (late_thinking_only_records unit None true show_thinking show_summary
           (λ t, t) (λ t, [t])
           [(OnReasoningStream (Some (js "B")), 1300);
            (OnAgentEvent (tool_event "start" "call_1" "Bash" false), 1400);
            (OnAgentEvent (tool_event "result" "call_1" "Bash" false), 1500)]
           answering eq_refl eq_refl).
Defined.

Lemma tool_completion_witness :
  last (completedTools
          (st (demo_run ((OnAgentEvent (tool_event "start" "call_1" "Bash" false), 1000)
                         :: [(OnAgentEvent (tool_event "start" "call_2" "Read" false), 1100);
                             (OnReasoningStream (Some (js "A")), 1200)]
                         ++ [(OnAgentEvent (tool_event "result" "call_1" "Bash" true), 1300)])
                 (initial unit))))
  = Some {| entry := {| name := js "Bash"; args := None; startedAt := 1000 |};
            failed := true |}.
Proof.
  exact (proj1 (tool_completion_records_its_start unit None true show_thinking show_summary
                  (λ t, t) (λ t, [t]) (initial unit)
                  (tool_event "start" "call_1" "Bash" false)
                  (tool_event "result" "call_1" "Bash" true)
                  (js "call_1") 1000 1300
                  [(OnAgentEvent (tool_event "start" "call_2" "Read" false), 1100);
                   (OnReasoningStream (Some (js "A")), 1200)]
                  eq_refl eq_refl eq_refl eq_refl eq_refl eq_refl eq_refl eq_refl)).
Defined.

Lemma unknown_tool_result_witness :
  map_get (js "call_9") (activeTools (st with_card)) = None
  ∧ completedTools
      (st (demo_step (OnAgentEvent (tool_event "result" "call_9" "Bash" false)) 1200
             with_card))
    = completedTools (st with_card).
Proof.
  split; [reflexivity|].
  exact (proj2 (unknown_tool_result_is_ignored unit None true show_thinking show_summary
                  (λ t, t) (λ t, [t]) with_card
                  (tool_event "result" "call_9" "Bash" false) 1200 eq_refl eq_refl)).
Defined.

(** Creation, its success, then a patch well after the debounce
    interval. *)
Definition create_then_patch : list (event unit * Z) :=
  [(OnReasoningStream (Some (js "A")), 1000);
   (Settles 0 (Resolved (js "om_card")), 1100);
   (OnReasoningStream (Some (js "AB")), 2000)].

Lemma one_card_witness :
  ids_returned unit create_then_patch = true
  ∧ (length (creations (trace (demo_run create_then_patch (initial unit)))) ≤ 1)%nat.
Proof.
  split; [reflexivity|].
  exact (at_most_one_card_created unit None true show_thinking show_summary
           (λ t, t) (λ t, [t]) create_then_patch eq_refl).
Defined.

(** The run of [create_then_patch], written out. *)
Abbreviation patched :=
  (run unit None true show_thinking show_summary (λ t, t) (λ t, [t])
     create_then_patch (initial unit)).

Lemma update_target_witness :
  In (Request 1 (updateCardFeishu (js "om_card")
                   [CollapsiblePanel true THINKING (js "AB")]) KUpdate)
    (trace patched)
  ∧ cardMessageId (st patched) = Some (js "om_card").
Proof.
  assert (H : In (Request 1 (updateCardFeishu (js "om_card")
                               [CollapsiblePanel true THINKING (js "AB")]) KUpdate)
                (trace patched)).
  { vm_compute. right. left. reflexivity. }
  exact (conj H
           (proj1 (updates_target_the_created_card unit None true show_thinking
                     show_summary (λ t, t) (λ t, [t]) create_then_patch eq_refl
                     1%nat (js "om_card") [CollapsiblePanel true THINKING (js "AB")]
                     KUpdate H))).
Defined.

(** *** Table repair

    [repairMarkdownTables] is
    [text.replace(/(\|[^\n]*\|)\n\n(?=\|)/g, "$1\n")].  The pattern is
    a group of single-character items, two line feeds and a one
    character lookahead; matching backtracks into the repetition,
    longest first, as the regular expression engine does. *)

Inductive item :=
| One (a : N → bool)       (* a character of the class *)
| Many (a : N → bool).     (* any number of them, greedy *)

(** [exec_items r k n text] matches the items [r] at the head of
    [text], [n] characters having been consumed before, and hands what
    follows to [k]. *)
Fixpoint exec_items {A} (r : list item) (k : nat → jsstring → option A) :
    nat → jsstring → option A :=
  match r with
  | [] => k
  | One a :: r' =>
      λ n text,
        match text with
        | c :: rest => if a c then exec_items r' k (S n) rest else None
        | [] => None
        end
  | Many a :: r' =>
      fix many (n : nat) (text : jsstring) : option A :=
        match text with
        | c :: rest =>
            if a c then
              match many (S n) rest with
              | Some x => Some x
              | None => exec_items r' k n text
              end
            else exec_items r' k n text
        | [] => exec_items r' k n text
        end
  end.

Definition is_LF : N → bool := λ c, (c =? LF)%N.

(** [(\|[^\n]*\|)] *)
Definition row_group : list item := [One (chr "|"); Many (λ c, negb (is_LF c)); One (chr "|")].

(** A match of the whole pattern at the head of [text]: the end of the
    group and the end of the match. *)
Definition match_row_break (text : jsstring) : option (nat * nat) :=
  exec_items row_group
    (λ n1 rest1,
       exec_items [One is_LF; One is_LF]
         (λ n2 rest2,
            match rest2 with
            | c :: _ => if chr "|" c then Some (n1, n2) else None
            | [] => None
            end) n1 rest1)
    0%nat text.

(** [replace] with the [g] flag: the matches are looked for from left
    to right, each search starting where the last match ended; a match
    is replaced by its group and one line feed.  [skip] counts the
    characters of the last match still to pass. *)
Fixpoint replace_from (skip : nat) (text : jsstring) : jsstring :=
  match text with
  | [] => []
  | c :: rest =>
      match skip with
      | S k => replace_from k rest
      | O =>
          match match_row_break text with
          | Some (n1, n2) => take n1 text ++ [LF] ++ replace_from (n2 - 1) rest
          | None => c :: replace_from 0 rest
          end
      end
  end.

Definition repairMarkdownTables (text : jsstring) : jsstring := replace_from 0 text.

Example repair_two_rows :
  repairMarkdownTables (js "| a |" ++ [LF; LF] ++ js "| b |" ++ [LF; LF] ++ js "| c |")
  = js "| a |" ++ [LF] ++ js "| b |" ++ [LF] ++ js "| c |".
Proof. reflexivity. Qed.

Example repair_needs_a_row_after :
  repairMarkdownTables (js "| a |" ++ [LF; LF] ++ js "text") = js "| a |" ++ [LF; LF] ++ js "text".
Proof. reflexivity. Qed.

(** What a successful match has consumed. *)
Lemma exec_items_sound {A} (r : list item) (k : nat → jsstring → option A) n text x :
  exec_items r k n text = Some x →
  ∃ pre rest, text = pre ++ rest ∧ k (n + length pre)%nat rest = Some x.
Proof.
  revert n text. induction r as [|[a|a] r IH]; intros n text; simpl.
  - intros H. exists [], text. by rewrite Nat.add_0_r.
  - destruct text as [|c rest]; [done|]. destruct (a c); [|done].
    intros (pre & rest' & -> & Hk)%IH. exists (c :: pre), rest'. split; [done|].
    simpl. by rewrite <- Nat.add_succ_comm.
  - revert n. induction text as [|c rest IHt]; intros n.
    + apply IH.
    + destruct (a c); [|apply IH].
      destruct ((fix many (n0 : nat) (text : jsstring) {struct text} : option A :=
                   match text with
                   | [] => exec_items r k n0 text
                   | c0 :: rest0 =>
                       if a c0
                       then match many (S n0) rest0 with
                            | Some x0 => Some x0
                            | None => exec_items r k n0 text
                            end
                       else exec_items r k n0 text
                   end) (S n) rest) eqn:E.
      * intros [= ->]. apply IHt in E as (pre & rest' & -> & Hk).
        exists (c :: pre), rest'. split; [done|]. simpl. by rewrite <- Nat.add_succ_comm.
      * apply IH.
Qed.

(** A match is a group, two line feeds, and something after them. *)
Lemma match_row_break_sound text n1 n2 :
  match_row_break text = Some (n1, n2) →
  ∃ group rest, text = group ++ LF :: LF :: rest ∧ length group = n1 ∧ n2 = (n1 + 2)%nat
                ∧ rest ≠ [].
Proof.
  unfold match_row_break. intros (group & rest1 & -> & H)%exec_items_sound.
  simpl in H. destruct rest1 as [|c1 [|c2 rest]]; try done.
  - by destruct (is_LF c1).
  - destruct (is_LF c1) eqn:E1; [|done]. destruct (is_LF c2) eqn:E2; [|done].
    apply N.eqb_eq in E1, E2. subst c1 c2.
    destruct rest as [|c rest]; [done|]. destruct (chr "|" c); [|done].
    injection H as <- <-. exists group, (c :: rest). repeat split; try done; lia.
Qed.

Lemma replace_from_skip k text : replace_from k text = replace_from 0 (drop k text).
Proof.
  revert k. induction text as [|c rest IH]; intros [|k]; try done. simpl. by rewrite IH.
Qed.

(** The two cases of the replacement. *)
Lemma repair_cases text :
  (∃ group rest, text = group ++ LF :: LF :: rest ∧ rest ≠ []
                 ∧ repairMarkdownTables text = group ++ [LF] ++ repairMarkdownTables rest)
  ∨ match text with
    | [] => repairMarkdownTables text = []
    | c :: rest => repairMarkdownTables text = c :: repairMarkdownTables rest
    end.
Proof.
  unfold repairMarkdownTables. destruct text as [|c rest]; [by right|]. simpl.
  destruct (match_row_break (c :: rest)) as [[n1 n2]|] eqn:E; [|by right].
  left. apply match_row_break_sound in E as (group & rest' & Heq & Hlen & -> & Hne).
  exists group, rest'. split; [done|]. split; [done|].
  rewrite Heq, take_app_length' by done. do 2 f_equal.
  rewrite replace_from_skip. f_equal.
  assert (Hd : drop (S (S n1)) (c :: rest) = rest').
  { rewrite Heq. change (group ++ LF :: LF :: rest') with (group ++ [LF; LF] ++ rest').
    rewrite app_assoc. apply drop_app_length'. rewrite length_app. simpl. lia. }
  replace (n1 + 2 - 1)%nat with (S n1) by lia. exact Hd.
Qed.

Definition not_LF : N → bool := λ c, negb (is_LF c).

(** X13. Table repair only deletes line feeds.  Whatever the text,
    the repaired text has the same characters other than line feeds,
    in the same order, and is not longer: the repair never touches
    the content of a row or of the text around the table. *)
Theorem repair_only_drops_line_feeds (text : jsstring) :
  List.filter not_LF (repairMarkdownTables text) = List.filter not_LF text
  ∧ (length (repairMarkdownTables text) ≤ length text)%nat.
Proof.
  assert (Hle : (length text ≤ length text)%nat) by lia.
  revert Hle. generalize (length text) at 2. intros n.
  revert text. induction n as [|n IH]; intros text Hle.
  { destruct text; [done|simpl in Hle; lia]. }
  destruct (repair_cases text) as [(group & rest & -> & Hne & ->)|H].
  - rewrite length_app in Hle. simpl in Hle.
    assert (Hrest : (length rest ≤ n)%nat) by lia.
    destruct (IH rest Hrest) as [IH1 IH2].
    rewrite !List.filter_app. simpl. rewrite IH1. split; [done|].
    rewrite !length_app. simpl. unfold repairMarkdownTables in *. lia.
  - destruct text as [|c rest]; [by rewrite H|]. rewrite H. simpl in *.
    assert (Hrest : (length rest ≤ n)%nat) by lia.
    destruct (IH rest Hrest) as [IH1 IH2]. rewrite IH1. split; [done|].
    unfold repairMarkdownTables in *. lia.
Qed.

(** An empty line: two line feeds in a row. *)
Fixpoint has_blank_line (text : jsstring) : bool :=
  match text with
  | [] => false
  | a :: rest =>
      (is_LF a && match rest with b :: _ => is_LF b | [] => false end)
      || has_blank_line rest
  end.

Lemma has_blank_line_found group rest : has_blank_line (group ++ LF :: LF :: rest) = true.
Proof.
  induction group as [|g group IH]; [done|].
  simpl. rewrite IH. by rewrite orb_true_r.
Qed.

(** X14. Text without an empty line is left alone.  When no two line
    feeds follow each other, as in a table whose rows are already
    adjacent, the repaired text is the text itself. *)
Theorem repair_keeps_text_without_blank_line (text : jsstring) :
  has_blank_line text = false → repairMarkdownTables text = text.
Proof.
  induction text as [|c rest IH]; [done|]. intros Hb.
  destruct (repair_cases (c :: rest)) as [(group & rest' & Heq & _ & _)|H].
  - by rewrite Heq, has_blank_line_found in Hb.
  - rewrite H. f_equal. apply IH. simpl in Hb. by apply orb_false_iff in Hb as [_ ?].
Qed.

Lemma repair_unchanged_witness :
  has_blank_line (js "| a |" ++ [LF] ++ js "|---|" ++ [LF] ++ js "| 1 |") = false
  ∧ repairMarkdownTables (js "| a |" ++ [LF] ++ js "|---|" ++ [LF] ++ js "| 1 |")
    = js "| a |" ++ [LF] ++ js "|---|" ++ [LF] ++ js "| 1 |".
Proof.
  split; [reflexivity|].
  exact (repair_keeps_text_without_blank_line
           (js "| a |" ++ [LF] ++ js "|---|" ++ [LF] ++ js "| 1 |") eq_refl).
Defined.

(** *** The thinking section

    [buildThinkingSection] as written; [extractToolArgs], which looks
    into the arguments of a tool call, stays a parameter. *)

Section ThinkingSection.

Variable Args : Type.
Variable extractToolArgs : jsstring → option Args → Z → jsstring.

(** [slice(start)] of a string or an array. *)
Definition slice_from {A} (start : Z) (l : list A) : list A :=
  let len := Z.of_nat (length l) in
  let k := if start <? 0 then Z.max 0 (len + start) else Z.min start len in
  drop (Z.to_nat k) l.

(** [l.length > 0] *)
Definition has_elements {A} (l : list A) : bool :=
  match l with [] => false | _ :: _ => true end.

(** [parts.join("\n")] *)
Definition join_lines (parts : list jsstring) : jsstring :=
  match parts with
  | [] => []
  | p :: ps => p ++ concat (map (λ q, LF :: q) ps)
  end.

(** [trimmed.replace(/\n/g, "\n> ")] *)
Definition quote_lines (text : jsstring) : jsstring :=
  concat (map (λ c, if (c =? LF)%N then LF :: js "> " else [c]) text).

Definition tool_line (icon : jsstring) (t : ToolEntry Args) : jsstring :=
  let argStr := extractToolArgs (name Args t) (args Args t) 150 in
  if nonempty argStr
  then icon ++ js " `" ++ name Args t ++ js "` " ++ argStr
  else icon ++ js " `" ++ name Args t ++ js "`".

Definition CROSS : jsstring := [0x274C%N].
Definition CHECK : jsstring := [0x2705%N].
Definition HOURGLASS : jsstring := [0x23F3%N].

(** The [parts] array of [buildThinkingSection] when it is joined. *)
Definition thinking_parts (thinkingText : option jsstring)
    (activeTools : list (jsstring * ToolEntry Args))
    (completedTools : list (CompletedToolEntry Args)) (maxLen : Z) : list jsstring :=
  let thinking :=
    match thinkingText with
    | Some (c :: r) =>
        let text := c :: r in
        let trimmed :=
          if Z.of_nat (length text) >? maxLen
          then [0x2026%N] ++ slice_from (- maxLen) text
          else text in
        [BRAIN ++ js " **Thinking**"; js "> " ++ quote_lines trimmed]
    | _ => []
    end in
  let tools :=
    if has_elements completedTools || has_elements activeTools then
      (if has_elements thinking then [[]] else [])
      ++ map (λ t, tool_line (if failed Args t then CROSS else CHECK) (entry Args t))
           (slice_from (-10) completedTools)
      ++ map (λ kt : jsstring * ToolEntry Args, tool_line HOURGLASS kt.2) activeTools
    else [] in
  thinking ++ tools.

Definition buildThinkingSection (thinkingText : option jsstring)
    (activeTools : list (jsstring * ToolEntry Args))
    (completedTools : list (CompletedToolEntry Args)) (maxLen : Z) : jsstring :=
  join_lines (thinking_parts thinkingText activeTools completedTools maxLen).

Lemma slice_from_last {A} (start : Z) (l : list A) :
  start < 0 → l ≠ [] →
  slice_from start l ≠ []
  ∧ Z.of_nat (length (slice_from start l)) = Z.min (- start) (Z.of_nat (length l)).
Proof.
  intros Hn Hl. unfold slice_from.
  assert (Hlen : 0 < Z.of_nat (length l)) by (destruct l; [done|simpl; lia]).
  replace (start <? 0) with true by (symmetry; apply Z.ltb_lt; lia).
  assert (Hk : (Z.to_nat (Z.max 0 (Z.of_nat (length l) + start)) < length l)%nat) by lia.
  split.
  - intros H. apply (f_equal length) in H. rewrite length_drop in H. simpl in H. lia.
  - rewrite length_drop. lia.
Qed.

Lemma tool_line_nonempty icon t : icon ≠ [] → tool_line icon t ≠ [].
Proof. unfold tool_line. destruct icon; [done|]. by destruct (nonempty _). Qed.

Lemma join_lines_nil parts : join_lines parts = [] ↔ parts = [] ∨ parts = [[]].
Proof.
  split.
  - destruct parts as [|p [|q ps]]; simpl; auto.
    + rewrite app_nil_r. intros ->. by right.
    + intros H. apply app_eq_nil in H as [_ H]. done.
  - by intros [->| ->].
Qed.

Lemma tool_lines_head (completedTools : list (CompletedToolEntry Args))
    (activeTools : list (jsstring * ToolEntry Args)) :
  has_elements completedTools || has_elements activeTools = true →
  ∃ p ps,
    map (λ t, tool_line (if failed Args t then CROSS else CHECK) (entry Args t))
      (slice_from (-10) completedTools)
    ++ map (λ kt : jsstring * ToolEntry Args, tool_line HOURGLASS kt.2) activeTools
    = p :: ps ∧ p ≠ [].
Proof.
  intros H. destruct completedTools as [|d ds].
  - destruct activeTools as [|a rest]; [done|].
    replace (slice_from (-10) (@nil (CompletedToolEntry Args)))
      with (@nil (CompletedToolEntry Args)) by reflexivity.
    simpl. eexists _, _. split; [done|]. by apply tool_line_nonempty.
  - pose proof (slice_from_last (-10) (d :: ds)) as [Hne _]; [lia|done|].
    destruct (slice_from (-10) (d :: ds)) as [|x xs]; [by destruct Hne|]. simpl.
    eexists _, _. split; [done|]. apply tool_line_nonempty. by destruct (failed Args x).
Qed.

(** The section is empty exactly when there is nothing to show. *)
Lemma thinking_section_empty_iff (thinkingText : option jsstring)
    (activeTools : list (jsstring * ToolEntry Args))
    (completedTools : list (CompletedToolEntry Args)) (maxLen : Z) :
  buildThinkingSection thinkingText activeTools completedTools maxLen = []
  ↔ truthy_str thinkingText = false ∧ activeTools = [] ∧ completedTools = [].
Proof.
  unfold buildThinkingSection, thinking_parts.
  destruct (truthy_str thinkingText) eqn:Et.
  - destruct thinkingText as [[|c r]|]; try done.
    split; [|by intros [? _]]. simpl. intros H. discriminate H.
  - assert (Hno : match thinkingText with
                  | Some (c :: r) =>
                      [BRAIN ++ js " **Thinking**";
                       js "> " ++ quote_lines
                                    (if Z.of_nat (length (c :: r)) >? maxLen
                                     then [0x2026%N] ++ slice_from (- maxLen) (c :: r)
                                     else c :: r)]
                  | _ => []
                  end = []) by (by destruct thinkingText as [[|c r]|]).
    rewrite Hno. simpl.
    destruct (has_elements completedTools || has_elements activeTools) eqn:Eh.
    + destruct (tool_lines_head completedTools activeTools Eh) as (p & ps & -> & Hp).
      split.
      * simpl. intros [Hp' _]%app_eq_nil. done.
      * intros (_ & -> & ->). done.
    + apply orb_false_iff in Eh as [Hd Ha].
      destruct completedTools, activeTools; done.
Qed.

(** X16. When the thinking section is empty, and what it is made of.
    [buildThinkingSection] returns the empty string exactly when there
    is no reasoning text (absent or empty) and no tool call, active or
    completed.  What it returns is its [parts] array joined by line
    feeds, and that array has: two entries for the reasoning text when
    there is one (the heading and the quoted text, which runs over as
    many lines as the text has), then, when there are tool calls, an
    empty entry after the reasoning, one entry for each of the last ten
    completed calls at most, and one entry for every active call. *)
Theorem thinking_section_contents (thinkingText : option jsstring)
    (activeTools : list (jsstring * ToolEntry Args))
    (completedTools : list (CompletedToolEntry Args)) (maxLen : Z) :
  (buildThinkingSection thinkingText activeTools completedTools maxLen = []
   ↔ truthy_str thinkingText = false ∧ activeTools = [] ∧ completedTools = [])
  ∧ buildThinkingSection thinkingText activeTools completedTools maxLen
    = join_lines (thinking_parts thinkingText activeTools completedTools maxLen)
  ∧ Z.of_nat (length (thinking_parts thinkingText activeTools completedTools maxLen))
    = (if truthy_str thinkingText then 2 else 0)
      + (if has_elements completedTools || has_elements activeTools
         then (if truthy_str thinkingText then 1 else 0)
              + Z.min 10 (Z.of_nat (length completedTools))
              + Z.of_nat (length activeTools)
         else 0).
Proof.
  split; [apply thinking_section_empty_iff|]. split; [done|].
  unfold thinking_parts.
  assert (Hslice : Z.of_nat (length (slice_from (-10) completedTools))
                   = Z.min 10 (Z.of_nat (length completedTools))).
  { destruct completedTools as [|d ds]; [done|].
    by apply (slice_from_last (-10) (d :: ds)). }
  destruct thinkingText as [[|c r]|]; simpl;
    destruct (has_elements completedTools || has_elements activeTools); simpl;
    rewrite ?length_app, ?length_map; simpl; lia.
Qed.

End ThinkingSection.

(** *** The card of a patch, with the thinking section of the file *)

Definition shows_panel (c : card) : bool :=
  match c with
  | CollapsiblePanel _ _ _ :: _ => true
  | _ => false
  end.

(** X17. A patch shows the thinking panel exactly when there is
    something to show.  With [buildThinkingSection] as written (and
    any [extractToolArgs]), the card [buildCurrentCard] builds begins
    with the collapsible thinking panel if and only if a thinking
    update was seen ([hasThinkingContent]), a reasoning text is
    recorded, or a tool call is active or completed; otherwise the card
    is the reply text alone, or the placeholder when there is no text
    yet. *)
Theorem panel_shown_iff_thinking_to_show
    (Args : Type) (extractToolArgs : jsstring → option Args → Z → jsstring)
    (showCursor : bool)
    (buildThinkingCollapseSummary : list (CompletedToolEntry Args) → option Z → Z → jsstring)
    (repair : jsstring → jsstring) (isFinal : bool) (now : Z) (s : state Args) :
  let crd := buildCurrentCard Args showCursor (buildThinkingSection Args extractToolArgs)
               buildThinkingCollapseSummary repair isFinal now s in
  shows_panel crd
  = hasThinkingContent Args s || truthy_str (thinkingText s)
    || has_elements (activeTools s) || has_elements (completedTools s)
  ∧ (shows_panel crd = false →
     crd = [Markdown (if nonempty (accumulatedText s)
                      then or_else (repair (accumulatedText s)
                                    ++ (if isFinal || negb showCursor then []
                                        else STREAMING_CURSOR)) THINKING_BOLD
                      else THINKING_BOLD)]).
Proof.
  intros crd. subst crd. unfold buildCurrentCard.
  set (md := buildThinkingSection Args extractToolArgs (thinkingText s) (activeTools s)
               (completedTools s) 3000).
  assert (Hmd : nonempty md
                = truthy_str (thinkingText s) || has_elements (activeTools s)
                  || has_elements (completedTools s)).
  { pose proof (thinking_section_empty_iff Args extractToolArgs (thinkingText s)
                  (activeTools s) (completedTools s) 3000) as Hiff.
    fold md in Hiff. destruct md as [|c r] eqn:E.
    - destruct (proj1 Hiff eq_refl) as (-> & -> & ->). done.
    - simpl. symmetry. destruct (truthy_str (thinkingText s)) eqn:Et; [done|].
      destruct (activeTools s) eqn:Ea; [|done].
      destruct (completedTools s) eqn:Ec; [|done].
      exfalso. assert (H0 : c :: r = []) by (by apply Hiff). done. }
  replace (hasThinkingContent Args s || truthy_str (thinkingText s)
           || has_elements (activeTools s) || has_elements (completedTools s))
    with (hasThinkingContent Args s || nonempty md)
    by (rewrite Hmd; by rewrite !orb_assoc).
  unfold buildUnifiedCard.
  destruct (hasThinkingContent Args s || nonempty md) eqn:Eh; simpl.
  - assert (Hshown : ∃ c r, or_else md THINKING = c :: r).
    { unfold or_else. destruct md as [|c r]; simpl; by eexists _, _. }
    destruct Hshown as (c & r & ->). simpl. by split.
  - split.
    + destruct (nonempty (accumulatedText s)); simpl; [|done].
      by destruct (repair (accumulatedText s) ++ _).
    + intros _. unfold or_else.
      destruct (nonempty (accumulatedText s)); simpl; [|done].
      by destruct (repair (accumulatedText s) ++ _).
Qed.

(** A reply without a card whose standalone card is refused: the text
    goes out as plain messages. *)
Definition refused_standalone : list (event unit * Z) :=
  [(Deliver (Some (js "X")) final, 1000);
   (Settles 0 Threw, 1100);
   (Settles 1 (Resolved (js "om_text")), 1200)].

Lemma plain_messages_witness :
  chunks_sent
    (trace (run unit None true show_thinking show_summary (λ t, t) (λ t, [t])
              refused_standalone (initial unit)))
  `prefix_of` [js "X"].
Proof.
  exact (plain_messages_are_chunks_in_order unit None true show_thinking show_summary
           (λ t, t) (λ t, [t]) refused_standalone).
Defined.

Example plain_messages_sent :
  chunks_sent (trace (demo_run refused_standalone (initial unit))) = [js "X"].
Proof. reflexivity. Qed.

End ReplyDispatcher.

Module MonitorProps.
Import Monitor.

Lemma js_incr_ge n : n ≤ js_incr n.
Proof. unfold js_incr. destruct (n <? 2 ^ 53); lia. Qed.

Lemma js_incr_gt n : n < 2 ^ 53 → n < js_incr n.
Proof.
  intros H. unfold js_incr.
  destruct (Z.ltb_spec n (2 ^ 53)); lia.
Qed.

(** A force-stop forwards nothing to the agent boundary. *)
Lemma forceStop_forwards_nothing c :
  forwarded_any (forceStopWSClient c) = []
  ∧ ∀ m, forwarded m (forceStopWSClient c) = [].
Proof.
  split; [|intros m];
    unfold forceStopWSClient, clear_timer, stop_logged, forwarded, forwarded_any;
    by repeat (case_match; simpl).
Qed.

Lemma cleanup_frame c s :
  activeSessionId (cleanup c s).1 = activeSessionId s
  ∧ processedMessages (cleanup c s).1 = processedMessages s
  ∧ forwarded_any (cleanup c s).2 = [].
Proof.
  unfold cleanup. case_bool_decide; [|done]. simpl.
  by rewrite (proj1 (forceStop_forwards_nothing c)).
Qed.

Lemma forwarded_any_app e1 e2 :
  forwarded_any (e1 ++ e2) = forwarded_any e1 ++ forwarded_any e2.
Proof. apply omap_app. Qed.

Lemma forwarded_none m effs : forwarded_any effs = [] → forwarded m effs = [].
Proof. induction effs as [|[] effs IH]; simpl; intros H; try done; auto. Qed.

(** Starting a connection leaves the dedup cache alone and forwards
    nothing. *)
Lemma monitorWebSocket_frame c a t s :
  processedMessages (monitorWebSocket c a t s).1.1 = processedMessages s
  ∧ forwarded_any (monitorWebSocket c a t s).2 = [].
Proof.
  unfold monitorWebSocket.
  set (stopped := match currentWsClient s with Some old => _ | None => [] end).
  set (s1 := {| currentWsClient := Some c |}).
  assert (Hst : forwarded_any stopped = []).
  { subst stopped. destruct (currentWsClient s) as [old|]; [|done].
    simpl. apply forceStop_forwards_nothing. }
  destruct (cleanup_frame c s1) as (_ & Hp & Hf).
  destruct (cleanup c s1) as [s2 e]. simpl in Hp, Hf.
  destruct a; [|destruct t]; simpl;
    rewrite ?forwarded_any_app, ?Hst; simpl;
    rewrite ?forwarded_any_app, ?Hf; done.
Qed.

Lemma stopFeishuMonitor_frame s :
  processedMessages (stopFeishuMonitor s).1 = processedMessages s
  ∧ forwarded_any (stopFeishuMonitor s).2 = [].
Proof.
  unfold stopFeishuMonitor. destruct (currentWsClient s) as [c|]; [|done].
  simpl. split; [done|]. apply forceStop_forwards_nothing.
Qed.

Lemma handleAbort_frame c s :
  processedMessages (handleAbort c s).1 = processedMessages s
  ∧ forwarded_any (handleAbort c s).2 = [].
Proof.
  unfold handleAbort. destruct (cleanup_frame c s) as (_ & Hp & Hf).
  by destruct (cleanup c s) as [s1 e].
Qed.

(** *** The session generation only grows *)

Lemma step_session_mono e s : activeSessionId s ≤ activeSessionId (step e s).1.
Proof.
  destruct e as [c a t|c| |sid ev now]; simpl.
  - unfold monitorWebSocket.
    pose proof (js_incr_ge (activeSessionId s)).
    destruct a; [|destruct t]; simpl;
      try (unfold cleanup; case_bool_decide; simpl; lia).
    lia.
  - unfold handleAbort, cleanup. case_bool_decide; simpl; lia.
  - unfold stopFeishuMonitor.
    pose proof (js_incr_ge (activeSessionId s)).
    destruct (currentWsClient s); simpl; lia.
  - unfold on_message_receive.
    case_bool_decide; [simpl; lia|].
    destruct (message_id ev) as [[|c r]|]; simpl; try lia.
    case_bool_decide; simpl; lia.
Qed.

Lemma run_session_mono es s : activeSessionId s ≤ activeSessionId (run es s).1.
Proof.
  revert s. induction es as [|e es IH]; intros s; simpl; [lia|].
  pose proof (step_session_mono e s) as H1.
  destruct (step e s) as [s1 eff1] eqn:E1. simpl in H1.
  specialize (IH s1). destruct (run es s1) as [s2 eff2]. simpl in *. lia.
Qed.

Lemma start_retires c a t s :
  activeSessionId s < 2 ^ 53 →
  activeSessionId s < activeSessionId (step (Start c a t) s).1.
Proof.
  intros H. apply js_incr_gt in H. simpl. unfold monitorWebSocket.
  destruct a; [|destruct t]; simpl;
    try (unfold cleanup; case_bool_decide; simpl; lia).
  lia.
Qed.

Lemma stop_retires s :
  activeSessionId s < 2 ^ 53 →
  activeSessionId s < activeSessionId (step Stop s).1.
Proof.
  intros H. apply js_incr_gt in H. simpl. unfold stopFeishuMonitor.
  destruct (currentWsClient s); simpl; lia.
Qed.

Lemma stale_handler_noop my ev now s :
  my ≠ activeSessionId s → on_message_receive my ev now s = (s, []).
Proof. intros H. unfold on_message_receive. by rewrite bool_decide_eq_true_2. Qed.

(** C3. Once the generation counter has advanced past the generation
    [my] captured by a connection, the [im.message.receive_v1] handler of
    that connection is a no-op for good: whatever happens afterwards
    (further starts, stops, aborts, deliveries on any connection), an
    invocation returns the module state as it found it, dedup cache
    included, and forwards nothing to the agent boundary. *)
Theorem retired_handler_permanent_noop
    (s : state) (my : Z) (es : list event) (ev : FeishuMessageEvent) (now : Z) :
  my < activeSessionId s →
  on_message_receive my ev now (run es s).1 = ((run es s).1, []).
Proof.
  intros Hadv. apply stale_handler_noop.
  pose proof (run_session_mono es s). lia.
Qed.

(** *** The dedup cache *)

Lemma prune_lookup_Some (now : Z) (pm : gmap jsstring Z) (k : jsstring) (ts : Z) :
  pruneProcessedMessages now pm !! k = Some ts
  ↔ pm !! k = Some ts ∧ ¬ (now - ts > DEDUP_TTL_MS).
Proof. unfold pruneProcessedMessages. by rewrite map_lookup_filter_Some. Qed.

Lemma prune_lookup_None (now : Z) (pm : gmap jsstring Z) (k : jsstring) (ts : Z) :
  pm !! k = Some ts → now - ts > DEDUP_TTL_MS →
  pruneProcessedMessages now pm !! k = None.
Proof.
  intros Hk Hold. destruct (pruneProcessedMessages now pm !! k) as [ts'|] eqn:E; [|done].
  apply prune_lookup_Some in E as [E1 E2]. congruence.
Qed.

(** The map an accepted delivery of [m] at [now] leaves behind. *)
Definition after_insert (m : jsstring) (now : Z) (pm : gmap jsstring Z) : gmap jsstring Z :=
  if bool_decide (200 < size (<[m := now]> pm))%nat
  then pruneProcessedMessages now (<[m := now]> pm)
  else <[m := now]> pm.

Lemma receive_fresh sid ev now m s :
  sid = activeSessionId s → message_id ev = Some m → m ≠ [] →
  processedMessages s !! m = None →
  on_message_receive sid ev now s =
    ({| currentWsClient := currentWsClient s;
        activeSessionId := activeSessionId s;
        processedMessages := after_insert m now (processedMessages s) |},
     [HandleFeishuMessage ev]).
Proof.
  intros -> Hid Hne Hfresh. unfold on_message_receive, after_insert.
  rewrite bool_decide_eq_false_2 by (intros H; by apply H).
  rewrite Hid. destruct m as [|c r]; [done|].
  rewrite bool_decide_eq_false_2; [done|].
  rewrite Hfresh. by intros [? ?].
Qed.

Lemma receive_seen sid ev now m ts s :
  message_id ev = Some m → m ≠ [] → processedMessages s !! m = Some ts →
  (on_message_receive sid ev now s).1 = s
  ∧ forwarded_any (on_message_receive sid ev now s).2 = [].
Proof.
  intros Hid Hne Hseen. unfold on_message_receive.
  case_bool_decide; [done|].
  rewrite Hid. destruct m as [|c r]; [done|].
  by rewrite bool_decide_eq_true_2 by (rewrite Hseen; eauto).
Qed.

Lemma after_insert_keeps (m k : jsstring) (now t0 : Z) (pm : gmap jsstring Z) :
  k ≠ m → pm !! m = Some t0 → now - t0 ≤ DEDUP_TTL_MS →
  after_insert k now pm !! m = Some t0.
Proof.
  intros Hne Hm Hin. unfold after_insert. case_bool_decide.
  - apply prune_lookup_Some. rewrite lookup_insert_ne by done. split; [done|lia].
  - by rewrite lookup_insert_ne.
Qed.

Lemma after_insert_self (m : jsstring) (now : Z) (pm : gmap jsstring Z) :
  after_insert m now pm !! m = Some now.
Proof.
  unfold after_insert. case_bool_decide.
  - apply prune_lookup_Some. rewrite lookup_insert_eq.
    split; [done|]. unfold DEDUP_TTL_MS. lia.
  - by rewrite lookup_insert_eq.
Qed.

(** A recorded identifier stays recorded, and is not forwarded again,
    through any segment whose clock reading is within the TTL. *)
Lemma step_keeps_entry (m : jsstring) (t0 : Z) e s :
  m ≠ [] → processedMessages s !! m = Some t0 →
  (∀ sid ev now, e = Receive sid ev now → now - t0 ≤ DEDUP_TTL_MS) →
  processedMessages (step e s).1 !! m = Some t0
  ∧ forwarded m (step e s).2 = [].
Proof.
  intros Hne Hm Hin.
  destruct e as [c a t|c| |sid ev now]; simpl.
  - destruct (monitorWebSocket_frame c a t s) as [Hp Hf].
    destruct (monitorWebSocket c a t s) as [[s1 my] eff]. simpl in *.
    rewrite Hp. by split; [|apply forwarded_none].
  - destruct (handleAbort_frame c s) as [Hp Hf].
    rewrite Hp. by split; [|apply forwarded_none].
  - destruct (stopFeishuMonitor_frame s) as [Hp Hf].
    rewrite Hp. by split; [|apply forwarded_none].
  - specialize (Hin sid ev now eq_refl).
    unfold on_message_receive. case_bool_decide; [done|].
    destruct (message_id ev) as [[|c r]|] eqn:Hid; simpl.
    + rewrite Hid. rewrite bool_decide_eq_false_2; [done|congruence].
    + case_bool_decide as Hseen; simpl; [done|].
      rewrite Hid. split.
      * apply after_insert_keeps; [|done..].
        intros Heq. subst m. apply Hseen. rewrite Hm. eauto.
      * rewrite bool_decide_eq_false_2; [done|].
        intros [= Heq]. subst m. apply Hseen. rewrite Hm. eauto.
    + rewrite Hid. by rewrite bool_decide_eq_false_2.
Qed.

Lemma run_keeps_entry (m : jsstring) (t0 : Z) es s :
  m ≠ [] → processedMessages s !! m = Some t0 →
  Forall (λ e, ∀ sid ev now, e = Receive sid ev now → now - t0 ≤ DEDUP_TTL_MS) es →
  processedMessages (run es s).1 !! m = Some t0
  ∧ forwarded m (run es s).2 = [].
Proof.
  intros Hne. revert s. induction es as [|e es IH]; intros s Hm Hall; [done|].
  apply Forall_cons in Hall as [He Hall]. simpl.
  destruct (step_keeps_entry m t0 e s Hne Hm He) as [Hm1 Hf1].
  destruct (step e s) as [s1 eff1]. simpl in *.
  destruct (IH s1 Hm1 Hall) as [Hm2 Hf2].
  destruct (run es s1) as [s2 eff2]. simpl in *.
  split; [done|]. unfold forwarded in *. by rewrite omap_app, Hf1, Hf2.
Qed.

(** C1. An event bearing the identifier [m] (present and non-empty, the
    handler's own test) is delivered to the live connection while [m] is
    not in the cache, and an event with the same [m] is delivered again,
    to any connection, within the 60-minute TTL, whatever happens in
    between.  Then the first delivery records [m] and forwards its event
    in the same synchronous segment, the second delivery changes nothing
    and forwards nothing, and over the whole run exactly one event
    carrying [m] reaches [handleFeishuMessage]. *)
Theorem duplicate_delivery_forwarded_once
    (s : state) (sid sid2 : Z) (ev1 ev2 : FeishuMessageEvent) (m : jsstring)
    (now1 now2 : Z) (mid : list event) :
  message_id ev1 = Some m → message_id ev2 = Some m → m ≠ [] →
  sid = activeSessionId s → processedMessages s !! m = None →
  now2 - now1 ≤ DEDUP_TTL_MS → Forall (no_later_than now2) mid →
  let r1 := on_message_receive sid ev1 now1 s in
  let r2 := run mid r1.1 in
  let r3 := on_message_receive sid2 ev2 now2 r2.1 in
  processedMessages r1.1 !! m = Some now1
  ∧ r1.2 = [HandleFeishuMessage ev1]
  ∧ r3.1 = r2.1
  ∧ forwarded_any r3.2 = []
  ∧ forwarded m (r1.2 ++ r2.2 ++ r3.2) = [ev1].
Proof.
  intros Hid1 Hid2 Hne Hlive Hfresh Hwin Hmid r1 r2 r3.
  assert (Hr1 : processedMessages r1.1 !! m = Some now1
                ∧ r1.2 = [HandleFeishuMessage ev1]).
  { subst r1. rewrite (receive_fresh sid ev1 now1 m s) by done.
    simpl. split; [apply after_insert_self|done]. }
  destruct Hr1 as [Hrec Hfw1].
  assert (Hfwany : ∀ effs, forwarded_any effs = [] → forwarded m effs = []).
  { induction effs as [|[] effs IH]; simpl; intros H; try done; auto. }
  destruct (run_keeps_entry m now1 mid r1.1 Hne Hrec) as [Hkept Hfw2].
  { eapply Forall_impl; [exact Hmid|].
    intros e He ? ? ? ->. simpl in He. lia. }
  fold r2 in Hkept, Hfw2.
  destruct (receive_seen sid2 ev2 now2 m now1 r2.1 Hid2 Hne Hkept) as [Hst3 Hfw3].
  fold r3 in Hst3, Hfw3.
  repeat split; try done.
  unfold forwarded in *. rewrite !omap_app, Hfw2.
  rewrite (Hfwany _ Hfw3), Hfw1. simpl.
  by rewrite bool_decide_eq_true_2.
Qed.

(** A segment that is not an accepted insertion leaves the cache as it is. *)
Lemma step_cache_frame e s :
  (∀ sid ev now m, e = Receive sid ev now → sid = activeSessionId s →
     message_id ev = Some m → m ≠ [] → is_Some (processedMessages s !! m)) →
  processedMessages (step e s).1 = processedMessages s.
Proof.
  intros Hnot. destruct e as [c a t|c| |sid ev now]; simpl.
  - unfold monitorWebSocket, cleanup.
    destruct a; [|destruct t]; simpl; repeat case_bool_decide; done.
  - unfold handleAbort, cleanup. case_bool_decide; done.
  - unfold stopFeishuMonitor. destruct (currentWsClient s); done.
  - unfold on_message_receive. case_bool_decide as Hsid; [done|].
    destruct (message_id ev) as [[|c r]|] eqn:Hid; try done.
    rewrite bool_decide_eq_true_2; [done|].
    eapply (Hnot sid ev now); try done.
Qed.

(** C9. Pruning is lazy.  Take an accepted insertion: an event with the
    fresh identifier [m] delivered to the live connection at [now].
    - If the insertion brings the map above 200 entries, what remains is
      exactly the inserted map without the entries older than the TTL
      ([now - ts > 3 600 000]); otherwise the inserted map is kept whole.
    - Any other segment (start, stop, abort, a stale, identifier-less or
      duplicate delivery) leaves the map untouched.
    - Consequently an identifier [k] seen more than a TTL ago is gone
      after an insertion that exceeded the threshold, and its next
      delivery is forwarded again. *)
Theorem lazy_pruning
    (s : state) (sid : Z) (ev : FeishuMessageEvent) (m : jsstring) (now : Z) :
  sid = activeSessionId s → message_id ev = Some m → m ≠ [] →
  processedMessages s !! m = None →
  let ins : gmap jsstring Z := <[m := now]> (processedMessages s) in
  let s1 := (on_message_receive sid ev now s).1 in
  ((200 < size ins)%nat →
     ∀ (k : jsstring) (ts : Z),
       processedMessages s1 !! k = Some ts
       ↔ ins !! k = Some ts ∧ ¬ (now - ts > DEDUP_TTL_MS))
  ∧ ((size ins ≤ 200)%nat → processedMessages s1 = ins)
  ∧ (∀ e : event,
       (∀ sid' ev' now' m', e = Receive sid' ev' now' → sid' = activeSessionId s →
          message_id ev' = Some m' → m' ≠ [] → is_Some (processedMessages s !! m')) →
       processedMessages (step e s).1 = processedMessages s)
  ∧ (∀ (k : jsstring) (ts : Z) (ev' : FeishuMessageEvent) (now' : Z),
       (200 < size ins)%nat →
       processedMessages s !! k = Some ts → now - ts > DEDUP_TTL_MS →
       message_id ev' = Some k → k ≠ [] →
       processedMessages s1 !! k = None
       ∧ (on_message_receive sid ev' now' s1).2 = [HandleFeishuMessage ev']).
Proof.
  intros Hlive Hid Hne Hfresh ins s1.
  assert (Hs1 : s1 = {| currentWsClient := currentWsClient s;
                        activeSessionId := activeSessionId s;
                        processedMessages := after_insert m now (processedMessages s) |}).
  { subst s1. by rewrite (receive_fresh sid ev now m s). }
  assert (Hbig : (200 < size ins)%nat →
                 processedMessages s1 = pruneProcessedMessages now ins).
  { intros Hsz. rewrite Hs1. simpl. unfold after_insert.
    by rewrite bool_decide_eq_true_2. }
  split; [|split; [|split]].
  - intros Hsz k ts. rewrite (Hbig Hsz). apply prune_lookup_Some.
  - intros Hsz. rewrite Hs1. simpl. unfold after_insert.
    rewrite bool_decide_eq_false_2; [done|]. fold ins. lia.
  - intros e. apply step_cache_frame.
  - intros k ts ev' now' Hsz Hk Hold Hid' Hne'.
    assert (Hgone : processedMessages s1 !! k = None).
    { rewrite (Hbig Hsz). apply (prune_lookup_None now ins k ts); [|done].
      subst ins. rewrite lookup_insert_ne; [done|]. congruence. }
    split; [done|].
    rewrite (receive_fresh sid ev' now' k s1); [done| |done..].
    rewrite Hs1. simpl. done.
Qed.

(** *** Concrete runs *)

Definition ev_a1 : FeishuMessageEvent :=
  {| message_id := Some (js "om_a"); content := js "first copy" |}.
Definition ev_a2 : FeishuMessageEvent :=
  {| message_id := Some (js "om_a"); content := js "second copy" |}.
Definition ev_b : FeishuMessageEvent :=
  {| message_id := Some (js "om_b"); content := js "other" |}.

(** A client object as it is once connected: the ping timer armed, and a
    socket that can be terminated. *)
Definition connected (h : nat) : WSClient :=
  {| handle := h; pingInterval := Some h; reconnectInterval := None;
     wsConfig :=
       Some {| getWSInstance :=
                 Some (Gives (Some {| terminate := Some Returns;
                                      close := Some Returns |})) |} |}.

(** One connection started: generation 1 is live. *)
Definition one_started : state := (step (Start (connected 0) false false) initial).1.

(** A cache of 200 identifiers, all first seen at time 0. *)
Definition full_cache : gmap jsstring Z :=
  list_to_map (map (λ i : nat, (js "old_" ++ [N.of_nat i], 0)) (seq 0 200)).

Definition full_state : state :=
  {| currentWsClient := Some (connected 0); activeSessionId := 1;
     processedMessages := full_cache |}.

Lemma duplicate_delivery_witness :
  processedMessages one_started !! js "om_a" = None
  ∧ forwarded (js "om_a")
      ((on_message_receive 1 ev_a1 1000 one_started).2
       ++ (run [Receive 1 ev_b 2000; Stop; Start (connected 1) false false]
             (on_message_receive 1 ev_a1 1000 one_started).1).2
       ++ (on_message_receive 2 ev_a2 3000
             (run [Receive 1 ev_b 2000; Stop; Start (connected 1) false false]
                (on_message_receive 1 ev_a1 1000 one_started).1).1).2)
      = [ev_a1].
Proof.
  split; [by vm_compute|].
  apply (duplicate_delivery_forwarded_once one_started 1 2 ev_a1 ev_a2 (js "om_a")
           1000 3000 [Receive 1 ev_b 2000; Stop; Start (connected 1) false false]).
  - reflexivity.
  - reflexivity.
  - discriminate.
  - reflexivity.
  - by vm_compute.
  - by vm_compute.
  - repeat constructor; simpl; lia.
Defined.

Lemma retired_handler_witness :
  1 < activeSessionId (step (Start (connected 1) false false) one_started).1
  ∧ on_message_receive 1 ev_a1 5
      (run [Receive 2 ev_b 3; Stop] (step (Start (connected 1) false false) one_started).1).1
    = ((run [Receive 2 ev_b 3; Stop] (step (Start (connected 1) false false) one_started).1).1, []).
Proof.
  split; [by vm_compute|].
  apply (retired_handler_permanent_noop
           (step (Start (connected 1) false false) one_started).1 1 [Receive 2 ev_b 3; Stop] ev_a1 5).
  by vm_compute.
Defined.

Lemma lazy_pruning_witness :
  processedMessages full_state !! js "om_a" = None
  ∧ processedMessages full_state !! (js "old_" ++ [7%N]) = Some 0
  ∧ processedMessages (on_message_receive 1 ev_a1 3600001 full_state).1
      !! (js "old_" ++ [7%N]) = None.
Proof.
  split; [by vm_compute|]. split; [by vm_compute|].
  refine (proj1 (proj2 (proj2 (proj2
    (lazy_pruning full_state 1 ev_a1 (js "om_a") 3600001 _ _ _ _)))
      (js "old_" ++ [7%N]) 0 {| message_id := Some (js "old_" ++ [7%N]); content := [] |} 0
      _ _ _ _ _)).
  - reflexivity.
  - reflexivity.
  - discriminate.
  - by vm_compute.
  - vm_compute. lia.
  - by vm_compute.
  - by vm_compute.
  - reflexivity.
  - discriminate.
Defined.

End MonitorProps.

(** ** monitor.ts: further properties *)

Module MonitorInvariants.
Import Monitor.

(** X9. Events without a usable identifier are never deduplicated.  On
    the live connection, any sequence of message events whose
    [message_id] is absent or empty is forwarded to the agent boundary
    one by one, in order, however often the same event recurs, and
    the module state (dedup cache included) is left as it was. *)
Theorem unidentified_events_bypass_dedup
    (s : state) (evs : list (FeishuMessageEvent * Z)) :
  forallb (λ en : FeishuMessageEvent * Z, negb (truthy_str (message_id en.1))) evs = true →
  run (map (λ en : FeishuMessageEvent * Z, Receive (activeSessionId s) en.1 en.2) evs) s
  = (s, map (λ en : FeishuMessageEvent * Z, HandleFeishuMessage en.1) evs).
Proof.
  induction evs as [|[ev now] evs IH]; simpl; [done|].
  intros [Hev Hevs]%andb_true_iff.
  assert (Hfwd : on_message_receive (activeSessionId s) ev now s
                 = (s, [HandleFeishuMessage ev])).
  { unfold on_message_receive. rewrite bool_decide_eq_false_2 by (by intros []).
    by destruct (message_id ev) as [[|ch r]|]. }
  by rewrite Hfwd, (IH Hevs).
Qed.

(** The clients running after a sequence of effects.  A client counts
    as running from [wsClient.start] until a [terminate] or [close] call
    on its socket returns. *)
Definition track (live : list nat) (e : effect) : list nat :=
  match e with
  | WsStart c => c :: live
  | Terminate c Returns | Close c Returns =>
      List.filter (λ x, negb (Nat.eqb x c)) live
  | _ => live
  end.

Definition running (effs : list effect) : list nat := fold_left track effs [].

(** A force-stop of [c] gets as far as a [terminate] or [close] call
    that returns. *)
Definition stops (c : WSClient) : bool :=
  existsb (λ e, match e with
                | Terminate _ Returns | Close _ Returns => true
                | _ => false
                end)
    (forceStopWSClient c).

(** The client object an event brings along can be stopped. *)
Definition stoppable (e : event) : bool :=
  match e with
  | Start c _ _ | Abort c => stops c
  | _ => true
  end.

(** Without a socket to terminate a force-stop still returns, with its
    log line, and the client is left running. *)
Definition never_connected (h : nat) : WSClient :=
  {| handle := h; pingInterval := None; reconnectInterval := None;
     wsConfig := Some {| getWSInstance := Some (Gives None) |} |}.

Example stop_is_best_effort :
  run [Start (never_connected 1) false false; Stop] initial
  = ({| currentWsClient := None; activeSessionId := 2; processedMessages := ∅ |},
     [Log "feishu: starting WebSocket connection...";
      WsStart 1; Log "feishu: WebSocket client started";
      UpdateWs 1; Log "feishu: previous WSClient force-stopped"])
  ∧ running (run [Start (never_connected 1) false false; Stop] initial).2 = [1%nat].
Proof. split; reflexivity. Qed.

Lemma forceStop_track c live :
  stops c = true →
  fold_left track (forceStopWSClient c) live
  = List.filter (λ x, negb (Nat.eqb x (handle c))) live.
Proof.
  destruct c as [h p r cfg].
  unfold stops, forceStopWSClient, clear_timer, stop_logged. simpl.
  repeat (case_match; simpl; try done).
Qed.

(** Nothing runs, or one client does and [currentWsClient] holds it; and
    the client held can be stopped. *)
Definition only_current (s : state) (live : list nat) : Prop :=
  (live = [] ∨ ∃ c, live = [handle c] ∧ currentWsClient s = Some c)
  ∧ (∀ c, currentWsClient s = Some c → stops c = true).

Lemma stop_current c s live :
  only_current s live → handle <$> currentWsClient s = Some (handle c) →
  List.filter (λ x, negb (Nat.eqb x (handle c))) live = [].
Proof.
  intros [[->|(c' & -> & Hc')] _] Hc; [done|]. simpl.
  rewrite Hc' in Hc. simpl in Hc. injection Hc as ->. by rewrite Nat.eqb_refl.
Qed.

Lemma nothing_current s live :
  only_current s live → currentWsClient s = None → live = [].
Proof. intros [[->|(c' & _ & Hc')] _] Hc; [done|congruence]. Qed.

Lemma cleanup_only_current c s live :
  stops c = true → only_current s live →
  only_current (cleanup c s).1 (fold_left track (cleanup c s).2 live).
Proof.
  intros Hc H. unfold cleanup. case_bool_decide as E; simpl; [|done].
  rewrite (forceStop_track c live Hc), (stop_current c s live H E).
  split; [by left|done].
Qed.

Lemma step_only_current e s live :
  stoppable e = true → only_current s live →
  only_current (step e s).1 (fold_left track (step e s).2 live).
Proof.
  intros He H. destruct e as [c a t| c| |sid ev now]; simpl in He |- *.
  - unfold monitorWebSocket.
    set (stopped := match currentWsClient s with Some old => _ | None => [] end).
    set (s1 := {| currentWsClient := Some c |}).
    assert (Hnone : fold_left track stopped live = []).
    { subst stopped. destruct (currentWsClient s) as [old|] eqn:E; simpl.
      - rewrite (forceStop_track old live) by (by apply H).
        apply (stop_current old s live H). by rewrite E.
      - by apply (nothing_current s). }
    assert (Hclean : (cleanup c s1).2 = forceStopWSClient c
                     ∧ currentWsClient (cleanup c s1).1 = None).
    { unfold cleanup. by rewrite bool_decide_eq_true_2. }
    destruct Hclean as [Hf Hs].
    destruct a; [|destruct t].
    + destruct (cleanup c s1) as [s2 e2] eqn:Ec. simpl in *. subst e2.
      rewrite !fold_left_app, Hnone. simpl. rewrite (forceStop_track c [] He).
      split; [by left|]. intros c'. by rewrite Hs.
    + destruct (cleanup c s1) as [s2 e2] eqn:Ec. simpl in *. subst e2.
      rewrite !fold_left_app, Hnone. simpl.
      rewrite fold_left_app, (forceStop_track c [handle c] He). simpl.
      rewrite Nat.eqb_refl. simpl.
      split; [by left|]. intros c'. by rewrite Hs.
    + simpl. rewrite !fold_left_app, Hnone. simpl.
      split; [right; by exists c|]. by intros c' [= <-].
  - unfold handleAbort.
    pose proof (cleanup_only_current c s live He H) as Hc.
    by destruct (cleanup c s) as [s1 e1].
  - unfold stopFeishuMonitor. destruct (currentWsClient s) as [c|] eqn:E; simpl.
    + rewrite (forceStop_track c live) by (by apply H).
      rewrite (stop_current c s live H) by (by rewrite E).
      split; [by left|done].
    + rewrite (nothing_current s live H E). split; [by left|done].
  - unfold on_message_receive. case_bool_decide; [done|].
    destruct (message_id ev) as [[|ch r]|]; try done.
    case_bool_decide; done.
Qed.

Lemma run_only_current es s live :
  forallb stoppable es = true → only_current s live →
  only_current (run es s).1 (fold_left track (run es s).2 live).
Proof.
  revert s live. induction es as [|e es IH]; intros s live Hes H; simpl; [done|].
  simpl in Hes. apply andb_true_iff in Hes as [He Hes].
  pose proof (step_only_current e s live He H) as H1.
  destruct (step e s) as [s1 eff1]. simpl in H1.
  pose proof (IH s1 _ Hes H1) as H2.
  destruct (run es s1) as [s2 eff2]. simpl in *.
  by rewrite fold_left_app.
Qed.

Lemma run_snoc es e s :
  run (es ++ [e]) s
  = ((step e (run es s).1).1, (run es s).2 ++ (step e (run es s).1).2).
Proof.
  revert s. induction es as [|e' es IH]; intros s; simpl.
  - destruct (step e s) as [s1 eff1]. simpl. by rewrite app_nil_r.
  - destruct (step e' s) as [s1 eff1]. rewrite IH.
    destruct (run es s1) as [s2 eff2]. simpl. by rewrite app_assoc.
Qed.

(** X10. At most one connection runs, as far as force-stopping works.
    [forceStopWSClient] is best effort; take a run in which it succeeds:
    every client object of the run (started or aborted) is such that a
    force-stop of it gets as far as a [terminate] or [close] call that
    returns.  Then, counting a client as running from [wsClient.start]
    until such a call, after every sequence of starts (aborted, failing
    or successful), aborts, stops and deliveries either no client is
    running or exactly one is, the one held in [currentWsClient]: a
    client that was started is stopped before another one starts.
    After [stopFeishuMonitor] none runs. *)
Theorem at_most_one_client_running (es : list event) :
  forallb stoppable es = true →
  (running (run es initial).2 = []
   ∨ ∃ c, running (run es initial).2 = [handle c]
          ∧ currentWsClient (run es initial).1 = Some c)
  ∧ running (run (es ++ [Stop]) initial).2 = [].
Proof.
  intros Hes.
  assert (Hinv : ∀ l, forallb stoppable l = true →
                      only_current (run l initial).1 (running (run l initial).2)).
  { intros l Hl. apply (run_only_current l initial [] Hl). split; [by left|done]. }
  split; [by apply Hinv|].
  assert (Hes' : forallb stoppable (es ++ [Stop]) = true).
  { rewrite forallb_app, Hes. done. }
  destruct (Hinv (es ++ [Stop]) Hes') as [[H|(c & _ & Hc)] _]; [done|].
  rewrite run_snoc in Hc. simpl in Hc. unfold stopFeishuMonitor in Hc.
  by destruct (currentWsClient (run es initial).1).
Qed.

Lemma step_cache_entry e s m t :
  processedMessages (step e s).1 !! m = Some t →
  processedMessages s !! m = Some t
  ∨ ∃ sid ev, e = Receive sid ev t ∧ message_id ev = Some m ∧ m ≠ []
              ∧ sid = activeSessionId s ∧ processedMessages s !! m = None
              ∧ (step e s).2 = [HandleFeishuMessage ev].
Proof.
  destruct e as [c a st|c| |sid ev now]; simpl.
  - unfold monitorWebSocket, cleanup.
    destruct a; [|destruct st]; simpl; repeat case_bool_decide; simpl; by left.
  - unfold handleAbort, cleanup. case_bool_decide; by left.
  - unfold stopFeishuMonitor. destruct (currentWsClient s); by left.
  - unfold on_message_receive. case_bool_decide as Hsid; [by left|].
    destruct (message_id ev) as [[|ch r]|] eqn:Hid; [by left| |by left].
    case_bool_decide as Hseen; [by left|]. simpl.
    assert (Hfresh : processedMessages s !! (ch :: r) = None).
    { destruct (processedMessages s !! (ch :: r)) eqn:E; [|done].
      exfalso. apply Hseen. by eexists. }
    intros Hk.
    assert (Hins : <[ch :: r := now]> (processedMessages s) !! m = Some t).
    { revert Hk. case_bool_decide; [|done].
      by intros [? _]%MonitorProps.prune_lookup_Some. }
    destruct (decide (m = ch :: r)) as [->|Hne].
    + rewrite lookup_insert_eq in Hins. injection Hins as ->.
      right. exists sid, ev. repeat split; try done.
    + rewrite lookup_insert_ne in Hins by done. by left.
Qed.

(** X11. The cache holds first sightings.  Whatever the module goes
    through, an entry of the dedup cache is either one that was there
    before with the same timestamp, or the identifier of a delivery
    of the run that was forwarded to the agent boundary, stamped with
    the clock reading of that delivery.  A duplicate is never
    recorded, so it never refreshes a timestamp: the TTL counts from
    the delivery that was forwarded. *)
Theorem cache_holds_first_sightings (es : list event) (s : state) (m : jsstring) (t : Z) :
  processedMessages (run es s).1 !! m = Some t →
  processedMessages s !! m = Some t
  ∨ ∃ sid ev, In (Receive sid ev t) es ∧ message_id ev = Some m ∧ m ≠ []
              ∧ In (HandleFeishuMessage ev) (run es s).2.
Proof.
  revert s. induction es as [|e es IH]; intros s; simpl; [by left|].
  pose proof (step_cache_entry e s m t) as Hstep.
  destruct (step e s) as [s1 eff1]. simpl in Hstep.
  specialize (IH s1). destruct (run es s1) as [s2 eff2]. simpl in *.
  intros Hk. destruct (IH Hk) as [H1|(sid & ev & Hin & Hid & Hne & Hfwd)].
  - destruct (Hstep H1) as [H0|(sid & ev & -> & Hid & Hne & _ & _ & ->)]; [by left|].
    right. exists sid, ev. repeat split; try done; [by left|]. simpl. by left.
  - right. exists sid, ev. repeat split; try done; [by right|].
    apply in_or_app. by right.
Qed.

(** *** Concrete runs *)

Definition no_id : FeishuMessageEvent := {| message_id := None; content := js "hello" |}.
Definition empty_id : FeishuMessageEvent := {| message_id := Some []; content := js "hello" |}.
Definition om_a : FeishuMessageEvent :=
  {| message_id := Some (js "om_a"); content := js "hello" |}.

Lemma unidentified_events_witness :
  run (map (λ en : FeishuMessageEvent * Z, Receive (activeSessionId initial) en.1 en.2)
         [(no_id, 1); (no_id, 2); (empty_id, 3)]) initial
  = (initial,
     map (λ en : FeishuMessageEvent * Z, HandleFeishuMessage en.1)
       [(no_id, 1); (no_id, 2); (empty_id, 3)]).
Proof.
  exact (unidentified_events_bypass_dedup initial
           [(no_id, 1); (no_id, 2); (empty_id, 3)] eq_refl).
Defined.

Lemma first_sighting_witness :
  processedMessages
    (run [Start (MonitorProps.connected 1) false false; Receive 1 om_a 1000; Receive 1 om_a 2000] initial).1
    !! js "om_a" = Some 1000
  ∧ (processedMessages initial !! js "om_a" = Some 1000
     ∨ ∃ sid ev,
         In (Receive sid ev 1000)
           [Start (MonitorProps.connected 1) false false; Receive 1 om_a 1000; Receive 1 om_a 2000]
         ∧ message_id ev = Some (js "om_a") ∧ js "om_a" ≠ []
         ∧ In (HandleFeishuMessage ev)
             (run [Start (MonitorProps.connected 1) false false; Receive 1 om_a 1000; Receive 1 om_a 2000]
                initial).2).
Proof.
  assert (H : processedMessages
                (run [Start (MonitorProps.connected 1) false false; Receive 1 om_a 1000; Receive 1 om_a 2000]
                   initial).1 !! js "om_a" = Some 1000) by (vm_compute; reflexivity).
  exact (conj H (cache_holds_first_sightings
                   [Start (MonitorProps.connected 1) false false; Receive 1 om_a 1000; Receive 1 om_a 2000]
                   initial (js "om_a") 1000 H)).
Defined.

(** A client whose socket can only be closed. *)
Definition closable (h : nat) : WSClient :=
  {| handle := h; pingInterval := None; reconnectInterval := Some h;
     wsConfig :=
       Some {| getWSInstance :=
                 Some (Gives (Some {| terminate := None; close := Some Returns |})) |} |}.

Lemma one_client_witness :
  forallb stoppable
    [Start (MonitorProps.connected 1) false false; Start (closable 2) false true;
     Start (closable 3) false false; Abort (MonitorProps.connected 1);
     Start (MonitorProps.connected 4) false false] = true
  ∧ running
      (run [Start (MonitorProps.connected 1) false false; Start (closable 2) false true;
            Start (closable 3) false false; Abort (MonitorProps.connected 1);
            Start (MonitorProps.connected 4) false false] initial).2 = [4%nat]
  ∧ running
      (run ([Start (MonitorProps.connected 1) false false; Start (closable 2) false true;
             Start (closable 3) false false; Abort (MonitorProps.connected 1);
             Start (MonitorProps.connected 4) false false] ++ [Stop]) initial).2 = [].
Proof.
  split; [reflexivity|]. split; [reflexivity|].
  exact (proj2 (at_most_one_client_running
                  [Start (MonitorProps.connected 1) false false;
                   Start (closable 2) false true;
                   Start (closable 3) false false; Abort (MonitorProps.connected 1);
                   Start (MonitorProps.connected 4) false false] eq_refl)).
Defined.

End MonitorInvariants.

(** ** typing.ts

    The typing indicator is a reaction on the message being answered.
    A call of the reaction API is an effect; how the platform answers
    it is an argument. *)

Module Typing.

Definition TYPING_EMOJI : jsstring := js "THUMBSUP".
Definition DONE_EMOJI : jsstring := js "DONE".

Record TypingIndicatorState := {
  messageId : jsstring;
  reactionId : option jsstring
}.

Inductive effect :=
| CreateReaction (message_id emoji_type : jsstring)
| DeleteReaction (message_id reaction_id : jsstring)
| ConsoleLog (line : string).

(** The answer to [messageReaction.create]: it throws, or it responds
    and [response?.data?.reaction_id] is read ([None] when a link of
    the chain is missing). *)
Inductive answer :=
| Thrown
| Responded (reaction_id : option jsstring).

(** [addTypingIndicator]; [hasFeishuCfg] is whether
    [cfg.channels?.feishu] is there. *)
Definition addTypingIndicator (hasFeishuCfg : bool) (messageId : jsstring) (a : answer) :
    TypingIndicatorState * list effect :=
  if negb hasFeishuCfg then ({| messageId := messageId; reactionId := None |}, [])
  else
    match a with
    | Responded rid =>
        ({| messageId := messageId; reactionId := rid |},
         [CreateReaction messageId TYPING_EMOJI])
    | Thrown =>
        ({| messageId := messageId; reactionId := None |},
         [CreateReaction messageId TYPING_EMOJI;
          ConsoleLog "[feishu] failed to add typing indicator"])
    end.

(** [removeTypingIndicator]; [deleteThrows] is whether
    [messageReaction.delete] throws. *)
Definition removeTypingIndicator (hasFeishuCfg : bool) (state : TypingIndicatorState)
    (deleteThrows : bool) : list effect :=
  match reactionId state with
  | Some (c :: r) =>
      if negb hasFeishuCfg then []
      else
        DeleteReaction (messageId state) (c :: r)
        :: (if deleteThrows then [ConsoleLog "[feishu] failed to remove typing indicator"]
            else [])
  | _ => []
  end.

(** [addDoneReaction]: a failure is swallowed. *)
Definition addDoneReaction (hasFeishuCfg : bool) (messageId : jsstring) : list effect :=
  if negb hasFeishuCfg then [] else [CreateReaction messageId DONE_EMOJI].

(** The reactions a sequence of effects deletes. *)
Definition deleted (effs : list effect) : list (jsstring * jsstring) :=
  omap (λ e, match e with DeleteReaction m r => Some (m, r) | _ => None end) effs.

(** X15. Removing the typing indicator deletes what adding it
    created.  [removeTypingIndicator], given the state
    [addTypingIndicator] returned, deletes exactly one reaction, the
    one the platform created, on the same message, when the creation
    succeeded with a non-empty reaction id; when the configuration is
    missing, the creation threw, or no id came back, it makes no call
    at all.  Neither function ever deletes anything else. *)
Theorem typing_indicator_round_trip
    (hasFeishuCfg deleteThrows : bool) (message : jsstring) (a : answer) :
  messageId (addTypingIndicator hasFeishuCfg message a).1 = message
  ∧ deleted (addTypingIndicator hasFeishuCfg message a).2 = []
  ∧ deleted (removeTypingIndicator hasFeishuCfg
               (addTypingIndicator hasFeishuCfg message a).1 deleteThrows)
    = match a with
      | Responded (Some (c :: r)) => if hasFeishuCfg then [(message, c :: r)] else []
      | _ => []
      end
  ∧ (deleted (removeTypingIndicator hasFeishuCfg
                (addTypingIndicator hasFeishuCfg message a).1 deleteThrows) = [] →
     removeTypingIndicator hasFeishuCfg
       (addTypingIndicator hasFeishuCfg message a).1 deleteThrows = []).
Proof.
  unfold addTypingIndicator, removeTypingIndicator.
  destruct hasFeishuCfg, a as [|[[|c r]|]], deleteThrows; simpl; by repeat split.
Qed.

End Typing.
